(** * A shallow embedding of the [matching] package (stable marriage and
    hospital/resident solvers) and proofs of its specification.

    Players are Python strings.  A Python [dict] is an insertion-ordered
    association list ([dict V]); a Python [list] of players is a
    [list string].  The solvers mutate the dictionaries they are given,
    so each solver is written in a small state/exception monad whose state
    holds the caller's dictionaries together with the solver's locals.
    Python [while] loops are run on fuel; running out of fuel is the
    distinguished outcome [OutOfFuel], never an exception of the code. *)

From Stdlib Require Import String List Bool Arith Lia ZArith Permutation Sorted.
Import ListNotations.
Open Scope string_scope.
Open Scope list_scope.

(* ------------------------------------------------------------------ *)
(** ** Python values and effects *)

Inductive exn : Type :=
| KeyError
| IndexError
| ValueError (msg : string).

Inductive outcome (A : Type) : Type :=
| Ok (a : A)
| Raise (e : exn)
| OutOfFuel.
Arguments Ok {A} a.
Arguments Raise {A} e.
Arguments OutOfFuel {A}.

(** State and exception monad: the state is threaded through errors, so the
    caller sees the objects as they were when an exception was raised. *)
Definition PyM (S A : Type) : Type := S -> outcome A * S.

Definition ret {S A} (a : A) : PyM S A := fun s => (Ok a, s).

Definition bind {S A B} (m : PyM S A) (k : A -> PyM S B) : PyM S B :=
  fun s =>
    match m s with
    | (Ok a, s') => k a s'
    | (Raise e, s') => (Raise e, s')
    | (OutOfFuel, s') => (OutOfFuel, s')
    end.

Notation "x <- m ;; k" := (bind m (fun x => k))
  (at level 61, m at next level, right associativity).
Notation "m ;;; k" := (bind m (fun _ => k))
  (at level 61, right associativity).

Definition get {S} : PyM S S := fun s => (Ok s, s).
Definition modify {S} (f : S -> S) : PyM S unit := fun s => (Ok tt, f s).
Definition lift {S A} (o : outcome A) : PyM S A := fun s => (o, s).
Definition out_of_fuel {S A} : PyM S A := fun s => (OutOfFuel, s).

(** [for x in xs: body(x)] *)
Fixpoint for_each {S A} (xs : list A) (body : A -> PyM S unit) : PyM S unit :=
  match xs with
  | [] => ret tt
  | x :: xs' => body x ;;; for_each xs' body
  end.

(** Dictionaries. *)
Definition dict (V : Type) : Type := list (string * V).

Fixpoint dget {V} (d : dict V) (k : string) : option V :=
  match d with
  | [] => None
  | (k', v) :: d' => if String.eqb k k' then Some v else dget d' k
  end.

(** [d[k] = v]: an existing key keeps its position, a new one is appended. *)
Fixpoint dset {V} (d : dict V) (k : string) (v : V) : dict V :=
  match d with
  | [] => [(k, v)]
  | (k', v') :: d' =>
      if String.eqb k k' then (k', v) :: d' else (k', v') :: dset d' k v
  end.

(** [d[k]] *)
Definition getitem {V} (d : dict V) (k : string) : outcome V :=
  match dget d k with Some v => Ok v | None => Raise KeyError end.

(** Lists. *)
Definition mem (x : string) (l : list string) : bool := existsb (String.eqb x) l.

(** The first position of [x] in [l]. *)
Fixpoint find_index {A} (eqb : A -> A -> bool) (x : A) (l : list A) : option nat :=
  match l with
  | [] => None
  | y :: l' => if eqb x y then Some 0 else option_map S (find_index eqb x l')
  end.

Definition idx_of (x : string) (l : list string) : option nat :=
  find_index String.eqb x l.

(** [l.index(x)] *)
Definition list_index (x : string) (l : list string) : outcome nat :=
  match idx_of x l with
  | Some i => Ok i
  | None => Raise (ValueError "x is not in list")
  end.

(** Deleting the first occurrence of [x]; [rem] leaves a list without [x]
    unchanged. *)
Fixpoint rem (x : string) (l : list string) : list string :=
  match l with
  | [] => []
  | y :: l' => if String.eqb x y then l' else y :: rem x l'
  end.

(** [l.remove(x)] *)
Definition list_remove (x : string) (l : list string) : outcome (list string) :=
  if mem x l then Ok (rem x l)
  else Raise (ValueError "list.remove(x): x not in list").

(** [l[0]] *)
Definition list_head {A} (l : list A) : outcome A :=
  match l with
  | x :: _ => Ok x
  | [] => Raise IndexError
  end.

(** [l[i]] *)
Definition list_nth {A} (l : list A) (i : nat) : outcome A :=
  match nth_error l i with
  | Some x => Ok x
  | None => Raise IndexError
  end.

Definition opt_eqb (a b : option string) : bool :=
  match a, b with
  | Some x, Some y => String.eqb x y
  | None, None => true
  | _, _ => false
  end.

(* ------------------------------------------------------------------ *)
(** ** [stable_marriage] (src/matching/algorithms/stable_marriage.py) *)

Module SM.

(** The objects the loop reads and writes: the two preference dicts (the
    caller's own objects, after the optional swap), the queue [suitors]
    and the dict [matching], where [None] is Python's [None]. *)
Record state : Type := State {
  suitor_prefs : dict (list string);
  reviewer_prefs : dict (list string);
  suitors : list string;
  matching : dict (option string)
}.

Definition set_suitor_prefs (d : dict (list string)) (st : state) : state :=
  State d (reviewer_prefs st) (suitors st) (matching st).
Definition set_reviewer_prefs (d : dict (list string)) (st : state) : state :=
  State (suitor_prefs st) d (suitors st) (matching st).
Definition set_suitors (q : list string) (st : state) : state :=
  State (suitor_prefs st) (reviewer_prefs st) q (matching st).
Definition set_matching (m : dict (option string)) (st : state) : state :=
  State (suitor_prefs st) (reviewer_prefs st) (suitors st) m.

(** Lines 70-71, one successor:
    [reviewer_prefs[reviewer].remove(successor)] and
    [suitor_prefs[successor].remove(reviewer)]. *)
Definition prune (reviewer successor : string) : PyM state unit :=
  st <- get ;;
  rl <- lift (getitem (reviewer_prefs st) reviewer) ;;
  rl' <- lift (list_remove successor rl) ;;
  modify (set_reviewer_prefs (dset (reviewer_prefs st) reviewer rl')) ;;;
  st <- get ;;
  sl <- lift (getitem (suitor_prefs st) successor) ;;
  sl' <- lift (list_remove reviewer sl) ;;
  modify (set_suitor_prefs (dset (suitor_prefs st) successor sl')).

(** Lines 55-71: one iteration of [while suitors:]. *)
Definition body : PyM state unit :=
  st <- get ;;
  match suitors st with
  | [] => ret tt
  | suitor :: rest =>
      modify (set_suitors rest) ;;;
      st <- get ;;
      sl <- lift (getitem (suitor_prefs st) suitor) ;;
      reviewer <- lift (list_head sl) ;;
      (if existsb (opt_eqb (Some reviewer)) (map snd (matching st)) then
         idx <- lift (match find_index opt_eqb (Some reviewer) (map snd (matching st)) with
                      | Some i => Ok i
                      | None => Raise (ValueError "x is not in list")
                      end) ;;
         current_partner <- lift (list_nth (map fst (matching st)) idx) ;;
         modify (set_matching (dset (matching st) current_partner None)) ;;;
         st <- get ;;
         modify (set_suitors (suitors st ++ [current_partner]))
       else ret tt) ;;;
      st <- get ;;
      modify (set_matching (dset (matching st) suitor (Some reviewer))) ;;;
      st <- get ;;
      rl <- lift (getitem (reviewer_prefs st) reviewer) ;;
      idx <- lift (list_index suitor rl) ;;
      let successors := skipn (S idx) rl in
      for_each successors (prune reviewer)
  end.

(** Line 54: [while suitors:]. *)
Fixpoint loop (fuel : nat) : PyM state unit :=
  match fuel with
  | O => out_of_fuel
  | S fuel' =>
      st <- get ;;
      match suitors st with
      | [] => ret tt
      | _ :: _ => body ;;; loop fuel'
      end
  end.

Definition initial (sp rp : dict (list string)) : state :=
  State sp rp (map fst sp) (map (fun s => (s, None)) (map fst sp)).

(** The whole function.  The second component is the pair of the caller's
    [(suitor_prefs, reviewer_prefs)] objects after the call: the solver
    works on them in place. *)
Definition stable_marriage (fuel : nat) (suitor_prefs reviewer_prefs : dict (list string))
    (optimal : string)
    : outcome (dict (option string)) * (dict (list string) * dict (list string)) :=
  let swap := String.eqb optimal "reviewer" in
  let sp := if swap then reviewer_prefs else suitor_prefs in
  let rp := if swap then suitor_prefs else reviewer_prefs in
  let '(o, st) := loop fuel (initial sp rp) in
  let caller := if swap then (SM.reviewer_prefs st, SM.suitor_prefs st)
                else (SM.suitor_prefs st, SM.reviewer_prefs st) in
  (match o with
   | Ok _ => Ok (matching st)
   | Raise e => Raise e
   | OutOfFuel => OutOfFuel
   end, caller).

End SM.

(* ------------------------------------------------------------------ *)
(** ** [hospital_resident] (src/matching/algorithms/hospital_resident.py) *)

Module HR.

(** The caller's two preference dicts and the solver's [matching]. *)
Record state : Type := State {
  hospital_prefs : dict (list string);
  resident_prefs : dict (list string);
  matching : dict (list string)
}.

Definition set_hospital_prefs (d : dict (list string)) (st : state) : state :=
  State d (resident_prefs st) (matching st).
Definition set_resident_prefs (d : dict (list string)) (st : state) : state :=
  State (hospital_prefs st) d (matching st).
Definition set_matching (m : dict (list string)) (st : state) : state :=
  State (hospital_prefs st) (resident_prefs st) m.

Definition check_msg : string := "Hospitals must rank all residents who rank them.".

(** [_check_inputs]: reads the two dicts, writes nothing. *)
Definition check_inputs : PyM state unit :=
  st <- get ;;
  for_each (map fst (resident_prefs st)) (fun resident =>
    hospitals <- lift (getitem (resident_prefs st) resident) ;;
    for_each hospitals (fun hospital =>
      hl <- lift (getitem (hospital_prefs st) hospital) ;;
      if mem resident hl then ret tt
      else lift (Raise (ValueError check_msg)))).

(** [_get_free_residents] *)
Definition free_residents (rp : dict (list string)) (m : dict (list string)) : list string :=
  filter (fun resident =>
            match dget rp resident with Some (_ :: _) => true | _ => false end
            && negb (existsb (fun match_ => mem resident match_) (map snd m)))
         (map fst rp).

(** [max(...)] of a list of naturals. *)
Definition py_max (l : list nat) : outcome nat :=
  match l with
  | [] => Raise (ValueError "max() arg is an empty sequence")
  | i :: is => Ok (fold_left Nat.max is i)
  end.

(** [_get_worst_idx]; [hospital_prefs[hospital].index(resident)] is taken of
    a [resident] drawn from that very list, so it always succeeds. *)
Definition get_worst_idx (hospital : string) (hp m : dict (list string)) : outcome nat :=
  match getitem hp hospital with
  | Ok [] => py_max []
  | Ok hl =>
      match getitem m hospital with
      | Ok ml =>
          py_max (map (fun resident => match idx_of resident hl with Some i => i | None => 0 end)
                      (filter (fun resident => mem resident ml) hl))
      | Raise e => Raise e
      | OutOfFuel => OutOfFuel
      end
  | Raise e => Raise e
  | OutOfFuel => OutOfFuel
  end.

(** Lines 106-108, one successor. *)
Definition prune_resident (hospital resident : string) : PyM state unit :=
  st <- get ;;
  hl <- lift (getitem (hospital_prefs st) hospital) ;;
  hl' <- lift (list_remove resident hl) ;;
  modify (set_hospital_prefs (dset (hospital_prefs st) hospital hl')) ;;;
  st <- get ;;
  rl <- lift (getitem (resident_prefs st) resident) ;;
  if mem hospital rl then
    rl' <- lift (list_remove hospital rl) ;;
    modify (set_resident_prefs (dset (resident_prefs st) resident rl'))
  else ret tt.

(** Lines 92-93: [hospital = resident_prefs[resident][0]] and
    [matching[hospital].append(resident)]; returns [hospital]. *)
Definition ro_append (resident : string) : PyM state string :=
  st <- get ;;
  rl <- lift (getitem (resident_prefs st) resident) ;;
  hospital <- lift (list_head rl) ;;
  ml <- lift (getitem (matching st) hospital) ;;
  modify (set_matching (dset (matching st) hospital (ml ++ [resident]))) ;;;
  ret hospital.

(** Lines 95-98: evict the worst match of an over-subscribed hospital. *)
Definition ro_evict (capacities : dict Z) (hospital : string) : PyM state unit :=
  st <- get ;;
  ml <- lift (getitem (matching st) hospital) ;;
  cap <- lift (getitem capacities hospital) ;;
  if Z.ltb cap (Z.of_nat (length ml)) then
    worst <- lift (get_worst_idx hospital (hospital_prefs st) (matching st)) ;;
    hl <- lift (getitem (hospital_prefs st) hospital) ;;
    resident' <- lift (list_nth hl worst) ;;
    ml' <- lift (list_remove resident' ml) ;;
    modify (set_matching (dset (matching st) hospital ml'))
  else ret tt.

(** Lines 100-108: a hospital at capacity prunes the successors of its
    worst match. *)
Definition ro_prune (capacities : dict Z) (hospital : string) : PyM state unit :=
  st <- get ;;
  ml <- lift (getitem (matching st) hospital) ;;
  cap <- lift (getitem capacities hospital) ;;
  if Z.eqb (Z.of_nat (length ml)) cap then
    worst <- lift (get_worst_idx hospital (hospital_prefs st) (matching st)) ;;
    hl <- lift (getitem (hospital_prefs st) hospital) ;;
    let successors := skipn (S worst) hl in
    for_each successors (prune_resident hospital)
  else ret tt.

(** Lines 91-108: one iteration of the resident-optimal loop, for the
    resident [free_residents[0]]. *)
Definition ro_body (capacities : dict Z) (resident : string) : PyM state unit :=
  hospital <- ro_append resident ;;
  ro_evict capacities hospital ;;;
  ro_prune capacities hospital.

(** Lines 90-110: [while free_residents:]. *)
Fixpoint ro_loop (capacities : dict Z) (fuel : nat) : PyM state unit :=
  match fuel with
  | O => out_of_fuel
  | S fuel' =>
      st <- get ;;
      match free_residents (resident_prefs st) (matching st) with
      | [] => ret tt
      | resident :: _ => ro_body capacities resident ;;; ro_loop capacities fuel'
      end
  end.

(** Python's [sorted] is stable: an element goes after every element whose
    key is not larger than its own. *)
Fixpoint insert_by_key (k : nat) (x : string) (l : list (nat * string)) : list (nat * string) :=
  match l with
  | [] => [(k, x)]
  | (k', y) :: l' => if Nat.ltb k k' then (k, x) :: l else (k', y) :: insert_by_key k x l'
  end.

Definition sort_by_key (l : list (nat * string)) : list string :=
  map snd (fold_left (fun acc kx => insert_by_key (fst kx) (snd kx) acc) l []).

(** The keys [hospital_prefs[hospital].index(r)] of every match, computed
    before sorting. *)
Fixpoint keys_of (hl : list string) (matches : list string) : outcome (list (nat * string)) :=
  match matches with
  | [] => Ok []
  | r :: rs =>
      match list_index r hl with
      | Ok i =>
          match keys_of hl rs with
          | Ok ks => Ok ((i, r) :: ks)
          | other => other
          end
      | Raise e => Raise e
      | OutOfFuel => OutOfFuel
      end
  end.

(** Lines 112-114. *)
Definition sort_matches : PyM state unit :=
  st <- get ;;
  for_each (map fst (matching st)) (fun hospital =>
    st <- get ;;
    matches <- lift (getitem (matching st) hospital) ;;
    hl <- lift (getitem (hospital_prefs st) hospital) ;;
    ks <- lift (keys_of hl matches) ;;
    modify (set_matching (dset (matching st) hospital (sort_by_key ks)))).

Definition empty_matching (hp : dict (list string)) : dict (list string) :=
  map (fun h => (h, [])) (map fst hp).

(** [hr_resident_optimal] *)
Definition hr_resident_optimal (capacities : dict Z) (fuel : nat) : PyM state (dict (list string)) :=
  modify (fun st => set_matching (empty_matching (hospital_prefs st)) st) ;;;
  ro_loop capacities fuel ;;;
  sort_matches ;;;
  st <- get ;;
  ret (matching st).

(** Python's truth value of a player name (a string): non-empty. *)
Definition truthy (s : string) : bool := negb (String.eqb s "").

(** [_get_free_hospitals] *)
Fixpoint free_hospitals_aux (hs : list string) (hp : dict (list string)) (capacities : dict Z)
    (m : dict (list string)) : outcome (list string) :=
  match hs with
  | [] => Ok []
  | hospital :: hs' =>
      match getitem m hospital with
      | Raise e => Raise e
      | OutOfFuel => OutOfFuel
      | Ok ml =>
          match getitem capacities hospital with
          | Raise e => Raise e
          | OutOfFuel => OutOfFuel
          | Ok cap =>
              let free :=
                Z.ltb (Z.of_nat (length ml)) cap &&
                existsb truthy
                  (filter (fun resident => negb (mem resident ml))
                          (match dget hp hospital with Some hl => hl | None => [] end)) in
              match free_hospitals_aux hs' hp capacities m with
              | Ok rest => Ok (if free then hospital :: rest else rest)
              | other => other
              end
          end
      end
  end.

Definition free_hospitals (hp : dict (list string)) (capacities : dict Z) (m : dict (list string))
    : outcome (list string) :=
  free_hospitals_aux (map fst hp) hp capacities m.

(** Lines 180-181, one successor. *)
Definition prune_hospital (resident successor : string) : PyM state unit :=
  st <- get ;;
  hl <- lift (getitem (hospital_prefs st) successor) ;;
  hl' <- lift (list_remove resident hl) ;;
  modify (set_hospital_prefs (dset (hospital_prefs st) successor hl')) ;;;
  st <- get ;;
  rl <- lift (getitem (resident_prefs st) resident) ;;
  rl' <- lift (list_remove successor rl) ;;
  modify (set_resident_prefs (dset (resident_prefs st) resident rl')).

(** Lines 170-172: drop [resident] from every hospital's matches. *)
Definition unassign (resident : string) (m : dict (list string)) : dict (list string) :=
  map (fun hm => if mem resident (snd hm) then (fst hm, rem resident (snd hm)) else hm) m.

(** Lines 163-181: one iteration of the hospital-optimal loop, for the
    hospital [free_hospitals[0]]. *)
Definition ho_body (hospital : string) : PyM state unit :=
  st <- get ;;
  hl <- lift (getitem (hospital_prefs st) hospital) ;;
  ml <- lift (getitem (matching st) hospital) ;;
  resident <- lift (list_head (filter (fun r => negb (mem r ml)) hl)) ;;
  modify (set_matching (unassign resident (matching st))) ;;;
  st <- get ;;
  ml <- lift (getitem (matching st) hospital) ;;
  modify (set_matching (dset (matching st) hospital (ml ++ [resident]))) ;;;
  st <- get ;;
  rl <- lift (getitem (resident_prefs st) resident) ;;
  idx <- lift (list_index hospital rl) ;;
  let successors := skipn (S idx) rl in
  for_each successors (prune_hospital resident).

(** Lines 162-185: [while free_hospitals:]. *)
Fixpoint ho_loop (capacities : dict Z) (fuel : nat) : PyM state unit :=
  match fuel with
  | O => out_of_fuel
  | S fuel' =>
      st <- get ;;
      fh <- lift (free_hospitals (hospital_prefs st) capacities (matching st)) ;;
      match fh with
      | [] => ret tt
      | hospital :: _ => ho_body hospital ;;; ho_loop capacities fuel'
      end
  end.

(** [hr_hospital_optimal] *)
Definition hr_hospital_optimal (capacities : dict Z) (fuel : nat) : PyM state (dict (list string)) :=
  modify (fun st => set_matching (empty_matching (hospital_prefs st)) st) ;;;
  ho_loop capacities fuel ;;;
  st <- get ;;
  ret (matching st).

Definition dquote : string := String (Ascii.ascii_of_nat 34) EmptyString.

Definition optimal_msg (optimal : string) : string :=
  String.concat "" ["Optimality option unknown. Should be one of "; dquote; "resident";
                    dquote; " or "; dquote; "hospital"; dquote; ". Got "; optimal; "."].

(** [hospital_resident]; the second component holds the caller's
    [(hospital_prefs, resident_prefs)] objects after the call. *)
Definition hospital_resident (fuel : nat) (hospital_prefs resident_prefs : dict (list string))
    (capacities : dict Z) (optimal : string)
    : outcome (dict (list string)) * (dict (list string) * dict (list string)) :=
  let run : PyM state (dict (list string)) :=
    check_inputs ;;;
    if String.eqb optimal "resident" then hr_resident_optimal capacities fuel
    else if String.eqb optimal "hospital" then hr_hospital_optimal capacities fuel
    else lift (Raise (ValueError (optimal_msg optimal))) in
  let '(o, st) := run (State hospital_prefs resident_prefs []) in
  (o, (HR.hospital_prefs st, HR.resident_prefs st)).

End HR.

(* ------------------------------------------------------------------ *)
(** ** Specification predicates *)

(** [l] is [l0] with some entries deleted, the rest in their order. *)
Inductive subseq : list string -> list string -> Prop :=
| subseq_nil : subseq [] []
| subseq_skip l l0 x : subseq l l0 -> subseq l (x :: l0)
| subseq_take l l0 x : subseq l l0 -> subseq (x :: l) (x :: l0).

(** [d] holds the same keys as [d0], in the same order, and every list of
    [d] is the corresponding list of [d0] with entries deleted. *)
Definition pruned_of (d0 d : dict (list string)) : Prop :=
  Forall2 (fun kl0 kl => fst kl = fst kl0 /\ subseq (snd kl) (snd kl0)) d0 d.

(** Strict preference lists: no player listed twice. *)
Definition strict_lists (d : dict (list string)) : Prop :=
  forall k l, In (k, l) d -> NoDup l.

(** A complete, strict SM side: every list ranks every player of the other
    side exactly once. *)
Definition complete_side (P Q : dict (list string)) : Prop :=
  forall k l, In (k, l) P -> NoDup l /\ (forall x, In x l <-> In x (map fst Q)).

Definition complete_instance (P Q : dict (list string)) : Prop :=
  NoDup (map fst P) /\ NoDup (map fst Q) /\ length P = length Q /\
  complete_side P Q /\ complete_side Q P.

(** [x] has a better (smaller) rank than [y] in the list [l]. *)
Definition prefers (l : list string) (x y : string) : Prop :=
  exists i j, idx_of x l = Some i /\ idx_of y l = Some j /\ i < j.

(** The suitor matched to reviewer [r] in an SM matching. *)
Definition partner (M : dict (option string)) (r : string) : option string :=
  option_map fst (find (fun kv => opt_eqb (snd kv) (Some r)) M).

(** [s] and [r] block the SM matching [M] for the preferences [P] (of the
    key side) and [Q] (of the value side). *)
Definition blocking_pair (P Q : dict (list string)) (M : dict (option string)) (s r : string) : Prop :=
  dget M s <> Some (Some r) /\
  (exists ls, dget P s = Some ls /\ In r ls /\
     match dget M s with Some (Some r0) => prefers ls r r0 | _ => True end) /\
  (exists lr, dget Q r = Some lr /\ In s lr /\
     match partner M r with Some s0 => prefers lr s s0 | None => True end).

Definition stable (P Q : dict (list string)) (M : dict (option string)) : Prop :=
  forall s r, ~ blocking_pair P Q M s r.

(** Every player of [P] is a key of [M] once, and the values of [M] are the
    players of [Q], each once, none [None]. *)
Definition bijection (P Q : dict (list string)) (M : dict (option string)) : Prop :=
  map fst M = map fst P /\ exists vs, map snd M = map Some vs /\ Permutation vs (map fst Q).

(** Every capacity is a nonnegative integer. *)
Definition caps_nonneg (capacities : dict Z) : Prop :=
  forallb (fun hc => Z.leb 0 (snd hc)) capacities = true.

(** The run did not end in an exception (it finished, or is paused after a
    number of loop iterations). *)
Definition no_raise {A} (o : outcome A) : Prop := forall e, o <> Raise e.

Definition within_capacity (capacities : dict Z) (m : dict (list string)) : Prop :=
  forall h ms c, dget m h = Some ms -> dget capacities h = Some c -> (Z.of_nat (length ms) <= c)%Z.

(** [x] is ranked no worse than [y] in [hl]. *)
Definition rank_le (hl : list string) (x y : string) : Prop :=
  exists i j, idx_of x hl = Some i /\ idx_of y hl = Some j /\ i <= j.

(** Every hospital's sequence is in ascending order of rank in [hp0]. *)
Definition ranked (hp0 : dict (list string)) (m : dict (list string)) : Prop :=
  forall h ms, dget m h = Some ms ->
    exists hl, dget hp0 h = Some hl /\ Forall (fun r => In r hl) ms /\ Sorted (rank_le hl) ms.

(** Example instances: the SM scenario of the specification and the HR
    inputs of [test_raises_extra_rank_error]. *)
Definition ex_sp : dict (list string) :=
  [("A", ["D"; "E"; "F"]); ("B", ["D"; "F"; "E"]); ("C", ["E"; "D"; "F"])].
Definition ex_rp : dict (list string) :=
  [("D", ["B"; "A"; "C"]); ("E", ["C"; "A"; "B"]); ("F", ["A"; "B"; "C"])].
Definition ex_res : dict (list string) :=
  [("A", ["Y"]); ("B", ["Y"; "X"]); ("C", ["Y"; "Z"; "X"]); ("D", ["X"; "Y"; "Z"])].
Definition ex_hosp : dict (list string) :=
  [("X", ["C"; "B"; "D"]); ("Y", ["A"; "B"; "D"; "C"]); ("Z", ["C"; "D"; "A"])].
Definition ex_caps : dict Z := [("X", 2%Z); ("Y", 2%Z); ("Z", 2%Z)].

(** A hospital of capacity 1 ranking [A] over [B]; [B] is dequeued first. *)
Definition ex2_hosp : dict (list string) := [("X", ["A"; "B"])].
Definition ex2_res : dict (list string) := [("B", ["X"]); ("A", ["X"])].
Definition ex2_caps : dict Z := [("X", 1%Z)].

(** A consistent instance where hospital [X] (capacity 2) ends with two
    residents: [B] applies to [X] before [C], whom [X] ranks higher. *)
Definition ex3_hosp : dict (list string) := [("X", ["C"; "A"; "B"]); ("Y", ["A"; "C"; "B"])].
Definition ex3_res : dict (list string) := [("A", ["Y"; "X"]); ("B", ["X"; "Y"]); ("C", ["X"; "Y"])].
Definition ex3_caps : dict Z := [("X", 2%Z); ("Y", 1%Z)].

(** Whether [hospital] ranks [resident] (an absent hospital counts as
    ranking everyone: the check raises [KeyError] before looking). *)
Definition hospitals_rank (hp : dict (list string)) (resident : string) (hospital : string) : bool :=
  match dget hp hospital with Some hl => mem resident hl | None => true end.

(** [x] occurs before [y] in [l]. *)
Definition before (l : list string) (x y : string) : Prop :=
  exists a b c, l = a ++ x :: b ++ y :: c.

(** Every list of the dictionary is duplicate-free. *)
Definition nodup_lists (d : dict (list string)) : Prop :=
  forall k l, dget d k = Some l -> NoDup l.

(** Invariant of the hospital-optimal loop: each hospital's matches are a
    prefix of its (pruned) list, and a matched resident's list ends with
    the hospital holding it. *)
Definition ho_inv (st : HR.state) : Prop :=
  nodup_lists (HR.hospital_prefs st) /\ nodup_lists (HR.resident_prefs st) /\
  (forall h ml, dget (HR.matching st) h = Some ml ->
     exists rest, dget (HR.hospital_prefs st) h = Some (ml ++ rest)) /\
  (forall h ml r, dget (HR.matching st) h = Some ml -> In r ml ->
     exists pre, dget (HR.resident_prefs st) r = Some (pre ++ [h])).

(** Order of the (rank, resident) pairs sorted at lines 112-114. *)
Definition key_le (a b : nat * string) : Prop := fst a <= fst b.

(** Executable duplicate-freeness check on a list of names. *)
Fixpoint nodupb (l : list string) : bool :=
  match l with
  | [] => true
  | x :: xs => negb (existsb (String.eqb x) xs) && nodupb xs
  end.

(** Total length of the lists of a dictionary of preference lists. *)
Definition sumlen (d : dict (list string)) : nat :=
  fold_right (fun kl n => length (snd kl) + n) 0 d.

(** Invariant of the stable-marriage loop: the free suitors are distinct
    and unmatched, and a matched suitor ends its reviewer's (pruned) list. *)
Definition sm_inv (s : SM.state) : Prop :=
  NoDup (map fst (SM.matching s)) /\ NoDup (SM.suitors s) /\
  (forall y, In y (SM.suitors s) -> dget (SM.matching s) y = Some None) /\
  (forall y r, dget (SM.matching s) y = Some (Some r) ->
     exists pre, dget (SM.reviewer_prefs s) r = Some (pre ++ [y])) /\
  nodup_lists (SM.reviewer_prefs s).

(** Decreasing measure of the stable-marriage loop. *)
Definition sm_measure (s : SM.state) : nat :=
  length (SM.suitors s) + sumlen (SM.suitor_prefs s).

(** Invariant relating a stable-marriage state to the caller's lists [P0]
    (suitors) and [Q0] (reviewers): the lists only lose entries and stay
    mutual, a reviewer's list is cut just after the suitor it holds, a
    matched suitor's list starts with its reviewer, and a suitor with no
    partner waits in the queue. *)
Definition sm_sinv (P0 Q0 : dict (list string)) (s : SM.state) : Prop :=
  map fst (SM.matching s) = map fst P0 /\
  (pruned_of P0 (SM.suitor_prefs s) /\ pruned_of Q0 (SM.reviewer_prefs s)) /\
  (forall y r ly lr, dget (SM.suitor_prefs s) y = Some ly -> dget (SM.reviewer_prefs s) r = Some lr ->
     (In r ly <-> In y lr)) /\
  (forall r lr0, dget Q0 r = Some lr0 -> exists lr, dget (SM.reviewer_prefs s) r = Some lr /\
     ((lr = lr0 /\ forall y, dget (SM.matching s) y <> Some (Some r)) \/
      (exists y pre rest, dget (SM.matching s) y = Some (Some r) /\ lr = pre ++ [y] /\
         lr0 = lr ++ rest))) /\
  (forall y r, dget (SM.matching s) y = Some (Some r) ->
     exists tl, dget (SM.suitor_prefs s) y = Some (r :: tl)) /\
  (forall y, dget (SM.matching s) y = Some None -> In y (SM.suitors s)).

(** The partner of a matched player. *)
Definition unwrap (o : option string) : string := match o with Some r => r | None => "" end.

(** Executable [complete_side] and [complete_instance]. *)
Definition complete_side_b (P Q : dict (list string)) : bool :=
  forallb (fun kl => nodupb (snd kl) &&
                     forallb (fun x => mem x (map fst Q)) (snd kl) &&
                     forallb (fun x => mem x (snd kl)) (map fst Q)) P.

Definition complete_instance_b (P Q : dict (list string)) : bool :=
  nodupb (map fst P) && nodupb (map fst Q) && Nat.eqb (length P) (length Q) &&
  complete_side_b P Q && complete_side_b Q P.

(** [any([x in match for match in m.values()])], as at line 24. *)
Definition matched (m : dict (list string)) (x : string) : bool :=
  existsb (fun match_ => mem x match_) (map snd m).

(** Number of residents matched nowhere. *)
Definition n_unmatched (rp m : dict (list string)) : nat :=
  length (filter (fun r => negb (matched m r)) (map fst rp)).

(** Decreasing measure of both hospital-resident loops, for [K] residents:
    the preference lists of the hospitals shrink, or they keep their length
    and one more resident is matched. *)
Definition hr_measure (K : nat) (s : HR.state) : nat :=
  sumlen (HR.hospital_prefs s) * S K + n_unmatched (HR.resident_prefs s) (HR.matching s).

(** Invariant of the stable-marriage loop, for the original preferences
    [sp0], [rp0] and the suitors [K]: the matching has the keys [K], every
    queued suitor is one of them, every unmatched suitor is queued, the
    current lists are pruned from the original ones, and every held pair is
    acceptable to both sides in the original lists. *)
Definition sm_ginv (sp0 rp0 : dict (list string)) (K : list string) (s : SM.state) : Prop :=
  map fst (SM.matching s) = K /\
  (forall y, In y (SM.suitors s) -> In y K) /\
  (forall y, dget (SM.matching s) y = Some None -> In y (SM.suitors s)) /\
  (pruned_of sp0 (SM.suitor_prefs s) /\ pruned_of rp0 (SM.reviewer_prefs s)) /\
  (forall y r, dget (SM.matching s) y = Some (Some r) ->
     (exists l0, dget sp0 y = Some l0 /\ In r l0) /\ (exists l0, dget rp0 r = Some l0 /\ In y l0)).

(** No reviewer is held by two suitors. *)
Definition sm_held_once (s : SM.state) : Prop :=
  forall y y' r, dget (SM.matching s) y = Some (Some r) -> dget (SM.matching s) y' = Some (Some r) ->
    y = y'.

(** Invariant of both hospital-resident loops, for the original resident
    lists [rp0] and the hospitals [K]: the matching has the keys [K], no
    resident appears twice in it, the resident lists are pruned from the
    original ones, and every matched resident ranked the hospital originally. *)
Definition hr_ginv (rp0 : dict (list string)) (K : list string) (s : HR.state) : Prop :=
  map fst (HR.matching s) = K /\ NoDup (concat (map snd (HR.matching s))) /\
  pruned_of rp0 (HR.resident_prefs s) /\
  (forall h ml r, In (h, ml) (HR.matching s) -> In r ml ->
     exists rl0, dget rp0 r = Some rl0 /\ In h rl0).

(* ------------------------------------------------------------------ *)
(** ** Library: strings, dictionaries, lists *)

Lemma eqb_true (a b : string) : String.eqb a b = true <-> a = b.
Proof. apply String.eqb_eq. Qed.

Lemma eqb_false (a b : string) : String.eqb a b = false <-> a <> b.
Proof. apply String.eqb_neq. Qed.

Ltac streq :=
  repeat match goal with
  | H : String.eqb _ _ = true |- _ => apply eqb_true in H; subst
  | H : String.eqb _ _ = false |- _ => apply eqb_false in H
  | |- context [String.eqb ?a ?a] => rewrite String.eqb_refl
  end.

Lemma dget_dset {V} (d : dict V) k v k' :
  dget (dset d k v) k' = if String.eqb k' k then Some v else dget d k'.
Proof.
  induction d as [|[k0 v0] d IH]; simpl.
  - reflexivity.
  - destruct (String.eqb k k0) eqn:E; simpl; streq.
    + destruct (String.eqb k' k0); reflexivity.
    + rewrite IH. destruct (String.eqb k' k0) eqn:E1; streq; auto.
      destruct (String.eqb k0 k) eqn:E2; streq; congruence.
Qed.

Lemma dget_In {V} (d : dict V) k v : dget d k = Some v -> In (k, v) d.
Proof.
  induction d as [|[k0 v0] d IH]; simpl; [discriminate|].
  destruct (String.eqb k k0) eqn:E; streq; [injection 1; intros; subst; auto|auto].
Qed.

Lemma In_dget {V} (d : dict V) k v : NoDup (map fst d) -> In (k, v) d -> dget d k = Some v.
Proof.
  induction d as [|[k0 v0] d IH]; simpl; [tauto|].
  intros Hnd [E|Hin]; inversion Hnd; subst.
  - injection E; intros; subst. streq. reflexivity.
  - destruct (String.eqb k k0) eqn:E; streq; auto.
    exfalso. apply H1. apply in_map_iff. exists (k0, v). auto.
Qed.

Lemma dget_key {V} (d : dict V) k v : dget d k = Some v -> In k (map fst d).
Proof. intros H. apply dget_In in H. apply in_map_iff. exists (k, v). auto. Qed.

Lemma key_dget {V} (d : dict V) k : In k (map fst d) -> exists v, dget d k = Some v.
Proof.
  induction d as [|[k0 v0] d IH]; simpl; [tauto|].
  intros [E|H]; destruct (String.eqb k k0) eqn:E1; streq; eauto.
  congruence.
Qed.

Lemma keys_dset {V} (d : dict V) k v : In k (map fst d) -> map fst (dset d k v) = map fst d.
Proof.
  induction d as [|[k0 v0] d IH]; simpl; [tauto|].
  intros H. destruct (String.eqb k k0) eqn:E; streq; simpl; auto.
  destruct H; [congruence|]. rewrite IH; auto.
Qed.

Lemma dset_same {V} (d : dict V) k v : dget d k = Some v -> dset d k v = d.
Proof.
  induction d as [|[k0 v0] d IH]; simpl; [discriminate|].
  destruct (String.eqb k k0) eqn:E; streq.
  - injection 1; intros; subst; reflexivity.
  - intros H; rewrite IH; auto.
Qed.

Lemma mem_In x l : mem x l = true <-> In x l.
Proof.
  unfold mem. rewrite existsb_exists. split.
  - intros [y [Hy E]]. streq. auto.
  - intros H. exists x. split; auto. apply String.eqb_refl.
Qed.

Lemma mem_false x l : mem x l = false <-> ~ In x l.
Proof.
  rewrite <- mem_In. destruct (mem x l); split; congruence || tauto.
Qed.

Lemma in_rem y x l : In y (rem x l) -> In y l.
Proof.
  induction l as [|a l IH]; simpl; auto.
  destruct (String.eqb x a); simpl; intuition.
Qed.

Lemma rem_in y x l : y <> x -> In y l -> In y (rem x l).
Proof.
  induction l as [|a l IH]; simpl; auto.
  intros Hne [E|H]; destruct (String.eqb x a) eqn:Ex; streq; simpl; auto.
  congruence.
Qed.

Lemma rem_notin x l : ~ In x l -> rem x l = l.
Proof.
  induction l as [|a l IH]; simpl; auto.
  intros H. destruct (String.eqb x a) eqn:E; streq.
  - exfalso; auto.
  - rewrite IH; auto.
Qed.

Lemma rem_length x l : In x l -> S (length (rem x l)) = length l.
Proof.
  induction l as [|a l IH]; simpl; [tauto|].
  intros [E|H]; destruct (String.eqb x a) eqn:Ex; streq; simpl; auto.
  congruence.
Qed.

Lemma rem_nodup x l : NoDup l -> NoDup (rem x l).
Proof.
  induction l as [|a l IH]; simpl; auto.
  intros Hnd; inversion Hnd; subst.
  destruct (String.eqb x a); auto.
  constructor; auto. intros H. apply H1. eapply in_rem; eauto.
Qed.

Lemma rem_gone x l : NoDup l -> ~ In x (rem x l).
Proof.
  induction l as [|a l IH]; simpl; auto.
  intros Hnd; inversion Hnd; subst.
  destruct (String.eqb x a) eqn:E; streq; auto.
  simpl. intros [E1|H]; [congruence|]. apply IH; auto.
Qed.

Lemma rem_app_r x l1 l2 : ~ In x l1 -> rem x (l1 ++ l2) = l1 ++ rem x l2.
Proof.
  induction l1 as [|a l1 IH]; simpl; auto.
  intros H. destruct (String.eqb x a) eqn:E; streq.
  - exfalso; auto.
  - rewrite IH; auto.
Qed.

Lemma rem_app_l x l1 l2 : In x l1 -> rem x (l1 ++ l2) = rem x l1 ++ l2.
Proof.
  induction l1 as [|a l1 IH]; simpl; [tauto|].
  intros [E|H]; destruct (String.eqb x a) eqn:Ex; streq; simpl; auto.
  - congruence.
  - rewrite IH; auto.
Qed.

Lemma subseq_refl l : subseq l l.
Proof. induction l; [constructor | apply subseq_take; auto]. Qed.

Lemma subseq_nil_l l : subseq [] l.
Proof. induction l; constructor; auto. Qed.

Lemma subseq_trans a b c : subseq a b -> subseq b c -> subseq a c.
Proof.
  intros H1 H2. revert a H1. induction H2; intros a H1.
  - exact H1.
  - constructor. auto.
  - inversion H1; subst.
    + apply subseq_skip. auto.
    + apply subseq_take. auto.
Qed.

Lemma subseq_in l l0 x : subseq l l0 -> In x l -> In x l0.
Proof.
  induction 1; simpl; intuition.
Qed.

Lemma subseq_nodup l l0 : subseq l l0 -> NoDup l0 -> NoDup l.
Proof.
  induction 1; intros Hnd; inversion Hnd; subst; auto.
  constructor; auto. intros Hin. apply H2. eapply subseq_in; eauto.
Qed.

Lemma rem_subseq x l : subseq (rem x l) l.
Proof.
  induction l as [|a l IH]; simpl; [constructor|].
  destruct (String.eqb x a).
  - apply subseq_skip. apply subseq_refl.
  - apply subseq_take. auto.
Qed.

Lemma subseq_length l l0 : subseq l l0 -> length l <= length l0.
Proof. induction 1; simpl; lia. Qed.

Lemma idx_of_nth x l i : idx_of x l = Some i -> nth_error l i = Some x.
Proof.
  unfold idx_of. revert i. induction l as [|a l IH]; simpl; [discriminate|].
  intros i. destruct (String.eqb x a) eqn:E; streq.
  - injection 1; intros; subst; reflexivity.
  - destruct (find_index String.eqb x l) eqn:E1; simpl; [|discriminate].
    injection 1; intros; subst. simpl. auto.
Qed.

Lemma idx_of_In x l : In x l <-> exists i, idx_of x l = Some i.
Proof.
  unfold idx_of. induction l as [|a l IH]; simpl.
  - split; [tauto|]. intros [i H]; discriminate.
  - destruct (String.eqb x a) eqn:E; streq.
    + split; eauto.
    + split.
      * intros [E1|H]; [congruence|]. apply IH in H. destruct H as [i Hi].
        rewrite Hi. simpl. eauto.
      * intros [i Hi]. destruct (find_index String.eqb x l) eqn:E1; simpl in Hi; [|discriminate].
        right. apply IH. eauto.
Qed.

Lemma idx_of_app x a r : ~ In x a -> idx_of x (a ++ x :: r) = Some (length a).
Proof.
  unfold idx_of. induction a as [|y a IH]; simpl.
  - intros _. rewrite String.eqb_refl. reflexivity.
  - intros H. destruct (String.eqb x y) eqn:E; streq.
    + exfalso; auto.
    + rewrite IH; auto.
Qed.

Lemma idx_of_lt x l i : idx_of x l = Some i -> i < length l.
Proof.
  intros H. apply idx_of_nth in H. apply nth_error_Some. congruence.
Qed.

Lemma idx_of_nodup x l i : NoDup l -> nth_error l i = Some x -> idx_of x l = Some i.
Proof.
  intros Hnd Hn. destruct (nth_error_split l i Hn) as [a [c [E La]]]. subst.
  apply idx_of_app. intros Hin. apply NoDup_remove_2 in Hnd. apply Hnd.
  apply in_or_app. auto.
Qed.

Lemma prefers_before l x y : prefers l x y -> before l x y.
Proof.
  intros [i [j [Hi [Hj Hlt]]]].
  apply idx_of_nth in Hi. apply idx_of_nth in Hj.
  destruct (nth_error_split l i Hi) as [a [r [E La]]]. subst l.
  rewrite nth_error_app2 in Hj by lia.
  replace (j - length a) with (S (j - length a - 1)) in Hj by lia. simpl in Hj.
  destruct (nth_error_split r _ Hj) as [b [c [E Lb]]]. subst r.
  exists a, b, c. reflexivity.
Qed.

Lemma before_prefers l x y : NoDup l -> before l x y -> prefers l x y.
Proof.
  intros Hnd [a [b [c E]]]. subst l.
  assert (Hx : ~ In x a).
  { intros Hin. apply NoDup_remove_2 in Hnd. apply Hnd. apply in_or_app. left; auto. }
  assert (Hy : ~ In y (a ++ x :: b)).
  { intros Hin. replace (a ++ x :: b ++ y :: c) with ((a ++ x :: b) ++ y :: c) in Hnd
      by (rewrite <- app_assoc; reflexivity).
    apply NoDup_remove_2 in Hnd. apply Hnd. apply in_or_app. left; auto. }
  exists (length a), (length (a ++ x :: b)). repeat split.
  - apply idx_of_app; auto.
  - replace (a ++ x :: b ++ y :: c) with ((a ++ x :: b) ++ y :: c)
      by (rewrite <- app_assoc; reflexivity).
    apply idx_of_app; auto.
  - rewrite length_app. simpl. lia.
Qed.

Lemma before_subseq l l0 x y : subseq l l0 -> before l x y -> before l0 x y.
Proof.
  induction 1 as [|l l0 z H IH|l l0 z H IH]; intros Hb.
  - destruct Hb as [a [b [c E]]]. destruct a; discriminate.
  - destruct (IH Hb) as [a [b [c E]]]. exists (z :: a), b, c. rewrite E. reflexivity.
  - destruct Hb as [a [b [c E]]]. destruct a as [|a0 a].
    + simpl in E. injection E as E2 E1. subst z.
      assert (Hin : In y l0). { eapply subseq_in; eauto. rewrite E1. apply in_or_app. simpl; auto. }
      destruct (in_split _ _ Hin) as [b' [c' E']]. exists [], b', c'. rewrite E'. reflexivity.
    + simpl in E. injection E as E2 E1. subst z.
      destruct (IH (ex_intro _ a (ex_intro _ b (ex_intro _ c E1)))) as [a' [b' [c' E']]].
      exists (a0 :: a'), b', c'. rewrite E'. reflexivity.
Qed.

Lemma before_asym l x y : NoDup l -> before l x y -> before l y x -> False.
Proof.
  intros Hnd H1 H2. apply before_prefers in H1; auto. apply before_prefers in H2; auto.
  destruct H1 as [i [j [Hi [Hj Hlt]]]]. destruct H2 as [j' [i' [Hj' [Hi' Hlt']]]].
  congruence || (rewrite Hi in Hi'; rewrite Hj in Hj'; injection Hi'; injection Hj'; lia).
Qed.

Lemma prefers_subseq l l0 x y : subseq l l0 -> NoDup l0 -> prefers l x y -> prefers l0 x y.
Proof.
  intros Hs Hnd Hp. apply before_prefers; auto. eapply before_subseq; eauto.
  apply prefers_before; auto.
Qed.

Lemma prefers_irrefl l x : ~ prefers l x x.
Proof. intros [i [j [Hi [Hj Hlt]]]]. rewrite Hi in Hj. injection Hj. lia. Qed.

Lemma prefers_asym l x y : prefers l x y -> prefers l y x -> False.
Proof.
  intros [i [j [Hi [Hj Hlt]]]] [j' [i' [Hj' [Hi' Hlt']]]].
  rewrite Hi in Hi'; rewrite Hj in Hj'. injection Hi'; injection Hj'; lia.
Qed.

Lemma prefers_trans l x y z : prefers l x y -> prefers l y z -> prefers l x z.
Proof.
  intros [i [j [Hi [Hj Hlt]]]] [j' [k [Hj' [Hk Hlt']]]].
  rewrite Hj in Hj'. injection Hj'; intros; subst.
  exists i, k. repeat split; auto. lia.
Qed.

Lemma rank_le_subseq hl hl0 x y :
  subseq hl hl0 -> NoDup hl0 -> rank_le hl x y -> rank_le hl0 x y.
Proof.
  intros Hs Hnd [i [j [Hi [Hj Hle]]]].
  assert (Hx0 : In x hl0). { eapply subseq_in; eauto. apply idx_of_In; eauto. }
  destruct (Nat.eq_dec i j) as [->|Hne].
  - apply idx_of_nth in Hi. apply idx_of_nth in Hj. rewrite Hi in Hj. injection Hj; intros; subst.
    apply idx_of_In in Hx0. destruct Hx0 as [k Hk]. exists k, k. repeat split; auto.
  - assert (Hp : prefers hl x y) by (exists i, j; repeat split; auto; lia).
    destruct (prefers_subseq _ _ _ _ Hs Hnd Hp) as [a [b [Ha [Hb Hab]]]].
    exists a, b. repeat split; auto. lia.
Qed.

(* ------------------------------------------------------------------ *)
(** ** The consistency check of [hospital_resident] *)

Lemma for_each_pure {S A} (xs : list A) (f : A -> PyM S unit) (P : A -> bool) e st :
  (forall x, In x xs -> f x st = (if P x then Ok tt else Raise e, st)) ->
  for_each xs f st = (if forallb P xs then Ok tt else Raise e, st).
Proof.
  induction xs as [|x xs IH]; simpl; intros Hf; [reflexivity|].
  unfold bind. rewrite Hf by auto. destruct (P x); simpl; auto.
Qed.

Lemma check_inputs_run hp rp m :
  (forall r hs h, In (r, hs) rp -> In h hs -> In h (map fst hp)) ->
  HR.check_inputs (HR.State hp rp m) =
  (if forallb (fun r => match dget rp r with
                        | Some hs => forallb (hospitals_rank hp r) hs
                        | None => true end) (map fst rp)
   then Ok tt else Raise (ValueError HR.check_msg), HR.State hp rp m).
Proof.
  intros Hkeys. unfold HR.check_inputs, bind at 1, get. simpl.
  apply for_each_pure. intros r Hr.
  destruct (key_dget _ _ Hr) as [hs Hhs].
  unfold bind, lift, getitem. rewrite Hhs.
  apply for_each_pure. intros h Hh.
  assert (Hk : In h (map fst hp)) by (eapply Hkeys; eauto; apply dget_In; eauto).
  destruct (key_dget _ _ Hk) as [hl Hhl]. unfold hospitals_rank. rewrite Hhl.
  destruct (mem r hl); reflexivity.
Qed.

Lemma bind_readonly {S A B} (m : PyM S A) (k : A -> PyM S B) :
  (forall s, snd (m s) = s) -> (forall a s, snd (k a s) = s) -> forall s, snd (bind m k s) = s.
Proof.
  intros Hm Hk s. unfold bind. specialize (Hm s).
  destruct (m s) as [[a| |] s']; simpl in *; subst; auto.
Qed.

Lemma for_each_readonly {S A} (xs : list A) (f : A -> PyM S unit) :
  (forall x s, snd (f x s) = s) -> forall s, snd (for_each xs f s) = s.
Proof.
  intros Hf. induction xs as [|x xs IH]; simpl; [reflexivity|].
  apply bind_readonly; auto.
Qed.

Lemma check_inputs_readonly st : snd (HR.check_inputs st) = st.
Proof.
  unfold HR.check_inputs. apply bind_readonly; [reflexivity|]. intros st0.
  apply for_each_readonly. intros r. apply bind_readonly; [reflexivity|]. intros hs.
  apply for_each_readonly. intros h. apply bind_readonly; [reflexivity|]. intros hl s.
  destruct (mem r hl); reflexivity.
Qed.

Lemma hospital_resident_check hp rp caps opt fuel :
  (forall r hs h, In (r, hs) rp -> In h hs -> In h (map fst hp)) ->
  forallb (fun r => match dget rp r with
                    | Some hs => forallb (hospitals_rank hp r) hs
                    | None => true end) (map fst rp) = false ->
  HR.hospital_resident fuel hp rp caps opt = (Raise (ValueError HR.check_msg), (hp, rp)).
Proof.
  intros Hkeys Hf. unfold HR.hospital_resident, bind at 1.
  rewrite check_inputs_run by exact Hkeys. rewrite Hf. reflexivity.
Qed.

Lemma check_fails_on_bad_pair hp rp r hs h hl :
  NoDup (map fst rp) -> In (r, hs) rp -> In h hs -> dget hp h = Some hl -> ~ In r hl ->
  forallb (fun r => match dget rp r with
                    | Some hs => forallb (hospitals_rank hp r) hs
                    | None => true end) (map fst rp) = false.
Proof.
  intros Hnd Hin Hh Hhl Hr.
  apply not_true_iff_false. intros Hall. rewrite forallb_forall in Hall.
  assert (Hk : In r (map fst rp)) by (apply in_map_iff; exists (r, hs); auto).
  specialize (Hall r Hk). rewrite (In_dget _ _ _ Hnd Hin) in Hall.
  rewrite forallb_forall in Hall. specialize (Hall h Hh).
  unfold hospitals_rank in Hall. rewrite Hhl in Hall. apply mem_In in Hall. auto.
Qed.

(* ------------------------------------------------------------------ *)
(** ** Claims about the entry points *)

(** C5 (the direction that is checked): before any algorithm step,
    [hospital_resident] checks that every hospital in a resident's list
    ranks that resident.  If a
    resident [r] ranks a hospital [h] whose list lacks [r] (all ranked
    hospitals being keys of [hospital_prefs], and the resident keys
    distinct), the call raises [ValueError] with the fixed message
    [check_msg], which is the same for every pair, returns no matching and
    leaves the caller's dicts as they were. *)
Theorem hr_check_rejects_unranked fuel hp rp caps opt :
  NoDup (map fst rp) ->
  (forall r hs h, In (r, hs) rp -> In h hs -> In h (map fst hp)) ->
  (exists r hs h hl, In (r, hs) rp /\ In h hs /\ dget hp h = Some hl /\ ~ In r hl) ->
  HR.hospital_resident fuel hp rp caps opt = (Raise (ValueError HR.check_msg), (hp, rp)).
Proof.
  intros Hnd Hkeys [r [hs [h [hl [Hin [Hh [Hhl Hr]]]]]]].
  apply hospital_resident_check; auto.
  eapply check_fails_on_bad_pair; eauto.
Qed.

Lemma hr_check_rejects_unranked_witness :
  NoDup (map fst [("B", ["X"])]) /\
  (forall r hs h, In (r, hs) [("B", ["X"])] -> In h hs -> In h (map fst [("X", @nil string)])) /\
  (exists r hs h hl, In (r, hs) [("B", ["X"])] /\ In h hs /\
     dget [("X", @nil string)] h = Some hl /\ ~ In r hl) /\
  HR.hospital_resident 5 [("X", [])] [("B", ["X"])] [("X", 1%Z)] "resident" =
    (Raise (ValueError HR.check_msg), ([("X", [])], [("B", ["X"])])).
Proof.
  assert (H1 : NoDup (map fst [("B", ["X"])])) by (repeat constructor; simpl; tauto).
  assert (H2 : forall r hs h, In (r, hs) [("B", ["X"])] -> In h hs -> In h (map fst [("X", @nil string)])).
  { simpl. intros r hs h [E|[]] Hh. injection E; intros; subst. simpl in Hh. simpl; tauto. }
  assert (H3 : exists r hs h hl, In (r, hs) [("B", ["X"])] /\ In h hs /\
     dget [("X", @nil string)] h = Some hl /\ ~ In r hl).
  { exists "B", ["X"], "X", []. simpl. repeat split; auto. }
  split; [exact H1|]. split; [exact H2|]. split; [exact H3|].
  apply (hr_check_rejects_unranked 5 [("X", [])] [("B", ["X"])] [("X", 1%Z)] "resident"); assumption.
Defined.

(** C5 (code bug): the check looks in one direction only, and its error
    does not name the pair.  With the inputs of
    [test_raises_extra_rank_error] (hospital Z ranks resident A, who does not
    rank Z) the call returns a matching; and two different offending pairs
    give the very same error. *)
Lemma hr_check_one_direction_unnamed :
  (exists l, dget ex_hosp "Z" = Some l /\ In "A" l) /\
  (exists l, dget ex_res "A" = Some l /\ ~ In "Z" l) /\
  fst (HR.hospital_resident 50 ex_hosp ex_res ex_caps "resident") =
    Ok [("X", ["D"]); ("Y", ["A"; "B"]); ("Z", ["C"])] /\
  fst (HR.hospital_resident 5 [("X", [])] [("B", ["X"])] [("X", 1%Z)] "resident") =
  fst (HR.hospital_resident 5 [("Z", [])] [("D", ["Z"])] [("Z", 1%Z)] "resident").
Proof.
  split; [exists ["C"; "D"; "A"]; simpl; auto|].
  split; [exists ["Y"]; simpl; split; [reflexivity|intros [E|[]]; discriminate]|].
  split; vm_compute; reflexivity.
Qed.

(** C10 (code bug): hospital Z ranks resident A, who does not rank Z, and
    the [optimal] value is unknown; the call raises the optimality error, not
    the consistency error, because [_check_inputs] never looks at the
    hospitals' lists ([test_raises_extra_rank_error] expects this input to be
    rejected). *)
Theorem hr_inconsistent_unknown_optimal :
  (exists l, dget ex_hosp "Z" = Some l /\ In "A" l) /\
  (exists l, dget ex_res "A" = Some l /\ ~ In "Z" l) /\
  HR.hospital_resident 50 ex_hosp ex_res ex_caps "foo" =
    (Raise (ValueError (HR.optimal_msg "foo")), (ex_hosp, ex_res)) /\
  HR.optimal_msg "foo" <> HR.check_msg.
Proof.
  split; [exists ["C"; "D"; "A"]; simpl; auto|].
  split; [exists ["Y"]; simpl; split; [reflexivity|intros [E|[]]; discriminate]|].
  split; [vm_compute; reflexivity|].
  vm_compute. discriminate.
Qed.

(** C6 (code bug): for an [optimal] value that neither function recognises,
    [stable_marriage] does not fail: it never checks [optimal] and runs
    exactly the suitor-optimal call, returning its matching and pruning the
    caller's dicts.  [hospital_resident] does check it: the call runs no
    solver, raises the error of the consistency check if that check fails,
    and otherwise [ValueError] with the optimality message; no matching is
    returned and the caller's dicts are left as they were. *)
Theorem unknown_optimal_behaviour fuel suitor_prefs reviewer_prefs hp rp caps opt :
  String.eqb opt "reviewer" = false ->
  String.eqb opt "resident" = false -> String.eqb opt "hospital" = false ->
  SM.stable_marriage fuel suitor_prefs reviewer_prefs opt =
    SM.stable_marriage fuel suitor_prefs reviewer_prefs "suitor" /\
  HR.hospital_resident fuel hp rp caps opt =
  (match fst (HR.check_inputs (HR.State hp rp [])) with
   | Ok _ => Raise (ValueError (HR.optimal_msg opt))
   | Raise e => Raise e
   | OutOfFuel => OutOfFuel
   end, (hp, rp)).
Proof.
  intros H0 H1 H2. split; [unfold SM.stable_marriage; rewrite H0; reflexivity|].
  unfold HR.hospital_resident, bind at 1.
  assert (Hst : snd (HR.check_inputs (HR.State hp rp [])) = HR.State hp rp []) by apply check_inputs_readonly.
  destruct (HR.check_inputs (HR.State hp rp [])) as [o st] eqn:E. simpl in Hst. subst st.
  destruct o; simpl; auto. rewrite H1, H2. reflexivity.
Qed.

Lemma unknown_optimal_behaviour_witness :
  fst (SM.stable_marriage 20 ex_sp ex_rp "foo") = Ok [("A", Some "F"); ("B", Some "D"); ("C", Some "E")] /\
  SM.stable_marriage 20 ex_sp ex_rp "foo" = SM.stable_marriage 20 ex_sp ex_rp "suitor" /\
  HR.hospital_resident 5 [("X", ["B"])] [("B", ["X"])] [("X", 1%Z)] "foo" =
  (match fst (HR.check_inputs (HR.State [("X", ["B"])] [("B", ["X"])] [])) with
   | Ok _ => Raise (ValueError (HR.optimal_msg "foo"))
   | Raise e => Raise e
   | OutOfFuel => OutOfFuel
   end, ([("X", ["B"])], [("B", ["X"])])).
Proof.
  split; [vm_compute; reflexivity|].
  exact (unknown_optimal_behaviour 20 ex_sp ex_rp [("X", ["B"])] [("B", ["X"])] [("X", 1%Z)] "foo"
           eq_refl eq_refl eq_refl).
Defined.

(** C6 (counterexample): [stable_marriage] accepts the unknown [optimal]
    value ["foo"] and returns the suitor-optimal matching; and
    [hospital_resident] with inconsistent inputs reports the consistency
    error, not the optimality one. *)
Lemma unknown_optimal_not_always_rejected :
  fst (SM.stable_marriage 20 ex_sp ex_rp "foo") = Ok [("A", Some "F"); ("B", Some "D"); ("C", Some "E")] /\
  fst (HR.hospital_resident 5 [("X", [])] [("B", ["X"])] [("X", 1%Z)] "foo") = Raise (ValueError HR.check_msg).
Proof. split; vm_compute; reflexivity. Qed.

(** C8: with [optimal = "reviewer"] the function swaps the two dicts and runs
    the suitor-optimal algorithm; the result is that of the swapped call with
    [optimal = "suitor"], and the caller's two dicts end up as the swapped
    call leaves them. *)
Theorem stable_marriage_role_swap fuel A B :
  SM.stable_marriage fuel A B "reviewer" =
  (let '(o, (b, a)) := SM.stable_marriage fuel B A "suitor" in (o, (a, b))).
Proof.
  unfold SM.stable_marriage. simpl.
  destruct (SM.loop fuel (SM.initial B A)) as [o st]. reflexivity.
Qed.

(** C4 (counterexample): [stable_marriage] prunes the caller's lists. *)
Lemma stable_marriage_mutates_inputs :
  snd (SM.stable_marriage 20 ex_sp ex_rp "suitor") =
    ([("A", ["F"]); ("B", ["D"]); ("C", ["E"])], [("D", ["B"]); ("E", ["C"]); ("F", ["A"])]) /\
  snd (SM.stable_marriage 20 ex_sp ex_rp "suitor") <> (ex_sp, ex_rp).
Proof. split; vm_compute; [reflexivity|discriminate]. Qed.

(* ------------------------------------------------------------------ *)
(** ** Running the monad *)

Ltac pyrun := unfold bind, get, lift, modify, ret, out_of_fuel in *; simpl in *.

Ltac pycases :=
  repeat match goal with
  | |- context [match ?e with Ok _ => _ | Raise _ => _ | OutOfFuel => _ end] =>
      let E := fresh "E" in destruct e eqn:E
  | |- context [if ?b then _ else _] => let E := fresh "B" in destruct b eqn:E
  end.

Lemma getitem_ok {V} (d : dict V) k v : getitem d k = Ok v -> dget d k = Some v.
Proof. unfold getitem. destruct (dget d k); congruence. Qed.

Lemma list_remove_ok x l l' : list_remove x l = Ok l' -> In x l /\ l' = rem x l.
Proof.
  unfold list_remove. destruct (mem x l) eqn:E; [|discriminate].
  injection 1; intros; subst. split; auto. apply mem_In; auto.
Qed.

Lemma list_index_ok x l i : list_index x l = Ok i -> idx_of x l = Some i.
Proof. unfold list_index. destruct (idx_of x l); congruence. Qed.

Lemma list_head_ok {A} (l : list A) x : list_head l = Ok x -> exists tl, l = x :: tl.
Proof. unfold list_head. destruct l; [discriminate|]. injection 1; intros; subst; eauto. Qed.

Lemma list_nth_ok {A} (l : list A) i x : list_nth l i = Ok x -> nth_error l i = Some x.
Proof. unfold list_nth. destruct (nth_error l i); congruence. Qed.

Ltac pyok :=
  repeat match goal with
  | H : getitem _ _ = Ok _ |- _ => apply getitem_ok in H
  | H : list_remove _ _ = Ok _ |- _ =>
      let Hin := fresh "Hin" in apply list_remove_ok in H; destruct H as [Hin H]; subst
  | H : list_index _ _ = Ok _ |- _ => apply list_index_ok in H
  | H : list_head _ = Ok _ |- _ =>
      let tl := fresh "tl" in apply list_head_ok in H; destruct H as [tl H]
  | H : list_nth _ _ = Ok _ |- _ => apply list_nth_ok in H
  end.

Lemma bind_pres {S A B} (P : S -> Prop) (m : PyM S A) (k : A -> PyM S B) :
  (forall s, P s -> P (snd (m s))) -> (forall a s, P s -> P (snd (k a s))) ->
  forall s, P s -> P (snd (bind m k s)).
Proof.
  intros Hm Hk s Hs. unfold bind. specialize (Hm s Hs).
  destruct (m s) as [[a| |] s']; simpl in *; auto.
Qed.

Lemma for_each_pres {S A} (P : S -> Prop) (xs : list A) (f : A -> PyM S unit) :
  (forall x s, P s -> P (snd (f x s))) -> forall s, P s -> P (snd (for_each xs f s)).
Proof.
  intros Hf. induction xs as [|x xs IH]; simpl; auto.
  apply bind_pres; auto.
Qed.

(* ------------------------------------------------------------------ *)
(** ** The solvers only delete entries of the caller's lists *)

Lemma pruned_of_refl d : pruned_of d d.
Proof. induction d; constructor; auto using subseq_refl. Qed.

Lemma pruned_of_dset d0 d k l l' :
  pruned_of d0 d -> dget d k = Some l -> subseq l' l -> pruned_of d0 (dset d k l').
Proof.
  unfold pruned_of. intros H. revert l l'. induction H as [|[k0 l0] [k1 l1] d0 d [Ek Hs] H IH];
    simpl in *; intros l l' Hl Hsub; [discriminate|].
  subst k1. destruct (String.eqb k k0) eqn:E.
  - injection Hl; intros; subst. constructor; simpl; auto.
    split; auto. eapply subseq_trans; eauto.
  - constructor; simpl; eauto.
Qed.

Lemma pruned_of_rem d0 d k l x :
  pruned_of d0 d -> dget d k = Some l -> pruned_of d0 (dset d k (rem x l)).
Proof. intros; eapply pruned_of_dset; eauto using rem_subseq. Qed.

Lemma pruned_of_keys d0 d : pruned_of d0 d -> map fst d = map fst d0.
Proof. induction 1 as [|? ? ? ? [E _] _ IH]; simpl; congruence. Qed.

Lemma pruned_of_dget d0 d k l :
  pruned_of d0 d -> dget d k = Some l -> exists l0, dget d0 k = Some l0 /\ subseq l l0.
Proof.
  induction 1 as [|[k0 l0] [k1 l1] d0 d [Ek Hs] H IH]; simpl in *; [discriminate|].
  subst k1. destruct (String.eqb k k0); eauto.
  injection 1; intros; subst; eauto.
Qed.

Section SMPruned.
Variables sp0 rp0 : dict (list string).

Let P (st : SM.state) : Prop :=
  pruned_of sp0 (SM.suitor_prefs st) /\ pruned_of rp0 (SM.reviewer_prefs st).

Lemma sm_prune_pruned r x s : P s -> P (snd (SM.prune r x s)).
Proof.
  unfold P. intros [H1 H2]. unfold SM.prune. pyrun. pycases; simpl; pyok; simpl;
    auto using pruned_of_rem.
Qed.

Lemma sm_body_pruned s : P s -> P (snd (SM.body s)).
Proof.
  intros Hs. unfold SM.body. pyrun. destruct (SM.suitors s) as [|x q]; simpl; auto.
  pycases; simpl; auto;
  apply for_each_pres; auto using sm_prune_pruned.
Qed.

Lemma sm_loop_pruned fuel s : P s -> P (snd (SM.loop fuel s)).
Proof.
  revert s. induction fuel as [|fuel IH]; intros s Hs; simpl; [exact Hs|].
  unfold bind at 1, get. destruct (SM.suitors s); simpl; [exact Hs|].
  apply bind_pres; auto using sm_body_pruned.
Qed.

End SMPruned.

Section HRPruned.
Variables hp0 rp0 : dict (list string).
Variable capacities : dict Z.

Let P (st : HR.state) : Prop :=
  pruned_of hp0 (HR.hospital_prefs st) /\ pruned_of rp0 (HR.resident_prefs st).

Lemma hr_prune_resident_pruned h r s : P s -> P (snd (HR.prune_resident h r s)).
Proof.
  unfold P. intros [H1 H2]. unfold HR.prune_resident. pyrun. pycases; simpl; pyok; simpl;
    auto using pruned_of_rem.
Qed.

Lemma hr_prune_hospital_pruned r h s : P s -> P (snd (HR.prune_hospital r h s)).
Proof.
  unfold P. intros [H1 H2]. unfold HR.prune_hospital. pyrun. pycases; simpl; pyok; simpl;
    auto using pruned_of_rem.
Qed.

Lemma hr_ro_body_pruned r s : P s -> P (snd (HR.ro_body capacities r s)).
Proof.
  intros Hs. unfold HR.ro_body. apply bind_pres.
  - clear s Hs. intros s Hs. unfold HR.ro_append. pyrun. pycases; simpl; auto.
  - intros h. apply bind_pres.
    + clear s Hs. intros s Hs. unfold HR.ro_evict. pyrun. pycases; simpl; auto.
    + intros _ s' Hs'. unfold HR.ro_prune. pyrun. pycases; simpl; auto.
      apply for_each_pres; auto using hr_prune_resident_pruned.
  - exact Hs.
Qed.

Lemma hr_ro_loop_pruned fuel s : P s -> P (snd (HR.ro_loop capacities fuel s)).
Proof.
  revert s. induction fuel as [|fuel IH]; intros s Hs; simpl; [exact Hs|].
  unfold bind at 1, get. destruct (HR.free_residents _ _); simpl; [exact Hs|].
  apply bind_pres; auto using hr_ro_body_pruned.
Qed.

Lemma hr_sort_matches_pruned s : P s -> P (snd (HR.sort_matches s)).
Proof.
  revert s. unfold HR.sort_matches. apply bind_pres; [auto|]. intros st0.
  apply for_each_pres. intros h s' Hs'. pyrun. pycases; simpl; auto.
Qed.

Lemma hr_resident_optimal_pruned fuel s : P s -> P (snd (HR.hr_resident_optimal capacities fuel s)).
Proof.
  revert s. unfold HR.hr_resident_optimal.
  apply bind_pres; [intros s' Hs'; exact Hs'|]. intros _.
  apply bind_pres; [intros s' Hs'; apply hr_ro_loop_pruned; exact Hs'|]. intros _.
  apply bind_pres; [intros s' Hs'; apply hr_sort_matches_pruned; exact Hs'|]. intros _.
  apply bind_pres; auto.
Qed.

Lemma hr_ho_body_pruned h s : P s -> P (snd (HR.ho_body h s)).
Proof.
  intros Hs. unfold HR.ho_body. pyrun. pycases; simpl; auto.
  apply for_each_pres; auto using hr_prune_hospital_pruned.
Qed.

Lemma hr_ho_loop_pruned fuel s : P s -> P (snd (HR.ho_loop capacities fuel s)).
Proof.
  revert s. induction fuel as [|fuel IH]; intros s Hs; simpl; [exact Hs|].
  unfold bind at 1, get, lift at 1. destruct (HR.free_hospitals _ _ _) as [[|h fh]| |];
    simpl; auto.
  unfold bind at 1. simpl.
  change (P (snd ((HR.ho_body h ;;; HR.ho_loop capacities fuel) s))).
  revert s Hs. apply bind_pres; auto using hr_ho_body_pruned.
Qed.

Lemma hr_hospital_optimal_pruned fuel s : P s -> P (snd (HR.hr_hospital_optimal capacities fuel s)).
Proof.
  revert s. unfold HR.hr_hospital_optimal.
  apply bind_pres; [intros s' Hs'; exact Hs'|]. intros _.
  apply bind_pres; [intros s' Hs'; apply hr_ho_loop_pruned; exact Hs'|]. intros _.
  apply bind_pres; auto.
Qed.

End HRPruned.

(** C4 (amended): no solver copies its inputs.  [stable_marriage] and
    [hospital_resident] (with either solver, and whatever the outcome:
    a matching, an exception, or a run cut short) prune the caller's
    preference dicts in place: afterwards each dict has the same keys in the
    same order, and each list is the original list with some entries
    deleted, the others kept in their order. *)
Theorem solvers_prune_in_place fuel :
  (forall sp rp opt,
     pruned_of sp (fst (snd (SM.stable_marriage fuel sp rp opt))) /\
     pruned_of rp (snd (snd (SM.stable_marriage fuel sp rp opt)))) /\
  (forall hp rp capacities opt,
     pruned_of hp (fst (snd (HR.hospital_resident fuel hp rp capacities opt))) /\
     pruned_of rp (snd (snd (HR.hospital_resident fuel hp rp capacities opt)))).
Proof.
  split.
  - intros sp rp opt. unfold SM.stable_marriage.
    destruct (String.eqb opt "reviewer").
    + pose proof (sm_loop_pruned rp sp fuel (SM.initial rp sp)
        (conj (pruned_of_refl _) (pruned_of_refl _))) as H.
      destruct (SM.loop fuel (SM.initial rp sp)) as [o st]. simpl in *.
      destruct H as [H1 H2]. split; auto.
    + pose proof (sm_loop_pruned sp rp fuel (SM.initial sp rp)
        (conj (pruned_of_refl _) (pruned_of_refl _))) as H.
      destruct (SM.loop fuel (SM.initial sp rp)) as [o st]. simpl in *. exact H.
  - intros hp rp capacities opt. unfold HR.hospital_resident.
    assert (H : pruned_of hp (HR.hospital_prefs (snd ((HR.check_inputs ;;;
          (if String.eqb opt "resident" then HR.hr_resident_optimal capacities fuel
           else if String.eqb opt "hospital" then HR.hr_hospital_optimal capacities fuel
           else lift (Raise (ValueError (HR.optimal_msg opt))))) (HR.State hp rp [])))) /\
      pruned_of rp (HR.resident_prefs (snd ((HR.check_inputs ;;;
          (if String.eqb opt "resident" then HR.hr_resident_optimal capacities fuel
           else if String.eqb opt "hospital" then HR.hr_hospital_optimal capacities fuel
           else lift (Raise (ValueError (HR.optimal_msg opt))))) (HR.State hp rp []))))).
    { apply (bind_pres (fun st : HR.state =>
        pruned_of hp (HR.hospital_prefs st) /\ pruned_of rp (HR.resident_prefs st))).
      - intros s Hs. rewrite check_inputs_readonly. exact Hs.
      - intros _ s Hs. destruct (String.eqb opt "resident").
        + apply hr_resident_optimal_pruned; auto.
        + destruct (String.eqb opt "hospital").
          * apply hr_hospital_optimal_pruned; auto.
          * exact Hs.
      - simpl. auto using pruned_of_refl. }
    cbv zeta. revert H.
    generalize ((HR.check_inputs ;;;
          (if String.eqb opt "resident" then HR.hr_resident_optimal capacities fuel
           else if String.eqb opt "hospital" then HR.hr_hospital_optimal capacities fuel
           else lift (Raise (ValueError (HR.optimal_msg opt))))) (HR.State hp rp [])).
    intros [o st]. simpl. auto.
Qed.

(* ------------------------------------------------------------------ *)
(** ** Capacities *)

Lemma getitem_nf {V} (d : dict V) k : getitem d k <> OutOfFuel.
Proof. unfold getitem. destruct (dget d k); discriminate. Qed.
Lemma list_remove_nf x l : list_remove x l <> OutOfFuel.
Proof. unfold list_remove. destruct (mem x l); discriminate. Qed.
Lemma list_index_nf x l : list_index x l <> OutOfFuel.
Proof. unfold list_index. destruct (idx_of x l); discriminate. Qed.
Lemma list_head_nf {A} (l : list A) : list_head l <> OutOfFuel.
Proof. unfold list_head. destruct l; discriminate. Qed.
Lemma list_nth_nf {A} (l : list A) i : list_nth l i <> OutOfFuel.
Proof. unfold list_nth. destruct (nth_error l i); discriminate. Qed.
Lemma py_max_nf l : HR.py_max l <> OutOfFuel.
Proof. destruct l; discriminate. Qed.
Lemma get_worst_idx_nf h hp m : HR.get_worst_idx h hp m <> OutOfFuel.
Proof.
  unfold HR.get_worst_idx.
  destruct (getitem hp h) as [[|x l]| |] eqn:E; try discriminate.
  - destruct (getitem m h) eqn:E'; try discriminate; [apply py_max_nf|].
    exfalso; exact (getitem_nf _ _ E').
  - exfalso; exact (getitem_nf _ _ E).
Qed.

Ltac pynf :=
  match goal with
  | H : getitem _ _ = OutOfFuel |- _ => exfalso; exact (getitem_nf _ _ H)
  | H : list_remove _ _ = OutOfFuel |- _ => exfalso; exact (list_remove_nf _ _ H)
  | H : list_index _ _ = OutOfFuel |- _ => exfalso; exact (list_index_nf _ _ H)
  | H : list_head _ = OutOfFuel |- _ => exfalso; exact (list_head_nf _ H)
  | H : list_nth _ _ = OutOfFuel |- _ => exfalso; exact (list_nth_nf _ _ H)
  | H : HR.get_worst_idx _ _ _ = OutOfFuel |- _ => exfalso; exact (get_worst_idx_nf _ _ _ H)
  end.

Lemma within_capacity_dset caps m h l :
  (forall h' ms c, h' <> h -> dget m h' = Some ms -> dget caps h' = Some c ->
     (Z.of_nat (length ms) <= c)%Z) ->
  (forall c, dget caps h = Some c -> (Z.of_nat (length l) <= c)%Z) ->
  within_capacity caps (dset m h l).
Proof.
  unfold within_capacity. intros Hm Hl h' ms c. rewrite dget_dset.
  destruct (String.eqb h' h) eqn:E; streq; eauto.
  injection 1; intros; subst; eauto.
Qed.

Lemma ro_append_spec r s :
  match HR.ro_append r s with
  | (Ok h, s1) => exists ml, dget (HR.matching s) h = Some ml /\
                   s1 = HR.set_matching (dset (HR.matching s) h (ml ++ [r])) s
  | (Raise _, _) => True
  | (OutOfFuel, _) => False
  end.
Proof.
  unfold HR.ro_append. pyrun. pycases; simpl; auto; try pynf. pyok. eauto.
Qed.

Lemma ro_evict_capacity caps h s :
  (forall h' ms c, dget (HR.matching s) h' = Some ms -> dget caps h' = Some c ->
     (Z.of_nat (length ms) <= c + if String.eqb h' h then 1 else 0)%Z) ->
  match HR.ro_evict caps h s with
  | (Ok _, s') => within_capacity caps (HR.matching s')
  | (Raise _, _) => True
  | (OutOfFuel, _) => False
  end.
Proof.
  intros Hs.
  assert (Hkeep : forall ml c, dget (HR.matching s) h = Some ml -> dget caps h = Some c ->
            Z.ltb c (Z.of_nat (length ml)) = false -> within_capacity caps (HR.matching s)).
  { intros ml c0 Hml Hc0 B h' ms c Hm Hc. specialize (Hs h' ms c Hm Hc).
    destruct (String.eqb h' h) eqn:Eh; streq; [|lia].
    rewrite Hml in Hm. injection Hm as <-. rewrite Hc0 in Hc. injection Hc as <-.
    apply Z.ltb_ge in B. lia. }
  unfold HR.ro_evict. pyrun. pycases; simpl; auto; try pynf; pyok; try (eapply Hkeep; eassumption).
  apply within_capacity_dset.
  - intros h' ms c Hne Hm Hc. specialize (Hs h' ms c Hm Hc).
    apply eqb_false in Hne. rewrite Hne in Hs. lia.
  - intros c Hc. rewrite E0 in Hc. injection Hc as <-.
    specialize (Hs h a a0 E E0). rewrite String.eqb_refl in Hs.
    apply Z.ltb_lt in B. pose proof (rem_length a3 a Hin). lia.
Qed.

Lemma ro_prune_matching caps h s : HR.matching (snd (HR.ro_prune caps h s)) = HR.matching s.
Proof.
  unfold HR.ro_prune. pyrun. pycases; simpl; auto.
  apply (for_each_pres (fun st => HR.matching st = HR.matching s)); auto.
  intros x st Hst. rewrite <- Hst. unfold HR.prune_resident. pyrun. pycases; reflexivity.
Qed.


Lemma ro_body_capacity caps r s o s' :
  within_capacity caps (HR.matching s) -> HR.ro_body caps r s = (o, s') -> no_raise o ->
  within_capacity caps (HR.matching s').
Proof.
  intros Hs Hb Ho. unfold HR.ro_body, bind in Hb.
  pose proof (ro_append_spec r s) as Ha.
  destruct (HR.ro_append r s) as [[h| |] s1];
    [|injection Hb as <- _; destruct (Ho e); reflexivity|simpl in Ha; contradiction].
  destruct Ha as [ml [Hml ->]].
  pose proof (ro_evict_capacity caps h (HR.set_matching (dset (HR.matching s) h (ml ++ [r])) s)) as He.
  assert (Hpre : forall h' ms c,
            dget (HR.matching (HR.set_matching (dset (HR.matching s) h (ml ++ [r])) s)) h' = Some ms ->
            dget caps h' = Some c ->
            (Z.of_nat (length ms) <= c + if String.eqb h' h then 1 else 0)%Z).
  { intros h' ms c Hm Hc. simpl in Hm. rewrite dget_dset in Hm.
    destruct (String.eqb h' h) eqn:Eh; streq.
    - injection Hm as <-. specialize (Hs h ml c Hml Hc). rewrite length_app. simpl. lia.
    - specialize (Hs h' ms c Hm Hc). lia. }
  specialize (He Hpre).
  destruct (HR.ro_evict caps h _) as [[u| |] s2];
    [|injection Hb as <- _; destruct (Ho e); reflexivity|simpl in He; contradiction].
  pose proof (ro_prune_matching caps h s2) as Hp. rewrite Hb in Hp. simpl in Hp. rewrite Hp.
  exact He.
Qed.

Lemma ro_loop_capacity caps fuel s o s' :
  within_capacity caps (HR.matching s) -> HR.ro_loop caps fuel s = (o, s') -> no_raise o ->
  within_capacity caps (HR.matching s').
Proof.
  revert s. induction fuel as [|fuel IH]; intros s Hs Hl Ho; simpl in Hl.
  - injection Hl as _ <-. exact Hs.
  - unfold bind at 1, get in Hl. simpl in Hl.
    destruct (HR.free_residents (HR.resident_prefs s) (HR.matching s)) as [|r rs].
    + injection Hl as _ <-. exact Hs.
    + unfold bind in Hl. destruct (HR.ro_body caps r s) as [o1 s1] eqn:Eb.
      assert (H1 : o1 = Ok tt \/ o1 = OutOfFuel \/ exists e, o1 = Raise e)
        by (destruct o1 as [[]| |]; eauto).
      destruct H1 as [->|[->|[e ->]]].
      * eapply IH; [eapply ro_body_capacity; eauto; congruence|exact Hl|exact Ho].
      * injection Hl as <- <-. eapply ro_body_capacity; eauto.
      * injection Hl as <- _. destruct (Ho e); reflexivity.
Qed.

Lemma free_hospitals_aux_free hs hp caps m l h :
  HR.free_hospitals_aux hs hp caps m = Ok l -> In h l ->
  exists ml c, dget m h = Some ml /\ dget caps h = Some c /\ (Z.of_nat (length ml) < c)%Z.
Proof.
  revert l. induction hs as [|h0 hs IH]; simpl; intros l E Hin.
  - injection E as <-. contradiction.
  - destruct (getitem m h0) as [ml| |] eqn:E1; try discriminate.
    destruct (getitem caps h0) as [c| |] eqn:E2; try discriminate.
    destruct (HR.free_hospitals_aux hs hp caps m) as [rest| |]; try discriminate.
    injection E as <-. pyok.
    destruct ((Z.of_nat (length ml) <? c)%Z && _) eqn:Ef.
    + destruct Hin as [<-|Hin]; eauto.
      apply andb_true_iff in Ef. destruct Ef as [Ef _]. apply Z.ltb_lt in Ef. eauto.
    + eauto.
Qed.

Lemma dget_unassign r m k :
  dget (HR.unassign r m) k = option_map (fun l => if mem r l then rem r l else l) (dget m k).
Proof.
  induction m as [|[k0 l0] m IH]; simpl; auto.
  destruct (mem r l0) eqn:E; simpl; destruct (String.eqb k k0); simpl; try rewrite E; auto.
Qed.

Lemma prune_hospital_matching r xs s :
  HR.matching (snd (for_each xs (HR.prune_hospital r) s)) = HR.matching s.
Proof.
  apply (for_each_pres (fun st => HR.matching st = HR.matching s)); auto.
  intros x st Hst. rewrite <- Hst. unfold HR.prune_hospital. pyrun. pycases; reflexivity.
Qed.

Lemma rem_length_le x l : length (rem x l) <= length l.
Proof. induction l as [|a l IH]; simpl; [lia|]. destruct (String.eqb x a); simpl; lia. Qed.

Lemma unassign_length r l :
  length (if mem r l then rem r l else l) <= length l.
Proof. destruct (mem r l); auto using rem_length_le. Qed.

Lemma ho_body_capacity caps h s o s' ml c :
  within_capacity caps (HR.matching s) ->
  dget (HR.matching s) h = Some ml -> dget caps h = Some c -> (Z.of_nat (length ml) < c)%Z ->
  HR.ho_body h s = (o, s') -> no_raise o ->
  within_capacity caps (HR.matching s').
Proof.
  intros Hs Hml Hc Hlt Hb Ho. unfold HR.ho_body in Hb. pyrun.
  revert Hb. pycases; intros Hb; try (injection Hb as <- _; destruct (Ho e); reflexivity);
    try pynf; pyok.
  match type of Hb with for_each ?xs _ ?st = _ =>
    pose proof (prune_hospital_matching a1 xs st) as Hp end.
  rewrite Hb in Hp. simpl in Hp. rewrite Hp.
  apply within_capacity_dset.
  - intros h' ms c' Hne Hm Hc'. rewrite dget_unassign in Hm.
    destruct (dget (HR.matching s) h') as [l|] eqn:Eh'; [|discriminate].
    simpl in Hm. injection Hm as <-. specialize (Hs h' l c' Eh' Hc').
    pose proof (unassign_length a1 l). lia.
  - intros c' Hc'. rewrite Hc in Hc'. injection Hc' as <-.
    rewrite dget_unassign, Hml in E2. simpl in E2. injection E2 as <-.
    rewrite length_app. simpl. pose proof (unassign_length a1 ml). lia.
Qed.

Lemma ho_loop_capacity caps fuel s o s' :
  within_capacity caps (HR.matching s) -> HR.ho_loop caps fuel s = (o, s') -> no_raise o ->
  within_capacity caps (HR.matching s').
Proof.
  revert s. induction fuel as [|fuel IH]; intros s Hs Hl Ho; simpl in Hl.
  - injection Hl as _ <-. exact Hs.
  - unfold bind at 1, get in Hl. simpl in Hl. unfold bind at 1, lift in Hl.
    destruct (HR.free_hospitals (HR.hospital_prefs s) caps (HR.matching s)) as [[|h fh]| |] eqn:Ef.
    + injection Hl as _ <-. exact Hs.
    + destruct (free_hospitals_aux_free _ _ _ _ _ h Ef (or_introl eq_refl)) as [ml [c [Hml [Hc Hlt]]]].
      unfold bind in Hl. destruct (HR.ho_body h s) as [o1 s1] eqn:Eb.
      assert (H1 : o1 = Ok tt \/ o1 = OutOfFuel \/ exists e, o1 = Raise e)
        by (destruct o1 as [[]| |]; eauto).
      destruct H1 as [->|[->|[e ->]]].
      * eapply IH; [eapply ho_body_capacity; eauto; congruence|exact Hl|exact Ho].
      * injection Hl as <- <-. eapply ho_body_capacity; eauto.
      * injection Hl as <- _. destruct (Ho e); reflexivity.
    + injection Hl as <- _. destruct (Ho e); reflexivity.
    + injection Hl as _ <-. exact Hs.
Qed.

Lemma insert_by_key_length k x l : length (HR.insert_by_key k x l) = S (length l).
Proof. induction l as [|[k' y] l IH]; simpl; auto. destruct (Nat.ltb k k'); simpl; auto. Qed.

Lemma sort_by_key_length l : length (HR.sort_by_key l) = length l.
Proof.
  unfold HR.sort_by_key. rewrite length_map.
  assert (H : forall acc, length (fold_left (fun acc kx => HR.insert_by_key (fst kx) (snd kx) acc) l acc)
                          = length l + length acc).
  { induction l as [|kx l IH]; intros acc; simpl; auto. rewrite IH, insert_by_key_length. lia. }
  rewrite H. simpl. lia.
Qed.

Lemma keys_of_length hl ms ks : HR.keys_of hl ms = Ok ks -> length ks = length ms.
Proof.
  revert ks. induction ms as [|r ms IH]; simpl; intros ks E.
  - injection E as <-. reflexivity.
  - destruct (list_index r hl); try discriminate.
    destruct (HR.keys_of hl ms) as [ks'| |]; try discriminate.
    injection E as <-. simpl. f_equal. auto.
Qed.

Lemma sort_matches_capacity caps s :
  within_capacity caps (HR.matching s) -> within_capacity caps (HR.matching (snd (HR.sort_matches s))).
Proof.
  intros Hs. unfold HR.sort_matches. unfold bind at 1, get. simpl.
  apply (for_each_pres (fun st => within_capacity caps (HR.matching st))); [|exact Hs].
  intros h st Hst. pyrun. pycases; simpl; auto; pyok.
  apply within_capacity_dset.
  - intros h' ms c Hne Hm Hc. eauto.
  - intros c Hc. rewrite sort_by_key_length. erewrite keys_of_length by eassumption. eauto.
Qed.

Lemma caps_nonneg_dget caps h c : caps_nonneg caps -> dget caps h = Some c -> (0 <= c)%Z.
Proof.
  unfold caps_nonneg. induction caps as [|[h0 c0] caps IH]; simpl; [discriminate|].
  intros H. apply andb_true_iff in H. destruct H as [H0 H].
  destruct (String.eqb h h0); auto. injection 1 as <-. apply Z.leb_le; auto.
Qed.

Lemma empty_matching_capacity caps hp :
  caps_nonneg caps -> within_capacity caps (HR.empty_matching hp).
Proof.
  intros Hc h ms c Hm Hcap. unfold HR.empty_matching in Hm.
  induction hp as [|[h0 l0] hp IH]; simpl in Hm; [discriminate|].
  destruct (String.eqb h h0); auto. injection Hm as <-. simpl.
  eapply caps_nonneg_dget; eauto.
Qed.

Lemma hr_resident_optimal_capacity caps fuel s m s' :
  caps_nonneg caps -> HR.hr_resident_optimal caps fuel s = (Ok m, s') -> within_capacity caps m.
Proof.
  intros Hc H. unfold HR.hr_resident_optimal, bind at 1, modify in H. simpl in H.
  unfold bind at 1 in H.
  destruct (HR.ro_loop caps fuel _) as [o1 s1] eqn:El.
  destruct o1 as [u| |]; try discriminate.
  assert (W : within_capacity caps (HR.matching s1)).
  { eapply ro_loop_capacity; [|exact El|congruence]. apply empty_matching_capacity; auto. }
  unfold bind at 1 in H. pose proof (sort_matches_capacity caps s1 W) as W2.
  destruct (HR.sort_matches s1) as [o2 s2]; simpl in W2.
  destruct o2; try discriminate. pyrun. injection H as <- _. exact W2.
Qed.

Lemma hr_hospital_optimal_capacity caps fuel s m s' :
  caps_nonneg caps -> HR.hr_hospital_optimal caps fuel s = (Ok m, s') -> within_capacity caps m.
Proof.
  intros Hc H. unfold HR.hr_hospital_optimal, bind at 1, modify in H. simpl in H.
  unfold bind at 1 in H.
  destruct (HR.ho_loop caps fuel _) as [o1 s1] eqn:El.
  destruct o1 as [u| |]; try discriminate.
  assert (W : within_capacity caps (HR.matching s1)).
  { eapply ho_loop_capacity; [|exact El|congruence]. apply empty_matching_capacity; auto. }
  pyrun. injection H as <- _. exact W.
Qed.

Lemma hospital_resident_capacity caps fuel hp rp opt m :
  caps_nonneg caps -> fst (HR.hospital_resident fuel hp rp caps opt) = Ok m ->
  within_capacity caps m.
Proof.
  intros Hc. unfold HR.hospital_resident. cbv zeta. unfold bind at 1.
  pose proof (check_inputs_readonly (HR.State hp rp [])) as Hro.
  destruct (HR.check_inputs (HR.State hp rp [])) as [[u| |] s1]; simpl in Hro |- *;
    try discriminate. subst s1.
  destruct (String.eqb opt "resident");
    [|destruct (String.eqb opt "hospital"); [|simpl; discriminate]];
    [destruct (HR.hr_resident_optimal caps fuel _) as [o s'] eqn:E
    |destruct (HR.hr_hospital_optimal caps fuel _) as [o s'] eqn:E];
    simpl; intros ->;
    eauto using hr_resident_optimal_capacity, hr_hospital_optimal_capacity.
Qed.

(** C2 (amended): with nonnegative capacities, every hospital's sequence
    stays within its capacity at the boundaries of the iterations of both
    loops (the loop started as the solver starts it and run for any number
    of iterations without an exception), and in the returned matching. *)
Theorem hr_capacity_between_iterations caps (Hc : caps_nonneg caps) :
  (forall hp rp fuel o s',
     HR.ro_loop caps fuel (HR.State hp rp (HR.empty_matching hp)) = (o, s') -> no_raise o ->
     within_capacity caps (HR.matching s')) /\
  (forall hp rp fuel o s',
     HR.ho_loop caps fuel (HR.State hp rp (HR.empty_matching hp)) = (o, s') -> no_raise o ->
     within_capacity caps (HR.matching s')) /\
  (forall fuel hp rp opt m,
     fst (HR.hospital_resident fuel hp rp caps opt) = Ok m -> within_capacity caps m).
Proof.
  split; [|split].
  - intros. eapply ro_loop_capacity; eauto. apply empty_matching_capacity; auto.
  - intros. eapply ho_loop_capacity; eauto. apply empty_matching_capacity; auto.
  - intros. eapply hospital_resident_capacity; eauto.
Qed.

Lemma hr_capacity_between_iterations_witness :
  caps_nonneg ex_caps /\
  fst (HR.hospital_resident 20 ex_hosp ex_res ex_caps "resident") =
    Ok [("X", ["D"]); ("Y", ["A"; "B"]); ("Z", ["C"])] /\
  within_capacity ex_caps [("X", ["D"]); ("Y", ["A"; "B"]); ("Z", ["C"])].
Proof.
  split; [reflexivity|]. split; [vm_compute; reflexivity|].
  apply (proj2 (proj2 (hr_capacity_between_iterations ex_caps eq_refl)) 20 ex_hosp ex_res "resident").
  vm_compute. reflexivity.
Defined.

(** C2 (counterexample): inside an iteration of the resident-optimal loop,
    [matching[hospital].append(resident)] takes a full hospital over its
    capacity until the eviction that follows. *)
Lemma hr_capacity_exceeded_inside_iteration :
  let s1 := snd (HR.ro_loop ex2_caps 1 (HR.State ex2_hosp ex2_res (HR.empty_matching ex2_hosp))) in
  HR.free_residents (HR.resident_prefs s1) (HR.matching s1) = ["A"] /\
  HR.ro_append "A" s1 = (Ok "X", HR.set_matching [("X", ["B"; "A"])] s1) /\
  ~ within_capacity ex2_caps [("X", ["B"; "A"])] /\
  fst (HR.hospital_resident 20 ex2_hosp ex2_res ex2_caps "resident") = Ok [("X", ["A"])].
Proof.
  split; [vm_compute; reflexivity|]. split; [vm_compute; reflexivity|]. split.
  - intros H. specialize (H "X" ["B"; "A"] 1%Z eq_refl eq_refl). simpl in H. lia.
  - vm_compute. reflexivity.
Qed.

(* ------------------------------------------------------------------ *)
(** ** Order of the returned hospital sequences *)

Lemma subseq_app_l l r : subseq l (l ++ r).
Proof.
  induction l as [|x l IH]; simpl.
  - apply subseq_nil_l.
  - apply subseq_take; auto.
Qed.

Lemma subseq_cons_before x ms l y : subseq (x :: ms) l -> In y ms -> before l x y.
Proof.
  intros H. remember (x :: ms) as xm eqn:Exm. revert x ms Exm.
  induction H as [|l l0 z H IH|l l0 z H IH]; intros x ms Exm Hy; [discriminate| |].
  - destruct (IH x ms Exm Hy) as [a [b [c E]]]. exists (z :: a), b, c. rewrite E. reflexivity.
  - injection Exm as -> ->. assert (Hin : In y l0) by (eapply subseq_in; eauto).
    destruct (in_split _ _ Hin) as [b [c E]]. exists [], b, c. rewrite E. reflexivity.
Qed.

Lemma subseq_cons_inv x ms l : subseq (x :: ms) l -> subseq ms l.
Proof.
  intros H. remember (x :: ms) as xm eqn:Exm. revert x ms Exm.
  induction H as [|l l0 z H IH|l l0 z H IH]; intros x ms Exm; [discriminate| |].
  - apply subseq_skip. eauto.
  - injection Exm as -> ->. apply subseq_skip. auto.
Qed.

Lemma subseq_sorted ms l : subseq ms l -> NoDup l -> Sorted (rank_le l) ms.
Proof.
  intros Hs Hnd. apply StronglySorted_Sorted.
  induction ms as [|x ms IH]; constructor.
  - apply IH. eapply subseq_cons_inv; eauto.
  - apply Forall_forall. intros y Hy.
    destruct (before_prefers l x y Hnd (subseq_cons_before x ms l y Hs Hy)) as [i [j [Hi [Hj Hlt]]]].
    exists i, j. repeat split; auto. lia.
Qed.

Lemma ranked_of_subseq hp0 m :
  strict_lists hp0 ->
  (forall h ms, dget m h = Some ms -> exists hl0, dget hp0 h = Some hl0 /\ subseq ms hl0) ->
  ranked hp0 m.
Proof.
  intros Hst Hm h ms Hms. destruct (Hm h ms Hms) as [hl0 [Hhl0 Hsub]].
  exists hl0. repeat split; auto.
  - apply Forall_forall. intros x Hx. eapply subseq_in; eauto.
  - apply subseq_sorted; auto. eapply Hst. apply dget_In. eauto.
Qed.

Lemma dget_empty_matching hp h :
  dget (HR.empty_matching hp) h = option_map (fun _ => []) (dget hp h).
Proof.
  unfold HR.empty_matching. induction hp as [|[k l] hp IH]; simpl; auto.
  destruct (String.eqb h k); auto.
Qed.

Lemma prune_hospital_spec r x s s' :
  HR.prune_hospital r x s = (Ok tt, s') ->
  exists hl rl, dget (HR.hospital_prefs s) x = Some hl /\ In r hl /\
    dget (HR.resident_prefs s) r = Some rl /\ In x rl /\
    s' = HR.State (dset (HR.hospital_prefs s) x (rem r hl))
                  (dset (HR.resident_prefs s) r (rem x rl)) (HR.matching s).
Proof.
  unfold HR.prune_hospital. pyrun. pycases; intros H; try discriminate; pyok.
  injection H as <-. exists a, a1. repeat split; auto.
Qed.

Lemma NoDup_app_mid {A} (a b : list A) x : NoDup (a ++ x :: b) -> ~ In x a /\ ~ In x b.
Proof.
  intros H. apply NoDup_remove_2 in H. split; intros Hin; apply H; apply in_or_app; auto.
Qed.

Lemma prune_hospital_all r xs s s' :
  NoDup xs -> for_each xs (HR.prune_hospital r) s = (Ok tt, s') ->
  HR.matching s' = HR.matching s /\
  (forall h, dget (HR.hospital_prefs s') h =
     if mem h xs then option_map (rem r) (dget (HR.hospital_prefs s) h)
     else dget (HR.hospital_prefs s) h) /\
  (forall A, dget (HR.resident_prefs s) r = Some (A ++ xs) -> NoDup (A ++ xs) ->
     dget (HR.resident_prefs s') r = Some A) /\
  (forall r', r' <> r -> dget (HR.resident_prefs s') r' = dget (HR.resident_prefs s) r').
Proof.
  revert s. induction xs as [|x xs IH]; intros s Hnd H; simpl in H.
  - injection H as <-. repeat split; auto.
    intros A HA _. rewrite app_nil_r in HA. exact HA.
  - unfold bind in H. destruct (HR.prune_hospital r x s) as [[[]| |] s1] eqn:Ep; try discriminate.
    apply prune_hospital_spec in Ep. destruct Ep as [hl [rl [Hhl [Hr [Hrl [Hx ->]]]]]].
    inversion Hnd as [|? ? Hxn Hnd']; subst.
    destruct (IH _ Hnd' H) as [Hm [Hh [Hra Hro]]]; simpl in *.
    repeat split; auto.
    + intros h. rewrite Hh, !dget_dset. simpl.
      destruct (String.eqb h x) eqn:E; streq; simpl.
      * apply mem_false in Hxn. rewrite Hxn. rewrite Hhl. reflexivity.
      * destruct (mem h xs); reflexivity.
    + intros A HA HnA. apply Hra.
      * rewrite dget_dset, String.eqb_refl. rewrite Hrl in HA. injection HA as ->.
        rewrite rem_app_r; [simpl; rewrite String.eqb_refl; reflexivity|]. apply (NoDup_app_mid A xs x HnA).
      * apply NoDup_remove_1 in HnA. exact HnA.
    + intros r' Hne. rewrite Hro by auto. rewrite dget_dset.
      apply eqb_false in Hne. rewrite Hne. reflexivity.
Qed.

Lemma idx_split x l i : idx_of x l = Some i -> l = firstn i l ++ x :: skipn (S i) l.
Proof.
  intros H. apply idx_of_nth in H. revert i H.
  induction l as [|a l IH]; intros [|i] H; simpl in *; try discriminate.
  - injection H as ->. reflexivity.
  - f_equal. auto.
Qed.

Lemma filter_notin_nil ml l :
  (forall x, In x l -> In x ml) -> filter (fun x => negb (mem x ml)) l = [].
Proof.
  induction l as [|y l IH]; intros Hl; simpl; auto.
  assert (Hy : mem y ml = true) by (apply mem_In; apply Hl; simpl; auto).
  rewrite Hy. simpl. apply IH. intros x Hx. apply Hl. simpl; auto.
Qed.

Lemma NoDup_app_disj (l1 l2 : list string) a : NoDup (l1 ++ l2) -> In a l1 -> ~ In a l2.
Proof.
  induction l1 as [|b l1 IH]; simpl; [tauto|]. intros Hnd [<-|Hin] Hin2.
  - inversion Hnd as [|? ? Hn]; subst. apply Hn. apply in_or_app; auto.
  - inversion Hnd; subst. eapply IH; eauto.
Qed.

Lemma filter_notin_prefix ml rest :
  NoDup (ml ++ rest) -> filter (fun x => negb (mem x ml)) (ml ++ rest) = rest.
Proof.
  intros Hnd. rewrite filter_app, filter_notin_nil by auto. simpl.
  apply forallb_filter_id. apply forallb_forall. intros y Hy.
  apply negb_true_iff, mem_false. intros Hin. eapply NoDup_app_disj; eauto.
Qed.

Lemma last_in_suffix (a b c : list string) x y :
  a ++ x :: b = c ++ [y] -> y <> x -> In y b.
Proof.
  intros E Hne. destruct b as [|z b] using rev_ind.
  - apply app_inj_tail in E. destruct E; congruence.
  - replace (a ++ x :: b ++ [z]) with ((a ++ x :: b) ++ [z]) in E
      by (rewrite <- app_assoc; reflexivity).
    apply app_inj_tail in E. destruct E as [_ ->]. apply in_or_app. simpl; auto.
Qed.

Lemma ho_body_inv h s s' : ho_inv s -> HR.ho_body h s = (Ok tt, s') -> ho_inv s'.
Proof.
  intros [Hnh [Hnr [Hpre Hlast]]] H. unfold HR.ho_body in H. pyrun.
  revert H. pycases; intros H; try discriminate; pyok.
  rename a into hl, a0 into ml, a1 into r, a2 into ml1, a3 into rl, a4 into idx.
  replace (match rl with [] => [] | _ :: l => skipn idx l end) with (skipn (S idx) rl) in H
    by (destruct rl; reflexivity).
  destruct (Hpre h ml E0) as [rest Hrest]. rewrite E in Hrest. injection Hrest as ->.
  assert (Hndh : NoDup (ml ++ rest)) by (eapply Hnh; eauto).
  rewrite filter_notin_prefix in E1 by auto. subst rest.
  assert (Hrml : ~ In r ml) by (intros Hin; eapply NoDup_app_disj; eauto; simpl; auto).
  rewrite dget_unassign, E0 in E2. simpl in E2. apply mem_false in Hrml as Hm.
  rewrite Hm in E2. injection E2 as <-.
  assert (Hndr : NoDup rl) by (eapply Hnr; eauto).
  pose proof (idx_split _ _ _ E4) as Hsplit.
  remember (firstn idx rl) as pre_h eqn:Epre. remember (skipn (S idx) rl) as succ eqn:Esucc.
  clear Epre Esucc. subst rl.
  assert (Hnds : NoDup (h :: succ)) by (eapply NoDup_app_remove_l; eauto).
  apply NoDup_cons_iff in Hnds. destruct Hnds as [Hhs Hnds'].
  destruct (prune_hospital_all r succ _ s' Hnds' H) as [Hm' [Hh' [Hra Hro]]]. simpl in *.
  assert (Hrp' : dget (HR.resident_prefs s') r = Some (pre_h ++ [h])).
  { apply Hra; rewrite <- app_assoc; simpl; [exact E3|exact Hndr]. }
  apply mem_false in Hhs as Hhs'.
  split; [|split; [|split]].
  - intros k l Hk. rewrite Hh' in Hk. destruct (mem k succ).
    + destruct (dget (HR.hospital_prefs s) k) eqn:Ek; simpl in Hk; [|discriminate].
      injection Hk as <-. apply rem_nodup. eauto.
    + eauto.
  - intros k l Hk. destruct (String.eqb k r) eqn:Ekr; streq.
    + rewrite Hrp' in Hk. injection Hk as <-.
      apply (NoDup_app_remove_r _ succ). rewrite <- app_assoc. exact Hndr.
    + rewrite Hro in Hk by auto. eauto.
  - intros h' ml' Hml'. rewrite Hm', dget_dset in Hml'.
    destruct (String.eqb h' h) eqn:Ehh; streq.
    + injection Hml' as <-. exists tl. rewrite Hh', Hhs', E. rewrite <- app_assoc. reflexivity.
    + rewrite dget_unassign in Hml'. destruct (dget (HR.matching s) h') as [l0|] eqn:El0; [|discriminate].
      simpl in Hml'. injection Hml' as <-. destruct (Hpre h' l0 El0) as [rest0 Hr0].
      destruct (mem r l0) eqn:Erl0.
      * apply mem_In in Erl0. destruct (Hlast h' l0 r El0 Erl0) as [pre Hp].
        rewrite E3 in Hp. injection Hp as Hp.
        assert (Hin : In h' succ) by (eapply last_in_suffix; [exact Hp|exact Ehh]).
        exists rest0. rewrite Hh'. apply mem_In in Hin. rewrite Hin, Hr0. simpl.
        rewrite rem_app_l; auto.
      * apply mem_false in Erl0. rewrite Hh'. destruct (mem h' succ); rewrite Hr0; simpl.
        -- rewrite rem_app_r by auto. eauto.
        -- eauto.
  - intros h' ml' r'' Hml' Hin. rewrite Hm', dget_dset in Hml'.
    destruct (String.eqb h' h) eqn:Ehh; streq.
    + injection Hml' as <-. apply in_app_or in Hin. destruct Hin as [Hin|[<-|[]]].
      * assert (Hne : r'' <> r) by (intros ->; contradiction).
        rewrite Hro by auto. eauto.
      * exists pre_h. exact Hrp'.
    + rewrite dget_unassign in Hml'. destruct (dget (HR.matching s) h') as [l0|] eqn:El0; [|discriminate].
      simpl in Hml'. injection Hml' as <-.
      assert (Hnd0 : NoDup l0).
      { destruct (Hpre h' l0 El0) as [rest0 Hr0]. eapply NoDup_app_remove_r. eapply Hnh; eauto. }
      assert (Hr'' : In r'' l0 /\ r'' <> r).
      { destruct (mem r l0) eqn:Erl0.
        - split; [eapply in_rem; eauto|]. intros ->. eapply rem_gone; eauto.
        - apply mem_false in Erl0. split; auto. intros ->. contradiction. }
      destruct Hr'' as [Hin0 Hne]. rewrite Hro by auto. eauto.
Qed.

Lemma ho_loop_inv caps fuel s s' : ho_inv s -> HR.ho_loop caps fuel s = (Ok tt, s') -> ho_inv s'.
Proof.
  revert s. induction fuel as [|fuel IH]; intros s Hs Hl; simpl in Hl; [discriminate|].
  unfold bind at 1, get in Hl. simpl in Hl. unfold bind at 1, lift in Hl.
  destruct (HR.free_hospitals (HR.hospital_prefs s) caps (HR.matching s)) as [[|h fh]| |];
    try discriminate.
  - injection Hl as <-. exact Hs.
  - unfold bind in Hl. destruct (HR.ho_body h s) as [[[]| |] s1] eqn:Eb; try discriminate.
    eapply IH; [eapply ho_body_inv; eauto|exact Hl].
Qed.

Lemma strict_nodup_lists d : strict_lists d -> nodup_lists d.
Proof. intros H k l Hk. eapply H. apply dget_In. exact Hk. Qed.

Lemma ho_inv_init hp rp :
  nodup_lists hp -> nodup_lists rp -> ho_inv (HR.State hp rp (HR.empty_matching hp)).
Proof.
  intros H1 H2. split; [auto|split; [auto|split]]; simpl.
  - intros h ml Hml. rewrite dget_empty_matching in Hml.
    destruct (dget hp h) as [hl|] eqn:E; simpl in Hml; [|discriminate].
    injection Hml as <-. exists hl. reflexivity.
  - intros h ml r Hml Hin. rewrite dget_empty_matching in Hml.
    destruct (dget hp h); simpl in Hml; [|discriminate]. injection Hml as <-. destruct Hin.
Qed.

Lemma hr_hospital_optimal_ranked caps fuel hp rp st m :
  strict_lists hp -> strict_lists rp ->
  HR.hr_hospital_optimal caps fuel (HR.State hp rp []) = (Ok m, st) -> ranked hp m.
Proof.
  intros Hh Hr H.
  pose proof (hr_hospital_optimal_pruned hp rp caps fuel (HR.State hp rp [])
                (conj (pruned_of_refl _) (pruned_of_refl _))) as Hp.
  rewrite H in Hp. simpl in Hp. destruct Hp as [Hp _].
  unfold HR.hr_hospital_optimal, bind at 1, modify in H. simpl in H.
  unfold bind at 1 in H.
  destruct (HR.ho_loop caps fuel _) as [[[]| |] s1] eqn:El; try discriminate.
  pyrun. injection H as <- <-.
  apply ho_loop_inv in El; [|apply ho_inv_init; apply strict_nodup_lists; auto].
  destruct El as [_ [_ [Hpre _]]].
  apply ranked_of_subseq; auto. intros h ms Hms.
  destruct (Hpre h ms Hms) as [rest Hrest].
  destruct (pruned_of_dget _ _ _ _ Hp Hrest) as [hl0 [Hhl0 Hsub]].
  exists hl0. split; auto. eapply subseq_trans; [apply subseq_app_l|exact Hsub].
Qed.

Lemma insert_by_key_hd a k x l :
  HdRel key_le a l -> key_le a (k, x) -> HdRel key_le a (HR.insert_by_key k x l).
Proof.
  intros H Ha. destruct l as [|[k' y] l]; simpl.
  - constructor. exact Ha.
  - destruct (Nat.ltb k k'); constructor; auto. inversion H; auto.
Qed.

Lemma insert_by_key_sorted k x l : Sorted key_le l -> Sorted key_le (HR.insert_by_key k x l).
Proof.
  induction l as [|[k' y] l IH]; intros Hs; simpl.
  - repeat constructor.
  - destruct (Nat.ltb k k') eqn:E.
    + constructor; auto. constructor. unfold key_le. simpl. apply Nat.ltb_lt in E. lia.
    + inversion Hs as [|? ? Hs' Hd]; subst. constructor; auto.
      apply insert_by_key_hd; auto. unfold key_le. simpl. apply Nat.ltb_ge in E. lia.
Qed.

Lemma insert_by_key_forall (Q : nat * string -> Prop) k x l :
  Q (k, x) -> Forall Q l -> Forall Q (HR.insert_by_key k x l).
Proof.
  intros Hq. induction l as [|[k' y] l IH]; intros Hl; simpl.
  - repeat constructor; auto.
  - inversion Hl; subst. destruct (Nat.ltb k k'); constructor; auto.
Qed.

Lemma sort_fold_spec (Q : nat * string -> Prop) ks acc :
  Forall Q ks -> Forall Q acc -> Sorted key_le acc ->
  let L := fold_left (fun acc kx => HR.insert_by_key (fst kx) (snd kx) acc) ks acc in
  Forall Q L /\ Sorted key_le L.
Proof.
  revert acc. induction ks as [|[k x] ks IH]; intros acc Hks Hacc Hs; simpl; auto.
  inversion Hks; subst. apply IH; auto.
  - apply insert_by_key_forall; auto.
  - apply insert_by_key_sorted; auto.
Qed.

Lemma sorted_keys_rank hl L :
  Forall (fun kx => idx_of (snd kx) hl = Some (fst kx)) L -> Sorted key_le L ->
  Sorted (rank_le hl) (map snd L).
Proof.
  induction 2 as [|a L Hs IH Hd]; simpl; constructor.
  - inversion H; auto.
  - inversion H as [|? ? Ha HL]; subst. destruct Hd as [|b L' Hab]; simpl; constructor.
    inversion HL as [|? ? Hb]; subst. exists (fst a), (fst b). repeat split; auto.
Qed.

Lemma keys_of_spec hl ms ks :
  HR.keys_of hl ms = Ok ks ->
  map snd ks = ms /\ Forall (fun kx => idx_of (snd kx) hl = Some (fst kx)) ks.
Proof.
  revert ks. induction ms as [|r ms IH]; simpl; intros ks E.
  - injection E as <-. auto.
  - destruct (list_index r hl) as [i| |] eqn:Ei; try discriminate.
    destruct (HR.keys_of hl ms) as [ks'| |]; try discriminate.
    injection E as <-. destruct (IH ks' eq_refl) as [H1 H2]. simpl.
    split; [congruence|]. constructor; auto. apply list_index_ok; auto.
Qed.

Lemma sort_by_key_ranked hl ms ks :
  HR.keys_of hl ms = Ok ks ->
  Forall (fun r => In r hl) (HR.sort_by_key ks) /\ Sorted (rank_le hl) (HR.sort_by_key ks).
Proof.
  intros E. destruct (keys_of_spec _ _ _ E) as [_ Hq].
  destruct (sort_fold_spec _ ks [] Hq (Forall_nil _) (Sorted_nil _)) as [HF HS].
  unfold HR.sort_by_key. split.
  - apply Forall_map. eapply Forall_impl; [|exact HF].
    intros kx Hkx. apply idx_of_In. exists (fst kx). exact Hkx.
  - apply sorted_keys_rank; auto.
Qed.

Lemma for_each_establish {S A} (xs : list A) (f : A -> PyM S unit) (I : S -> Prop)
    (G : A -> S -> Prop) :
  (forall x s s', In x xs -> I s -> f x s = (Ok tt, s') ->
     I s' /\ G x s' /\ forall y, G y s -> G y s') ->
  forall s s', I s -> for_each xs f s = (Ok tt, s') ->
  I s' /\ (forall x, In x xs -> G x s') /\ (forall y, G y s -> G y s').
Proof.
  induction xs as [|x xs IH]; intros Hf s s' Hs H; simpl in H.
  - injection H as <-. repeat split; auto. intros x [].
  - unfold bind in H. destruct (f x s) as [[[]| |] s1] eqn:Ef; try discriminate.
    destruct (Hf x s s1 (or_introl eq_refl) Hs Ef) as [I1 [G1 P1]].
    destruct (IH (fun x' s0 s0' Hin => Hf x' s0 s0' (or_intror Hin)) s1 s' I1 H) as [I2 [G2 P2]].
    repeat split; auto. intros y [<-|Hy]; auto.
Qed.

Lemma Sorted_impl' {A} (R R' : A -> A -> Prop) l :
  (forall x y, R x y -> R' x y) -> Sorted R l -> Sorted R' l.
Proof.
  intros HR. induction 1 as [|a l Hs IH Hd]; constructor; auto.
  destruct Hd; constructor; auto.
Qed.

Lemma sort_matches_ranked s s' :
  HR.sort_matches s = (Ok tt, s') ->
  HR.hospital_prefs s' = HR.hospital_prefs s /\ ranked (HR.hospital_prefs s) (HR.matching s').
Proof.
  intros H. unfold HR.sort_matches, bind at 1, get in H. simpl in H.
  set (K := map fst (HR.matching s)) in H.
  set (I := fun st => HR.hospital_prefs st = HR.hospital_prefs s /\ map fst (HR.matching st) = K).
  set (G := fun h st => exists hl ms, dget (HR.hospital_prefs st) h = Some hl /\
              dget (HR.matching st) h = Some ms /\ Forall (fun r => In r hl) ms /\
              Sorted (rank_le hl) ms).
  match type of H with for_each _ ?f _ = _ =>
    pose proof (for_each_establish K f I G) as FE end.
  destruct FE with (s := s) (s' := s') as [[Ih Ik] [HG _]];
    [| split; reflexivity | exact H |].
  - intros x st st' Hx [Ih Ik] Hst. unfold I, G. clear FE H.
    revert Hst. pyrun. pycases; intros Hst; try discriminate.
    injection Hst as <-. pyok. simpl.
    destruct (sort_by_key_ranked _ _ _ E1) as [HF HS].
    split; [split; auto|split].
    + rewrite keys_dset; auto. rewrite Ik in *. rewrite <- Ik. eapply dget_key; eauto.
    + exists a0, (HR.sort_by_key a1). rewrite dget_dset, String.eqb_refl. auto.
    + intros y [hl [ms [Hy1 [Hy2 Hy3]]]]. exists hl.
      rewrite dget_dset. destruct (String.eqb y x) eqn:Eyx; streq.
      * exists (HR.sort_by_key a1). rewrite E0 in Hy1. injection Hy1 as <-. auto.
      * exists ms. auto.
  - split; auto. intros h ms Hms.
    assert (Hk : In h K) by (rewrite <- Ik; eapply dget_key; eauto).
    destruct (HG h Hk) as [hl [ms' [H1 [H2 H3]]]]. rewrite Hms in H2. injection H2 as <-.
    rewrite Ih in H1. eauto.
Qed.

Lemma ranked_transfer hp0 hp m :
  pruned_of hp0 hp -> strict_lists hp0 -> ranked hp m -> ranked hp0 m.
Proof.
  intros Hp Hs Hr h ms Hms. destruct (Hr h ms Hms) as [hl [Hhl [HF HS]]].
  destruct (pruned_of_dget _ _ _ _ Hp Hhl) as [hl0 [Hhl0 Hsub]].
  assert (Hnd : NoDup hl0) by (eapply Hs; apply dget_In; eauto).
  exists hl0. repeat split; auto.
  - eapply Forall_impl; [|exact HF]. intros x Hx. eapply subseq_in; eauto.
  - eapply Sorted_impl'; [|exact HS]. intros x y. apply rank_le_subseq; auto.
Qed.

Lemma hr_resident_optimal_ranked caps fuel hp rp st m :
  strict_lists hp ->
  HR.hr_resident_optimal caps fuel (HR.State hp rp []) = (Ok m, st) -> ranked hp m.
Proof.
  intros Hh H.
  pose proof (hr_resident_optimal_pruned hp rp caps fuel (HR.State hp rp [])
                (conj (pruned_of_refl _) (pruned_of_refl _))) as Hp.
  rewrite H in Hp. simpl in Hp. destruct Hp as [Hp _].
  unfold HR.hr_resident_optimal, bind at 1, modify in H. simpl in H.
  unfold bind at 1 in H.
  destruct (HR.ro_loop caps fuel _) as [[[]| |] s1] eqn:El; try discriminate.
  unfold bind at 1 in H.
  destruct (HR.sort_matches s1) as [[[]| |] s2] eqn:Es; try discriminate.
  pyrun. injection H as <- <-.
  destruct (sort_matches_ranked _ _ Es) as [Hhp Hr].
  rewrite <- Hhp in Hr. eapply ranked_transfer; eauto.
Qed.

(** C7: for both HR variants, with strict preference lists, every
    hospital's sequence in the returned matching lists residents of that
    hospital's original preference list in ascending rank: the resident-
    optimal run sorts it (lines 112-114), the hospital-optimal run keeps it
    in proposal order, which is rank order. *)
Theorem hr_matches_ranked fuel hp rp caps opt m :
  strict_lists hp -> strict_lists rp ->
  fst (HR.hospital_resident fuel hp rp caps opt) = Ok m -> ranked hp m.
Proof.
  intros Hh Hr. unfold HR.hospital_resident. cbv zeta. unfold bind at 1.
  pose proof (check_inputs_readonly (HR.State hp rp [])) as Hro.
  destruct (HR.check_inputs (HR.State hp rp [])) as [[u| |] s1]; simpl in Hro |- *;
    try discriminate. subst s1.
  destruct (String.eqb opt "resident");
    [|destruct (String.eqb opt "hospital"); [|simpl; discriminate]];
    [destruct (HR.hr_resident_optimal caps fuel _) as [o s'] eqn:E
    |destruct (HR.hr_hospital_optimal caps fuel _) as [o s'] eqn:E];
    simpl; intros ->;
    eauto using hr_resident_optimal_ranked, hr_hospital_optimal_ranked.
Qed.

Lemma nodupb_NoDup l : nodupb l = true -> NoDup l.
Proof.
  induction l as [|x xs IH]; simpl; intros H; constructor.
  - apply andb_true_iff in H as [H _]. apply negb_true_iff in H.
    intros Hin. assert (existsb (String.eqb x) xs = true) by
      (apply existsb_exists; exists x; split; [auto|apply String.eqb_refl]).
    congruence.
  - apply andb_true_iff in H as [_ H]. auto.
Qed.

Lemma strict_lists_of_forallb d :
  forallb (fun kl => nodupb (snd kl)) d = true -> strict_lists d.
Proof.
  intros H k l Hin. rewrite forallb_forall in H. apply nodupb_NoDup, (H _ Hin).
Qed.

(** Witness for C7: with both solvers, hospital [X] holds [C] and [B] in its
    order; the resident-optimal solver appended them as [B], [C], so its
    final sort reorders them. *)
Lemma hr_matches_ranked_witness :
  strict_lists ex3_hosp /\ strict_lists ex3_res /\
  fst (HR.ro_loop ex3_caps 30 (HR.State ex3_hosp ex3_res (HR.empty_matching ex3_hosp))) = Ok tt /\
  HR.matching (snd (HR.ro_loop ex3_caps 30 (HR.State ex3_hosp ex3_res (HR.empty_matching ex3_hosp)))) =
    [("X", ["B"; "C"]); ("Y", ["A"])] /\
  fst (HR.hospital_resident 30 ex3_hosp ex3_res ex3_caps "resident") = Ok [("X", ["C"; "B"]); ("Y", ["A"])] /\
  ranked ex3_hosp [("X", ["C"; "B"]); ("Y", ["A"])] /\
  fst (HR.hospital_resident 30 ex3_hosp ex3_res ex3_caps "hospital") = Ok [("X", ["C"; "B"]); ("Y", ["A"])] /\
  ranked ex3_hosp [("X", ["C"; "B"]); ("Y", ["A"])].
Proof.
  assert (H1 : strict_lists ex3_hosp) by (apply strict_lists_of_forallb; vm_compute; reflexivity).
  assert (H2 : strict_lists ex3_res) by (apply strict_lists_of_forallb; vm_compute; reflexivity).
  assert (H3 : fst (HR.hospital_resident 30 ex3_hosp ex3_res ex3_caps "resident") =
               Ok [("X", ["C"; "B"]); ("Y", ["A"])]) by (vm_compute; reflexivity).
  assert (H4 : fst (HR.hospital_resident 30 ex3_hosp ex3_res ex3_caps "hospital") =
               Ok [("X", ["C"; "B"]); ("Y", ["A"])]) by (vm_compute; reflexivity).
  split; [exact H1|]. split; [exact H2|].
  split; [vm_compute; reflexivity|]. split; [vm_compute; reflexivity|].
  split; [exact H3|]. split; [exact (hr_matches_ranked 30 ex3_hosp ex3_res ex3_caps "resident" _ H1 H2 H3)|].
  split; [exact H4|]. exact (hr_matches_ranked 30 ex3_hosp ex3_res ex3_caps "hospital" _ H1 H2 H4).
Defined.

(* ------------------------------------------------------------------ *)
(** ** Stable marriage: termination, stability and bijection *)

Lemma sumlen_dset_rem d k l x :
  dget d k = Some l -> In x l -> S (sumlen (dset d k (rem x l))) = sumlen d.
Proof.
  induction d as [|[k' l'] d IH]; simpl; [discriminate|].
  destruct (String.eqb k k'); simpl.
  - intros Hg Hx. injection Hg as E. subst l'. pose proof (rem_length x l Hx). lia.
  - intros H Hx. rewrite <- (IH H Hx). lia.
Qed.

Lemma sm_prune_spec r x s s' :
  SM.prune r x s = (Ok tt, s') ->
  exists rl sl, dget (SM.reviewer_prefs s) r = Some rl /\ In x rl /\
    dget (SM.suitor_prefs s) x = Some sl /\ In r sl /\
    s' = SM.State (dset (SM.suitor_prefs s) x (rem r sl))
                  (dset (SM.reviewer_prefs s) r (rem x rl)) (SM.suitors s) (SM.matching s).
Proof.
  unfold SM.prune. pyrun. pycases; intros H; try discriminate; pyok.
  injection H as <-. exists a, a1. repeat split; auto.
Qed.

Lemma sm_prune_all r xs s s' :
  NoDup xs -> for_each xs (SM.prune r) s = (Ok tt, s') ->
  SM.suitors s' = SM.suitors s /\ SM.matching s' = SM.matching s /\
  (forall y, dget (SM.suitor_prefs s') y =
     if mem y xs then option_map (rem r) (dget (SM.suitor_prefs s) y)
     else dget (SM.suitor_prefs s) y) /\
  (forall y, In y xs -> exists l, dget (SM.suitor_prefs s) y = Some l /\ In r l) /\
  sumlen (SM.suitor_prefs s') + length xs = sumlen (SM.suitor_prefs s) /\
  (forall A, dget (SM.reviewer_prefs s) r = Some (A ++ xs) -> NoDup (A ++ xs) ->
     dget (SM.reviewer_prefs s') r = Some A) /\
  (forall r', r' <> r -> dget (SM.reviewer_prefs s') r' = dget (SM.reviewer_prefs s) r').
Proof.
  revert s. induction xs as [|x xs IH]; intros s Hnd H; simpl in H.
  - injection H as <-. repeat split; simpl; auto; try lia; try (intros y Hy; simpl in Hy; contradiction).
    intros A HA _. rewrite app_nil_r in HA. exact HA.
  - unfold bind in H. destruct (SM.prune r x s) as [[[]| |] s1] eqn:Ep; try discriminate.
    apply sm_prune_spec in Ep. destruct Ep as [rl [sl [Hrl [Hx [Hsl [Hr ->]]]]]].
    apply NoDup_cons_iff in Hnd. destruct Hnd as [Hxn Hnd'].
    destruct (IH _ Hnd' H) as [Hq [Hm [Hs [Hin [Hlen [Hra Hro]]]]]]; simpl in *.
    repeat split; auto.
    + intros y. rewrite Hs, !dget_dset. simpl.
      destruct (String.eqb y x) eqn:E; streq; simpl.
      * apply mem_false in Hxn. rewrite Hxn. rewrite Hsl. reflexivity.
      * destruct (mem y xs); reflexivity.
    + intros y [<-|Hy]; [eauto|].
      destruct (Hin y Hy) as [l [Hl Hrl']]. rewrite dget_dset in Hl.
      destruct (String.eqb y x) eqn:E; streq; [contradiction|eauto].
    + pose proof (sumlen_dset_rem _ _ _ _ Hsl Hr). lia.
    + intros A HA HnA. apply Hra.
      * rewrite dget_dset, String.eqb_refl. rewrite Hrl in HA. injection HA as ->.
        rewrite rem_app_r; [simpl; rewrite String.eqb_refl; reflexivity|].
        apply (NoDup_app_mid A xs x HnA).
      * apply NoDup_remove_1 in HnA. exact HnA.
    + intros r' Hne. rewrite Hro by auto. rewrite dget_dset.
      apply eqb_false in Hne. rewrite Hne. reflexivity.
Qed.

Lemma sm_body_spec s s' :
  SM.suitors s <> [] -> SM.body s = (Ok tt, s') ->
  exists x rest r tl rl j q1 M1,
  SM.suitors s = x :: rest /\
  dget (SM.suitor_prefs s) x = Some (r :: tl) /\
  ((existsb (opt_eqb (Some r)) (map snd (SM.matching s)) = false /\ q1 = rest /\
    M1 = SM.matching s) \/
   (exists i sx, find_index opt_eqb (Some r) (map snd (SM.matching s)) = Some i /\
      nth_error (map fst (SM.matching s)) i = Some sx /\ q1 = rest ++ [sx] /\
      M1 = dset (SM.matching s) sx None)) /\
  dget (SM.reviewer_prefs s) r = Some rl /\ idx_of x rl = Some j /\
  for_each (skipn (S j) rl) (SM.prune r)
    (SM.State (SM.suitor_prefs s) (SM.reviewer_prefs s) q1 (dset M1 x (Some r))) = (Ok tt, s').
Proof.
  destruct s as [sp rp q m]. simpl. intros Hq.
  destruct q as [|x rest]; [congruence|].
  unfold SM.body. pyrun. pycases; intros H; try discriminate; pyok; subst.
  all: try match goal with
    | H1 : (match find_index ?a ?b ?c with Some _ => _ | None => _ end) = Ok _ |- _ =>
        let Ef := fresh "Ef" in
        destruct (find_index a b c) eqn:Ef; [injection H1 as <-|discriminate]
    end.
  all: do 8 eexists; split; [reflexivity|]; split; [eassumption|];
    split; [first [left; repeat split; first [eassumption|reflexivity]
                  |right; do 2 eexists; repeat split; first [eassumption|reflexivity]]|];
    split; [eassumption|]; split; [eassumption|]; exact H.
Qed.


Lemma dget_dset_eq {V} (d : dict V) k v : dget (dset d k v) k = Some v.
Proof. rewrite dget_dset, String.eqb_refl. reflexivity. Qed.

Lemma dget_dset_ne {V} (d : dict V) k v k' : k' <> k -> dget (dset d k v) k' = dget d k'.
Proof. intros H. rewrite dget_dset. apply eqb_false in H. rewrite H. reflexivity. Qed.

Lemma find_index_some_nth r vs i :
  find_index opt_eqb (Some r) vs = Some i -> nth_error vs i = Some (Some r).
Proof.
  revert i. induction vs as [|v vs IH]; intros i; [discriminate|].
  cbn [find_index]. destruct (opt_eqb (Some r) v) eqn:E.
  - injection 1 as <-. destruct v as [v|]; simpl in E; [|discriminate]. streq. reflexivity.
  - destruct (find_index opt_eqb (Some r) vs) eqn:E'; simpl; [|discriminate].
    injection 1 as <-. simpl. auto.
Qed.

Lemma nth_error_pair {V} (m : dict V) i k v :
  nth_error (map fst m) i = Some k -> nth_error (map snd m) i = Some v -> In (k, v) m.
Proof.
  rewrite !nth_error_map. destruct (nth_error m i) as [[k' v']|] eqn:E; simpl; try discriminate.
  injection 1 as <-. injection 1 as <-. eapply nth_error_In; eauto.
Qed.

Lemma existsb_opt_false (m : dict (option string)) r y :
  existsb (opt_eqb (Some r)) (map snd m) = false -> dget m y <> Some (Some r).
Proof.
  intros H Hy. apply dget_In in Hy.
  assert (existsb (opt_eqb (Some r)) (map snd m) = true); [|congruence].
  apply existsb_exists. exists (Some r). split; [apply in_map_iff; exists (y, Some r); auto|].
  simpl. apply String.eqb_refl.
Qed.

Lemma NoDup_snoc {A} (l : list A) x : NoDup l -> ~ In x l -> NoDup (l ++ [x]).
Proof.
  intros H Hx. apply Permutation_NoDup with (x :: l).
  - apply Permutation_cons_append.
  - constructor; auto.
Qed.

Lemma sm_matched_unique s y y' r :
  sm_inv s -> dget (SM.matching s) y = Some (Some r) -> dget (SM.matching s) y' = Some (Some r) ->
  y = y'.
Proof.
  intros [_ [_ [_ [Hl _]]]] H H'.
  destruct (Hl _ _ H) as [p Hp]. destruct (Hl _ _ H') as [p' Hp'].
  rewrite Hp in Hp'. injection Hp' as E. apply app_inj_tail in E. destruct E; auto.
Qed.

Lemma sm_body_step s s' :
  sm_inv s -> SM.suitors s <> [] -> SM.body s = (Ok tt, s') ->
  exists x rest r tl rl pre succ M1,
  SM.suitors s = x :: rest /\
  dget (SM.suitor_prefs s) x = Some (r :: tl) /\
  dget (SM.matching s) x = Some None /\
  dget (SM.reviewer_prefs s) r = Some rl /\ rl = pre ++ x :: succ /\ NoDup rl /\
  (((forall y, dget (SM.matching s) y <> Some (Some r)) /\
    SM.suitors s' = rest /\ M1 = SM.matching s) \/
   (exists sx, dget (SM.matching s) sx = Some (Some r) /\ sx <> x /\ ~ In sx rest /\
      In sx succ /\ SM.suitors s' = rest ++ [sx] /\ M1 = dset (SM.matching s) sx None)) /\
  SM.matching s' = dset M1 x (Some r) /\
  (forall y, dget (SM.suitor_prefs s') y =
     if mem y succ then option_map (rem r) (dget (SM.suitor_prefs s) y)
     else dget (SM.suitor_prefs s) y) /\
  (forall y, In y succ -> exists l, dget (SM.suitor_prefs s) y = Some l /\ In r l) /\
  sumlen (SM.suitor_prefs s') + length succ = sumlen (SM.suitor_prefs s) /\
  dget (SM.reviewer_prefs s') r = Some (pre ++ [x]) /\
  (forall r', r' <> r -> dget (SM.reviewer_prefs s') r' = dget (SM.reviewer_prefs s) r').
Proof.
  intros Hinv Hne Hb. pose proof Hinv as [Hk [Hnq [Hqm [Hlast Hnr]]]].
  destruct (sm_body_spec s s' Hne Hb)
    as [x [rest [r [tl [rl [j [q1 [M1 [Hq [Hsx [Hcase [Hrl [Hj Hfe]]]]]]]]]]]]].
  assert (Hx : dget (SM.matching s) x = Some None) by (apply Hqm; rewrite Hq; simpl; auto).
  assert (Hnd : NoDup rl) by (eapply Hnr; eauto).
  pose proof (idx_split _ _ _ Hj) as Hsplit.
  set (succ := skipn (S j) rl) in *. set (pre := firstn j rl) in *.
  assert (Hnds : NoDup succ).
  { rewrite Hsplit in Hnd. apply NoDup_app_remove_l in Hnd. apply NoDup_cons_iff in Hnd. tauto. }
  destruct (sm_prune_all r succ _ s' Hnds Hfe) as [Hq' [Hm' [Hsp [Hin [Hlen [Hra Hro]]]]]].
  simpl in *.
  exists x, rest, r, tl, rl, pre, succ, M1.
  repeat split; auto.
  - destruct Hcase as [[Hex [-> ->]]|[i [sx [Hf [Hn [-> ->]]]]]].
    + left. repeat split; auto. intros y. apply existsb_opt_false. exact Hex.
    + right. exists sx.
      assert (Hsxm : dget (SM.matching s) sx = Some (Some r)).
      { apply In_dget; auto. eapply nth_error_pair; eauto. apply find_index_some_nth; auto. }
      assert (Hsxx : sx <> x) by congruence.
      repeat split; auto.
      * intros Hin'. rewrite Hq in Hnq. apply NoDup_cons_iff in Hnq.
        assert (dget (SM.matching s) sx = Some None) by (apply Hqm; rewrite Hq; simpl; auto).
        congruence.
      * destruct (Hlast _ _ Hsxm) as [p Hp]. rewrite Hrl in Hp. injection Hp as Hp.
        eapply last_in_suffix; [|exact Hsxx]. rewrite <- Hsplit. exact Hp.
  - apply Hra; rewrite <- app_assoc; simpl; rewrite <- Hsplit; auto.
Qed.

Lemma sm_body_inv s s' :
  sm_inv s -> SM.suitors s <> [] -> SM.body s = (Ok tt, s') ->
  sm_inv s' /\ sm_measure s' < sm_measure s.
Proof.
  intros Hinv Hne Hb. pose proof Hinv as [Hk [Hnq [Hqm [Hlast Hnr]]]].
  destruct (sm_body_step s s' Hinv Hne Hb)
    as [x [rest [r [tl [rl [pre [succ [M1 [Hq [Hsx [Hx [Hrl [Hsplit [Hnd
        [Hcase [Hm' [Hsp [Hin [Hlen [Hra Hro]]]]]]]]]]]]]]]]]]]].
  rewrite Hq in Hnq. apply NoDup_cons_iff in Hnq. destruct Hnq as [Hxr Hnr'].
  assert (Hkx : In x (map fst (SM.matching s))) by (eapply dget_key; eauto).
  assert (Hnd' : NoDup (pre ++ [x])).
  { rewrite Hsplit in Hnd. replace (pre ++ x :: succ) with ((pre ++ [x]) ++ succ) in Hnd
      by (rewrite <- app_assoc; reflexivity). eapply NoDup_app_remove_r; eauto. }
  assert (Hnr2 : nodup_lists (SM.reviewer_prefs s')).
  { intros k l Hl. destruct (String.eqb k r) eqn:E; streq.
    - rewrite Hra in Hl. injection Hl as <-. exact Hnd'.
    - rewrite Hro in Hl by auto. eapply Hnr; eauto. }
  unfold sm_measure, sm_inv. rewrite Hq, Hm'.
  destruct Hcase as [[Hnone [Hq' ->]]|[sx [Hsxm [Hsxx [Hsxr [Hsxs [Hq' ->]]]]]]];
    rewrite Hq'; simpl.
  - split; [|lia]. repeat split; auto.
    + rewrite keys_dset; auto.
    + intros y Hy. rewrite dget_dset_ne by congruence. apply Hqm. rewrite Hq. simpl; auto.
    + intros y r' Hy. rewrite dget_dset in Hy.
      destruct (String.eqb y x) eqn:E; streq.
      * injection Hy as <-. eauto.
      * assert (r' <> r) by (intros ->; eapply Hnone; eauto).
        rewrite Hro by auto. eauto.
  - assert (Hks : In sx (map fst (SM.matching s))) by (eapply dget_key; eauto).
    assert (length succ > 0) by (destruct succ; simpl in *; [contradiction|lia]).
    split; [|rewrite length_app; simpl; lia]. repeat split; auto.
    + rewrite !keys_dset; auto. rewrite keys_dset; auto.
    + apply NoDup_snoc; auto.
    + intros y Hy. rewrite dget_dset_ne.
      * rewrite dget_dset. destruct (String.eqb y sx) eqn:E; [reflexivity|].
        apply eqb_false in E. apply in_app_or in Hy. destruct Hy as [Hy|[Hy|[]]]; [|congruence].
        apply Hqm. rewrite Hq. simpl; auto.
      * intros ->. apply in_app_or in Hy. destruct Hy as [Hy|[Hy|[]]]; [contradiction|congruence].
    + intros y r' Hy. rewrite dget_dset in Hy.
      destruct (String.eqb y x) eqn:E; streq.
      * injection Hy as <-. eauto.
      * rewrite dget_dset in Hy. destruct (String.eqb y sx) eqn:E2; [discriminate|].
        apply eqb_false in E2.
        assert (r' <> r) by (intros ->; apply E2; eapply sm_matched_unique; eauto).
        rewrite Hro by auto. eauto.
Qed.

Lemma for_each_nf {S A} (xs : list A) (f : A -> PyM S unit) :
  (forall x s, fst (f x s) <> OutOfFuel) -> forall s, fst (for_each xs f s) <> OutOfFuel.
Proof.
  intros Hf. induction xs as [|x xs IH]; intros s; simpl; [discriminate|].
  unfold bind. specialize (Hf x s). destruct (f x s) as [[[]| |] s1] eqn:E; simpl in *; auto; discriminate.
Qed.

Lemma sm_prune_nf r x s : fst (SM.prune r x s) <> OutOfFuel.
Proof. unfold SM.prune. pyrun. pycases; simpl; try discriminate; pynf. Qed.

Lemma sm_body_nf s : fst (SM.body s) <> OutOfFuel.
Proof.
  unfold SM.body. pyrun. destruct (SM.suitors s) as [|x rest]; [discriminate|].
  pycases; simpl; try discriminate; try pynf;
    try (apply for_each_nf; apply sm_prune_nf).
  all: match goal with H : (match ?e with Some _ => _ | None => _ end) = OutOfFuel |- _ =>
         destruct e; discriminate end.
Qed.

Lemma sm_loop_terminates fuel s :
  sm_inv s -> sm_measure s < fuel -> fst (SM.loop fuel s) <> OutOfFuel.
Proof.
  revert s. induction fuel as [|fuel IH]; intros s Hs Hf; [lia|].
  simpl. unfold bind at 1, get. simpl.
  destruct (SM.suitors s) as [|x rest] eqn:Hq; [discriminate|].
  unfold bind. pose proof (sm_body_nf s) as Hnf.
  destruct (SM.body s) as [[[]| |] s1] eqn:Eb; simpl in *; [|discriminate|contradiction].
  destruct (sm_body_inv s s1 Hs ltac:(congruence) Eb) as [Hs1 Hm].
  apply IH; auto. lia.
Qed.

Lemma dget_map_none (ks : list string) y w :
  dget (map (fun s => (s, @None string)) ks) y = Some w -> w = None.
Proof.
  induction ks as [|k ks IH]; simpl; [discriminate|].
  destruct (String.eqb y k); auto. injection 1 as <-. reflexivity.
Qed.

Lemma dget_map_in (ks : list string) y :
  In y ks -> dget (map (fun s => (s, @None string)) ks) y = Some None.
Proof.
  induction ks as [|k ks IH]; simpl; [tauto|].
  intros [<-|H]; [rewrite String.eqb_refl; reflexivity|destruct (String.eqb y k); auto].
Qed.

Lemma sm_inv_initial sp rp :
  NoDup (map fst sp) -> strict_lists rp -> sm_inv (SM.initial sp rp).
Proof.
  intros Hk Hr. unfold SM.initial, sm_inv. simpl. repeat split.
  - rewrite map_map. simpl. rewrite map_id. exact Hk.
  - exact Hk.
  - intros y Hy. apply dget_map_in; auto.
  - intros y r Hy. apply dget_map_none in Hy. discriminate.
  - intros k l Hl. eapply Hr. apply dget_In; eauto.
Qed.

Lemma in_rem_iff y x l : y <> x -> (In y (rem x l) <-> In y l).
Proof. intros H. split; [apply in_rem|apply rem_in; auto]. Qed.

Ltac eqcase a b H :=
  destruct (String.eqb a b) eqn:H; [apply eqb_true in H; subst a | apply eqb_false in H].

Lemma sm_body_sinv P0 Q0 s s' :
  strict_lists P0 -> sm_inv s -> sm_sinv P0 Q0 s -> SM.suitors s <> [] ->
  SM.body s = (Ok tt, s') -> sm_sinv P0 Q0 s'.
Proof.
  intros HP0 Hinv [S1 [[S2a S2b] [S3 [S4 [S5 S6]]]]] Hne Hb.
  assert (S2' : pruned_of P0 (SM.suitor_prefs s') /\ pruned_of Q0 (SM.reviewer_prefs s')).
  { pose proof (sm_body_pruned P0 Q0 s (conj S2a S2b)) as H. rewrite Hb in H. exact H. }
  assert (Hndsp : forall y l, dget (SM.suitor_prefs s) y = Some l -> NoDup l).
  { intros y l Hl. destruct (pruned_of_dget _ _ _ _ S2a Hl) as [l0 [Hl0 Hsub]].
    eapply subseq_nodup; eauto. eapply HP0. apply dget_In; eauto. }
  destruct (sm_body_step s s' Hinv Hne Hb)
    as [x [rest [r [tl [rl [pre [succ [M1 [Hq [Hsx [Hx [Hrl [Hsplit [Hnd
        [Hcase [Hm' [Hsp [Hin [Hlen [Hra Hro]]]]]]]]]]]]]]]]]]]].
  assert (Hxs : ~ In x succ).
  { rewrite Hsplit in Hnd. apply NoDup_app_mid in Hnd. tauto. }
  assert (Hkx : In x (map fst (SM.matching s))) by (eapply dget_key; eauto).
  (* the matching after the step, away from [x] *)
  assert (HM : forall y, y <> x -> dget (SM.matching s') y = dget M1 y)
    by (intros y Hy; rewrite Hm'; apply dget_dset_ne; auto).
  assert (HMx : dget (SM.matching s') x = Some (Some r)) by (rewrite Hm'; apply dget_dset_eq).
  (* who else holds [r] *)
  assert (Hother : forall y r', y <> x -> dget M1 y = Some (Some r') ->
            r' <> r /\ dget (SM.matching s) y = Some (Some r')).
  { intros y r' Hyx Hy. destruct Hcase as [[Hnone [_ ->]]|[sx [Hsxm [_ [_ [_ [_ ->]]]]]]].
    - split; auto. intros ->. eapply Hnone; eauto.
    - rewrite dget_dset in Hy. destruct (String.eqb y sx) eqn:E; [discriminate|].
      apply eqb_false in E. split; auto. intros ->. apply E.
      eapply sm_matched_unique; eauto. }
  unfold sm_sinv. refine (conj _ (conj (conj _ _) (conj _ (conj _ (conj _ _))))).
  - rewrite Hm'. destruct Hcase as [[_ [_ ->]]|[sx [Hsxm [_ [_ [_ [_ ->]]]]]]].
    + rewrite keys_dset; auto.
    + assert (Hks : In sx (map fst (SM.matching s))) by (eapply dget_key; eauto).
      rewrite (keys_dset (dset _ sx None)) by (rewrite keys_dset; auto).
      rewrite keys_dset; auto.
  - exact (proj1 S2').
  - exact (proj2 S2').
  - intros y r' ly' lr' Hy Hr'. rewrite Hsp in Hy.
    destruct (dget (SM.suitor_prefs s) y) as [ly|] eqn:Ely;
      [|destruct (mem y succ); discriminate].
    eqcase r' r Er.
    + rewrite Hra in Hr'. injection Hr' as <-.
      destruct (mem y succ) eqn:Ey; injection Hy as <-.
      * apply mem_In in Ey. split; intros H.
        -- exfalso. eapply rem_gone; [eapply Hndsp; exact Ely|exact H].
        -- exfalso. rewrite Hsplit in Hnd.
           replace (pre ++ x :: succ) with ((pre ++ [x]) ++ succ) in Hnd
             by (rewrite <- app_assoc; reflexivity).
           eapply NoDup_app_disj; eauto.
      * apply mem_false in Ey. rewrite (S3 y r ly rl Ely Hrl). rewrite Hsplit.
        rewrite !in_app_iff. simpl. intuition.
    + rewrite Hro in Hr' by auto. rewrite <- (S3 y r' ly lr' Ely Hr').
      destruct (mem y succ); injection Hy as <-; [apply in_rem_iff; auto|reflexivity].
  - intros r' lr0 Hlr0. destruct (S4 r' lr0 Hlr0) as [lr [Hlr Hc]].
    eqcase r' r Er.
    + rewrite Hlr in Hrl. injection Hrl as <-. exists (pre ++ [x]). split; [exact Hra|].
      right. exists x, pre. destruct Hc as [[-> _]|[y [p [rs [_ [_ ->]]]]]].
      * exists succ. repeat split; auto. rewrite Hsplit, <- app_assoc. reflexivity.
      * exists (succ ++ rs). repeat split; auto. rewrite Hsplit, <- !app_assoc. reflexivity.
    + exists lr. rewrite Hro by auto. split; auto.
      destruct Hc as [[-> Hun]|[y [p [rs [Hy [-> ->]]]]]].
      * left. split; auto. intros y Hy.
        eqcase y x Eyx.
        -- rewrite HMx in Hy. congruence.
        -- rewrite HM in Hy by auto. destruct (Hother y r' Eyx Hy) as [_ Hy'].
           eapply Hun; eauto.
      * right. exists y, p, rs. repeat split; auto.
        assert (Hyx : y <> x) by congruence.
        rewrite HM by auto.
        destruct Hcase as [[_ [_ ->]]|[sx [Hsxm [_ [_ [_ [_ ->]]]]]]]; auto.
        rewrite dget_dset_ne; auto. intros ->. congruence.
  - intros y r' Hy. eqcase y x Eyx.
    + rewrite HMx in Hy. injection Hy as <-. exists tl. rewrite Hsp.
      apply mem_false in Hxs. rewrite Hxs. exact Hsx.
    + rewrite HM in Hy by auto. destruct (Hother y r' Eyx Hy) as [Hne' Hy'].
      destruct (S5 y r' Hy') as [tl' Htl']. rewrite Hsp, Htl'.
      destruct (mem y succ); simpl; eauto.
      apply eqb_false in Hne'. rewrite String.eqb_sym, Hne'. eauto.
  - intros y Hy. eqcase y x Eyx; [congruence|].
    rewrite HM in Hy by auto.
    destruct Hcase as [[_ [Hq' ->]]|[sx [Hsxm [_ [_ [_ [Hq' ->]]]]]]]; rewrite Hq'.
    + specialize (S6 y Hy). rewrite Hq in S6. destruct S6; [congruence|auto].
    + rewrite dget_dset in Hy. eqcase y sx E.
      * apply in_or_app. simpl; auto.
      * specialize (S6 y Hy). rewrite Hq in S6. destruct S6; [congruence|].
        apply in_or_app; auto.
Qed.

Lemma sm_loop_sinv P0 Q0 fuel s s' :
  strict_lists P0 -> sm_inv s -> sm_sinv P0 Q0 s -> SM.loop fuel s = (Ok tt, s') ->
  sm_inv s' /\ sm_sinv P0 Q0 s' /\ SM.suitors s' = [].
Proof.
  intros HP0. revert s. induction fuel as [|fuel IH]; intros s Hi Hs H; simpl in H; [discriminate|].
  unfold bind at 1, get in H. simpl in H.
  destruct (SM.suitors s) as [|x rest] eqn:Hq.
  - injection H as <-. auto.
  - unfold bind in H. destruct (SM.body s) as [[[]| |] s1] eqn:Eb; try discriminate.
    assert (Hne : SM.suitors s <> []) by congruence.
    apply (IH s1); [exact (proj1 (sm_body_inv s s1 Hi Hne Eb))|eapply sm_body_sinv; eauto|exact H].
Qed.

Lemma sm_sinv_initial sp rp : complete_instance sp rp -> sm_sinv sp rp (SM.initial sp rp).
Proof.
  intros [Hks [Hkr [_ [Hcs Hcr]]]]. unfold sm_sinv, SM.initial. simpl.
  refine (conj _ (conj (conj _ _) (conj _ (conj _ (conj _ _))))).
  - rewrite map_map. simpl. apply map_id.
  - apply pruned_of_refl.
  - apply pruned_of_refl.
  - intros y r ly lr Hy Hr.
    apply dget_In in Hy. apply dget_In in Hr.
    destruct (Hcs _ _ Hy) as [_ Hy']. destruct (Hcr _ _ Hr) as [_ Hr'].
    rewrite Hy', Hr'. split; intros _; apply in_map_iff; eexists; split; [|eassumption| |eassumption]; reflexivity.
  - intros r lr0 Hr. exists lr0. split; auto. left. split; auto.
    intros y Hy. apply dget_map_none in Hy. discriminate.
  - intros y r Hy. apply dget_map_none in Hy. discriminate.
  - intros y Hy. apply dget_key in Hy. rewrite map_map in Hy. simpl in Hy. rewrite map_id in Hy. exact Hy.
Qed.

Lemma sm_partner s y r :
  sm_inv s -> dget (SM.matching s) y = Some (Some r) -> partner (SM.matching s) r = Some y.
Proof.
  intros Hi Hy. pose proof Hi as [Hk _]. unfold partner.
  destruct (find (fun kv => opt_eqb (snd kv) (Some r)) (SM.matching s)) as [[k v]|] eqn:E.
  - apply find_some in E. destruct E as [Hin Hv]. simpl in *.
    destruct v as [v|]; [|discriminate]. simpl in Hv. streq.
    simpl. f_equal. eapply sm_matched_unique; eauto. apply In_dget; auto.
  - exfalso. apply dget_In in Hy. pose proof (find_none _ _ E _ Hy) as H. simpl in H.
    rewrite String.eqb_refl in H. discriminate.
Qed.

Lemma sm_all_matched P0 Q0 s y :
  sm_inv s -> sm_sinv P0 Q0 s -> SM.suitors s = [] -> In y (map fst P0) ->
  exists r, dget (SM.matching s) y = Some (Some r).
Proof.
  intros _ [S1 [_ [_ [_ [_ S6]]]]] Hq Hy. rewrite <- S1 in Hy.
  destruct (key_dget _ _ Hy) as [[r|] Hr]; eauto.
  apply S6 in Hr. rewrite Hq in Hr. destruct Hr.
Qed.

Lemma sm_final_stable P0 Q0 s :
  complete_instance P0 Q0 -> sm_inv s -> sm_sinv P0 Q0 s -> SM.suitors s = [] ->
  stable P0 Q0 (SM.matching s).
Proof.
  intros Hc Hi Hs Hq. pose proof Hc as [_ [_ [_ [Hcs Hcr]]]].
  pose proof Hs as [S1 [[S2a S2b] [S3 [S4 [S5 S6]]]]].
  intros s0 r [Hneq [[ls [Hls [Hrls Hpref]]] [lr [Hlr [Hslr Hpart]]]]].
  destruct (sm_all_matched P0 Q0 s s0 Hi Hs Hq) as [r0 Hr0]; [eapply dget_key; eauto|].
  rewrite Hr0 in Hpref.
  assert (Hnls : NoDup ls) by (apply (Hcs s0); apply dget_In; auto).
  assert (Hnlr : NoDup lr) by (apply (Hcr r); apply dget_In; auto).
  destruct (S5 _ _ Hr0) as [tl Htl].
  destruct (pruned_of_dget _ _ _ _ S2a Htl) as [l0 [Hl0 Hsub]].
  rewrite Hls in Hl0. injection Hl0 as <-.
  assert (Hnr : ~ In r (r0 :: tl)).
  { intros [->|Hin]; [apply (prefers_irrefl ls r); exact Hpref|].
    apply in_split in Hin. destruct Hin as [b [c ->]].
    assert (Hb : before ls r0 r) by (eapply before_subseq; [exact Hsub|exists [], b, c; reflexivity]).
    apply (prefers_asym ls r r0); auto. apply before_prefers; auto. }
  destruct (S4 r lr Hlr) as [lrr [Hlrr Hcase]].
  assert (Hns : ~ In s0 lrr) by (rewrite <- (S3 s0 r _ _ Htl Hlrr); exact Hnr).
  destruct Hcase as [[-> _]|[y [pre [rest [Hy [-> ->]]]]]]; [contradiction|].
  rewrite (sm_partner s y r Hi Hy) in Hpart.
  assert (Hin : In s0 rest).
  { apply in_app_or in Hslr. destruct Hslr; [contradiction|auto]. }
  apply in_split in Hin. destruct Hin as [b [c ->]].
  apply (prefers_asym _ s0 y Hpart). apply before_prefers; auto.
  exists pre, b, c. rewrite <- app_assoc. reflexivity.
Qed.

Lemma NoDup_vals (M : dict (option string)) :
  NoDup (map fst M) -> (forall k v, In (k, v) M -> v <> None) ->
  (forall k k' r, In (k, Some r) M -> In (k', Some r) M -> k = k') ->
  NoDup (map snd M).
Proof.
  induction M as [|[k v] M IH]; simpl; intros Hk Hv Hu; constructor.
  - intros Hin. apply in_map_iff in Hin. destruct Hin as [[k' v'] [E Hin]]. simpl in E. subst v'.
    destruct v as [r|]; [|eapply Hv; eauto].
    assert (k = k') by (eapply Hu; eauto). subst k'.
    apply NoDup_cons_iff in Hk. apply (proj1 Hk). apply in_map_iff. exists (k, Some r); auto.
  - apply IH; eauto. apply NoDup_cons_iff in Hk; tauto.
Qed.

Lemma map_some_unwrap (l : list (option string)) :
  (forall v, In v l -> v <> None) -> l = map Some (map unwrap l).
Proof.
  induction l as [|[v|] l IH]; simpl; intros H; auto.
  - f_equal. auto.
  - exfalso. eapply H; eauto.
Qed.

Lemma sm_final_bijection P0 Q0 s :
  complete_instance P0 Q0 -> sm_inv s -> sm_sinv P0 Q0 s -> SM.suitors s = [] ->
  bijection P0 Q0 (SM.matching s).
Proof.
  intros Hc Hi Hs Hq. pose proof Hc as [HkP [HkQ [Hlen [Hcs Hcr]]]].
  pose proof Hs as [S1 [[S2a S2b] [S3 [S4 [S5 S6]]]]]. pose proof Hi as [Hk _].
  assert (Hsome : forall k v, In (k, v) (SM.matching s) -> v <> None).
  { intros k v Hin ->. apply In_dget in Hin; auto. apply S6 in Hin. rewrite Hq in Hin. destruct Hin. }
  assert (Hvs : map snd (SM.matching s) = map Some (map unwrap (map snd (SM.matching s)))).
  { apply map_some_unwrap. intros v Hv. apply in_map_iff in Hv. destruct Hv as [[k v'] [<- Hin]].
    eapply Hsome; eauto. }
  split; auto. exists (map unwrap (map snd (SM.matching s))). split; auto.
  set (vs := map unwrap (map snd (SM.matching s))) in *.
  assert (Hnd : NoDup vs).
  { apply (NoDup_map_inv Some). rewrite <- Hvs. apply NoDup_vals; auto.
    intros k k' r H1 H2. apply In_dget in H1; auto. apply In_dget in H2; auto.
    eapply sm_matched_unique; eauto. }
  assert (Hincl : incl vs (map fst Q0)).
  { intros r Hr. assert (Hr' : In (Some r) (map snd (SM.matching s))) by (rewrite Hvs; apply in_map; auto).
    apply in_map_iff in Hr'. destruct Hr' as [[k v] [E Hin]]. simpl in E. subst v.
    apply In_dget in Hin; auto. destruct (S5 _ _ Hin) as [tl Htl].
    destruct (pruned_of_dget _ _ _ _ S2a Htl) as [l0 [Hl0 Hsub]].
    apply dget_In in Hl0. apply (proj2 (Hcs _ _ Hl0)). eapply subseq_in; eauto. simpl; auto. }
  assert (Hl : length vs = length (map fst Q0)).
  { unfold vs. rewrite !length_map. rewrite <- (length_map fst), S1, !length_map. exact Hlen. }
  apply NoDup_Permutation; auto. intros x. split; [apply Hincl|].
  intros Hx. apply (NoDup_length_incl (l' := map fst Q0) Hnd); [lia|exact Hincl|exact Hx].
Qed.

Lemma complete_side_of_b P Q : complete_side_b P Q = true -> complete_side P Q.
Proof.
  unfold complete_side_b. intros H k l Hin. rewrite forallb_forall in H.
  specialize (H _ Hin). simpl in H. apply andb_true_iff in H as [H H3].
  apply andb_true_iff in H as [H1 H2]. rewrite forallb_forall in H2, H3.
  split; [apply nodupb_NoDup; auto|]. intros x. split; intros Hx.
  - apply mem_In. auto.
  - apply mem_In. auto.
Qed.

Lemma complete_instance_of_b P Q : complete_instance_b P Q = true -> complete_instance P Q.
Proof.
  unfold complete_instance_b. intros H. repeat rewrite andb_true_iff in H.
  destruct H as [[[[H1 H2] H3] H4] H5].
  unfold complete_instance.
  refine (conj (nodupb_NoDup _ H1) (conj (nodupb_NoDup _ H2) (conj _ (conj _ _))));
    auto using complete_side_of_b. apply Nat.eqb_eq; auto.
Qed.

Lemma complete_strict P Q : complete_side P Q -> strict_lists P.
Proof. intros H k l Hin. apply (H k l Hin). Qed.

Lemma sm_run_correct P Q fuel st :
  complete_instance P Q -> SM.loop fuel (SM.initial P Q) = (Ok tt, st) ->
  stable P Q (SM.matching st) /\ bijection P Q (SM.matching st).
Proof.
  intros Hc Hl. pose proof Hc as [HkP [_ [_ [Hcs Hcr]]]].
  destruct (sm_loop_sinv P Q fuel _ st (complete_strict _ _ Hcs)
              (sm_inv_initial P Q HkP (complete_strict _ _ Hcr)) (sm_sinv_initial P Q Hc) Hl)
    as [Hi [Hs Hq]].
  split; [apply sm_final_stable|apply sm_final_bijection]; auto.
Qed.

Lemma complete_instance_sym P Q : complete_instance P Q -> complete_instance Q P.
Proof. intros [H1 [H2 [H3 [H4 H5]]]]. exact (conj H2 (conj H1 (conj (eq_sym H3) (conj H5 H4)))). Qed.

Lemma stable_marriage_correct fuel sp rp optimal M :
  complete_instance sp rp ->
  fst (SM.stable_marriage fuel sp rp optimal) = Ok M ->
  let P := if String.eqb optimal "reviewer" then rp else sp in
  let Q := if String.eqb optimal "reviewer" then sp else rp in
  stable P Q M /\ bijection P Q M.
Proof.
  intros Hc. unfold SM.stable_marriage. cbv zeta.
  assert (Hc' : complete_instance (if String.eqb optimal "reviewer" then rp else sp)
                                  (if String.eqb optimal "reviewer" then sp else rp))
    by (destruct (String.eqb optimal "reviewer"); auto using complete_instance_sym).
  destruct (SM.loop fuel _) as [o st] eqn:E. destruct o as [[]| |]; simpl; try discriminate.
  intros H. injection H as <-. eapply sm_run_correct; eauto.
Qed.

(** C1: for a complete instance (equal-sized sides, every list a
    duplicate-free ranking of the whole other side), a matching returned by
    [stable_marriage], for either value of [optimal], has no blocking pair:
    no two players prefer each other to their partners. *)
Theorem sm_no_blocking_pair fuel suitor_prefs reviewer_prefs optimal M :
  complete_instance suitor_prefs reviewer_prefs ->
  fst (SM.stable_marriage fuel suitor_prefs reviewer_prefs optimal) = Ok M ->
  stable (if String.eqb optimal "reviewer" then reviewer_prefs else suitor_prefs)
         (if String.eqb optimal "reviewer" then suitor_prefs else reviewer_prefs) M.
Proof. intros Hc H. exact (proj1 (stable_marriage_correct _ _ _ _ _ Hc H)). Qed.

(** The instance of the specification, solved suitor-optimally. *)
Lemma sm_no_blocking_pair_witness :
  complete_instance ex_sp ex_rp /\
  fst (SM.stable_marriage 20 ex_sp ex_rp "suitor") = Ok [("A", Some "F"); ("B", Some "D"); ("C", Some "E")] /\
  stable ex_sp ex_rp [("A", Some "F"); ("B", Some "D"); ("C", Some "E")].
Proof.
  assert (H1 : complete_instance ex_sp ex_rp) by (apply complete_instance_of_b; vm_compute; reflexivity).
  assert (H2 : fst (SM.stable_marriage 20 ex_sp ex_rp "suitor") = Ok [("A", Some "F"); ("B", Some "D"); ("C", Some "E")])
    by (vm_compute; reflexivity).
  split; [exact H1|]. split; [exact H2|].
  exact (sm_no_blocking_pair 20 ex_sp ex_rp "suitor" _ H1 H2).
Defined.

(** C9: for a complete instance, a matching returned by
    [stable_marriage] is a bijection between the two sides: its keys are the
    proposing side, in order, and its values are every player of the other
    side exactly once, with no [None] left. *)
Theorem sm_bijection fuel suitor_prefs reviewer_prefs optimal M :
  complete_instance suitor_prefs reviewer_prefs ->
  fst (SM.stable_marriage fuel suitor_prefs reviewer_prefs optimal) = Ok M ->
  bijection (if String.eqb optimal "reviewer" then reviewer_prefs else suitor_prefs)
            (if String.eqb optimal "reviewer" then suitor_prefs else reviewer_prefs) M.
Proof. intros Hc H. exact (proj2 (stable_marriage_correct _ _ _ _ _ Hc H)). Qed.

(** The same instance, solved reviewer-optimally. *)
Lemma sm_bijection_witness :
  complete_instance ex_sp ex_rp /\
  fst (SM.stable_marriage 20 ex_sp ex_rp "reviewer") = Ok [("D", Some "B"); ("E", Some "C"); ("F", Some "A")] /\
  bijection ex_rp ex_sp [("D", Some "B"); ("E", Some "C"); ("F", Some "A")].
Proof.
  assert (H1 : complete_instance ex_sp ex_rp) by (apply complete_instance_of_b; vm_compute; reflexivity).
  assert (H2 : fst (SM.stable_marriage 20 ex_sp ex_rp "reviewer") = Ok [("D", Some "B"); ("E", Some "C"); ("F", Some "A")])
    by (vm_compute; reflexivity).
  split; [exact H1|]. split; [exact H2|].
  exact (sm_bijection 20 ex_sp ex_rp "reviewer" _ H1 H2).
Defined.

Lemma stable_marriage_terminates fuel sp rp optimal :
  NoDup (map fst sp) -> NoDup (map fst rp) -> strict_lists sp -> strict_lists rp ->
  length sp + sumlen sp + length rp + sumlen rp < fuel ->
  fst (SM.stable_marriage fuel sp rp optimal) <> OutOfFuel.
Proof.
  intros H1 H2 H3 H4 Hf. unfold SM.stable_marriage. cbv zeta.
  pose proof (sm_loop_terminates fuel (SM.initial (if String.eqb optimal "reviewer" then rp else sp)
                                        (if String.eqb optimal "reviewer" then sp else rp))) as T.
  destruct (SM.loop fuel _) as [[[]| |] st] eqn:E; simpl; try discriminate.
  intros _. simpl in T. apply T; [| |reflexivity]; [destruct (String.eqb optimal "reviewer"); apply sm_inv_initial; auto|].
  unfold sm_measure, SM.initial. simpl. rewrite !length_map.
  destruct (String.eqb optimal "reviewer"); lia.
Qed.

(* ------------------------------------------------------------------ *)
(** ** Hospital-resident: termination of both loops *)

Lemma matched_In m x : matched m x = true <-> exists k l, In (k, l) m /\ In x l.
Proof.
  unfold matched. rewrite existsb_exists. split.
  - intros [l [Hl Hx]]. apply in_map_iff in Hl. destruct Hl as [[k l'] [E Hin]]. simpl in E. subst l'.
    apply mem_In in Hx. eauto.
  - intros [k [l [Hin Hx]]]. exists l. split; [apply in_map_iff; exists (k, l); auto|apply mem_In; auto].
Qed.

Lemma matched_unassign x r m : x <> r -> matched m x = true -> matched (HR.unassign r m) x = true.
Proof.
  intros Hne H. apply matched_In in H. destruct H as [k [l [Hin Hx]]]. apply matched_In.
  exists k, (if mem r l then rem r l else l). split.
  - unfold HR.unassign. apply in_map_iff. exists (k, l). split; [simpl; destruct (mem r l); reflexivity|exact Hin].
  - destruct (mem r l); auto. apply rem_in; auto.
Qed.

Lemma matched_dset_grow x m k l l' :
  dget m k = Some l -> incl l l' -> matched m x = true -> matched (dset m k l') x = true.
Proof.
  unfold matched. induction m as [|[k0 v0] m IH]; simpl; [discriminate|].
  destruct (String.eqb k k0) eqn:E; simpl.
  - injection 1 as <-. intros Hinc. rewrite !orb_true_iff. intros [H|H]; [left|right; exact H].
    apply mem_In. apply Hinc. apply mem_In. exact H.
  - intros Hg Hinc. rewrite !orb_true_iff. intros [H|H]; [left; exact H|right; eauto].
Qed.

Lemma matched_dset_in x m k l' : In k (map fst m) -> In x l' -> matched (dset m k l') x = true.
Proof.
  intros Hk Hx. destruct (key_dget _ _ Hk) as [l Hl]. apply matched_In.
  exists k, l'. split; [apply dget_In; rewrite dget_dset, String.eqb_refl; reflexivity|exact Hx].
Qed.

Lemma filter_length_mono {A} (f g : A -> bool) l :
  (forall y, In y l -> g y = true -> f y = true) -> length (filter g l) <= length (filter f l).
Proof.
  induction l as [|a l IH]; simpl; [lia|]. intros Hfg.
  assert (IH' := IH (fun y Hy => Hfg y (or_intror Hy))).
  destruct (g a) eqn:Eg; [rewrite (Hfg a (or_introl eq_refl) Eg)|destruct (f a)]; simpl; lia.
Qed.

Lemma filter_length_lt {A} (f g : A -> bool) l x :
  (forall y, In y l -> g y = true -> f y = true) -> In x l -> f x = true -> g x = false ->
  length (filter g l) < length (filter f l).
Proof.
  induction l as [|a l IH]; simpl; [contradiction|]. intros Hfg [<-|Hx] Hf Hg.
  - rewrite Hf, Hg. simpl. apply le_n_S. apply filter_length_mono.
    intros y Hy. apply Hfg. right. exact Hy.
  - assert (IH' := IH (fun y Hy => Hfg y (or_intror Hy)) Hx Hf Hg).
    destruct (g a) eqn:Eg; [rewrite (Hfg a (or_introl eq_refl) Eg)|destruct (f a)]; simpl; lia.
Qed.

Lemma prune_hospital_len r xs s s' :
  for_each xs (HR.prune_hospital r) s = (Ok tt, s') ->
  sumlen (HR.hospital_prefs s') + length xs = sumlen (HR.hospital_prefs s) /\
  map fst (HR.resident_prefs s') = map fst (HR.resident_prefs s) /\
  HR.matching s' = HR.matching s.
Proof.
  revert s. induction xs as [|x xs IH]; intros s H; simpl in H.
  - injection H as <-. simpl. split; [lia|auto].
  - unfold bind in H. destruct (HR.prune_hospital r x s) as [[[]| |] s1] eqn:Ep; try discriminate.
    apply prune_hospital_spec in Ep. destruct Ep as [hl [rl [Hhl [Hr [Hrl [Hx ->]]]]]].
    destruct (IH _ H) as [H1 [H2 H3]]. simpl in *.
    rewrite keys_dset in H2 by (eapply dget_key; eauto).
    pose proof (sumlen_dset_rem _ _ _ _ Hhl Hr). simpl. split; [lia|split; congruence].
Qed.

Lemma n_unmatched_le rp m : n_unmatched rp m <= length (map fst rp).
Proof. unfold n_unmatched. apply filter_length_le. Qed.

Lemma keys_unassign r m : map fst (HR.unassign r m) = map fst m.
Proof.
  induction m as [|[k l] m IH]; simpl; auto. destruct (mem r l); simpl; congruence.
Qed.

Lemma ho_body_measure h s s' :
  ho_inv s -> NoDup (map fst (HR.matching s)) -> HR.ho_body h s = (Ok tt, s') ->
  NoDup (map fst (HR.matching s')) /\
  map fst (HR.resident_prefs s') = map fst (HR.resident_prefs s) /\
  hr_measure (length (HR.resident_prefs s)) s' < hr_measure (length (HR.resident_prefs s)) s.
Proof.
  intros [Hnh [Hnr [Hpre Hlast]]] HnM H. unfold HR.ho_body in H. pyrun.
  revert H. pycases; intros H; try discriminate; pyok.
  rename a into hl, a0 into ml, a1 into r, a2 into ml1, a3 into rl, a4 into idx.
  replace (match rl with [] => [] | _ :: l => skipn idx l end) with (skipn (S idx) rl) in H
    by (destruct rl; reflexivity).
  assert (Hkeys : map fst (HR.matching s') = map fst (HR.matching s)).
  { destruct (prune_hospital_len _ _ _ _ H) as [_ [_ ->]]. simpl.
    rewrite keys_dset; [apply keys_unassign|]. eapply dget_key; exact E2. }
  rewrite Hkeys. split; [exact HnM|].
  assert (Hr : In r (filter (fun r => negb (mem r ml)) hl)) by (rewrite E1; left; reflexivity).
  apply filter_In in Hr. destruct Hr as [_ Hrml]. apply negb_true_iff, mem_false in Hrml.
  rewrite dget_unassign, E0 in E2. simpl in E2. apply mem_false in Hrml as Hm.
  rewrite Hm in E2. injection E2 as <-.
  destruct (prune_hospital_len _ _ _ _ H) as [Hs [Hk HM]]. cbn [HR.set_matching HR.hospital_prefs HR.resident_prefs HR.matching] in Hs, Hk, HM.
  assert (Hn : forall m, n_unmatched (HR.resident_prefs s') m = n_unmatched (HR.resident_prefs s) m)
    by (intros; unfold n_unmatched; rewrite Hk; reflexivity).
  unfold hr_measure. rewrite HM, Hn. rewrite <- (length_map fst (HR.resident_prefs s)).
  split; [exact Hk|].
  pose proof (n_unmatched_le (HR.resident_prefs s) (HR.matching s')) as Hle.
  rewrite HM in Hle.
  remember (length (map fst (HR.resident_prefs s))) as K.
  destruct (matched (HR.matching s) r) eqn:Emr.
  - apply matched_In in Emr. destruct Emr as [k [l [Hkl Hrl]]].
    apply In_dget in Hkl; [|exact HnM].
    destruct (Hlast k l r Hkl Hrl) as [pre Hp]. rewrite E3 in Hp. injection Hp as Hp.
    assert (Hkh : k <> h) by (intros ->; rewrite E0 in Hkl; injection Hkl as ->; contradiction).
    pose proof (idx_split _ _ _ E4) as Hsplit. rewrite Hsplit in Hp.
    pose proof (last_in_suffix _ _ _ _ _ Hp Hkh) as Hsucc.
    destruct (skipn (S idx) rl) as [|z zs]; [contradiction|]. simpl in Hs.
    assert (Hlt : sumlen (HR.hospital_prefs s') * S K + S K <= sumlen (HR.hospital_prefs s) * S K).
    { rewrite <- Nat.mul_succ_l. apply Nat.mul_le_mono_r. lia. }
    lia.
  - assert (Hlt : n_unmatched (HR.resident_prefs s) (HR.matching s') <
                  n_unmatched (HR.resident_prefs s) (HR.matching s)).
    { unfold n_unmatched. apply (filter_length_lt _ _ _ r).
      - intros y _ Hy. apply negb_true_iff in Hy. apply negb_true_iff.
        destruct (matched (HR.matching s) y) eqn:Ey; [|reflexivity]. rewrite HM in Hy. rewrite <- Hy. symmetry.
        apply (matched_dset_grow _ _ _ ml); [rewrite dget_unassign, E0; simpl; rewrite Hm; reflexivity
          |intros z Hz; apply in_or_app; auto|].
        apply matched_unassign; auto. intros ->. rewrite Emr in Ey. discriminate.
      - eapply dget_key; eauto.
      - rewrite Emr. reflexivity.
      - rewrite HM. apply negb_false_iff. apply matched_dset_in.
        + eapply dget_key. rewrite dget_unassign, E0. reflexivity.
        + apply in_or_app. right. left. reflexivity. }
    rewrite HM in Hlt.
    assert (sumlen (HR.hospital_prefs s') * S K <= sumlen (HR.hospital_prefs s) * S K)
      by (apply Nat.mul_le_mono_r; lia).
    lia.
Qed.

Lemma prune_hospital_nf r x s : fst (HR.prune_hospital r x s) <> OutOfFuel.
Proof. unfold HR.prune_hospital. pyrun. pycases; simpl; try discriminate; pynf. Qed.

Lemma ho_body_nf h s : fst (HR.ho_body h s) <> OutOfFuel.
Proof.
  unfold HR.ho_body. pyrun. pycases; simpl; try discriminate; try pynf;
    apply for_each_nf; apply prune_hospital_nf.
Qed.

Lemma free_hospitals_aux_nf hs hp caps m : HR.free_hospitals_aux hs hp caps m <> OutOfFuel.
Proof.
  induction hs as [|h hs IH]; simpl; [discriminate|].
  destruct (getitem m h) eqn:E1; [|discriminate|pynf].
  destruct (getitem caps h) eqn:E2; [|discriminate|pynf].
  destruct (HR.free_hospitals_aux hs hp caps m); congruence.
Qed.

Lemma ho_loop_terminates caps fuel s :
  ho_inv s -> NoDup (map fst (HR.matching s)) ->
  hr_measure (length (HR.resident_prefs s)) s < fuel -> fst (HR.ho_loop caps fuel s) <> OutOfFuel.
Proof.
  revert s. induction fuel as [|fuel IH]; intros s Hs Hn Hf; [lia|].
  simpl. unfold bind at 1, get. simpl. unfold bind at 1, lift.
  pose proof (free_hospitals_aux_nf (map fst (HR.hospital_prefs s)) (HR.hospital_prefs s) caps (HR.matching s)).
  unfold HR.free_hospitals. destruct (HR.free_hospitals_aux _ _ _ _) as [[|h fh]| |]; simpl;
    try discriminate; [|contradiction].
  unfold bind. pose proof (ho_body_nf h s) as Hnf.
  destruct (HR.ho_body h s) as [[[]| |] s1] eqn:Eb; simpl in *; [|discriminate|contradiction].
  destruct (ho_body_measure h s s1 Hs Hn Eb) as [Hn1 [Hk Hm]].
  apply IH; auto; [eapply ho_body_inv; eauto|].
  rewrite <- (length_map fst (HR.resident_prefs s1)), Hk, length_map. lia.
Qed.

Lemma empty_matching_keys hp : map fst (HR.empty_matching hp) = map fst hp.
Proof. unfold HR.empty_matching. rewrite map_map. simpl. apply map_id. Qed.

Lemma n_unmatched_empty rp hp : n_unmatched rp (HR.empty_matching hp) = length rp.
Proof.
  unfold n_unmatched. rewrite <- (length_map fst rp). f_equal. apply forallb_filter_id.
  apply forallb_forall. intros x _. apply negb_true_iff. unfold matched, HR.empty_matching.
  rewrite !map_map. simpl. induction hp; simpl; auto.
Qed.

Lemma hr_hospital_optimal_terminates caps fuel hp rp m :
  NoDup (map fst hp) -> strict_lists hp -> strict_lists rp ->
  sumlen hp * S (length rp) + length rp < fuel ->
  fst (HR.hr_hospital_optimal caps fuel (HR.State hp rp m)) <> OutOfFuel.
Proof.
  intros Hk Hh Hr Hf. unfold HR.hr_hospital_optimal, bind at 1, modify. simpl.
  unfold bind at 1.
  pose proof (ho_loop_terminates caps fuel (HR.State hp rp (HR.empty_matching hp))) as T.
  destruct (HR.ho_loop caps fuel _) as [[[]| |] s1]; simpl in *; try discriminate.
  exfalso. apply T; simpl; [| | |reflexivity].
  - apply ho_inv_init; apply strict_nodup_lists; auto.
  - rewrite empty_matching_keys. exact Hk.
  - unfold hr_measure. simpl. rewrite n_unmatched_empty. exact Hf.
Qed.

Lemma prune_resident_len h xs s s' :
  for_each xs (HR.prune_resident h) s = (Ok tt, s') ->
  sumlen (HR.hospital_prefs s') + length xs = sumlen (HR.hospital_prefs s) /\
  map fst (HR.resident_prefs s') = map fst (HR.resident_prefs s) /\
  HR.matching s' = HR.matching s.
Proof.
  revert s. induction xs as [|x xs IH]; intros s H; simpl in H.
  - injection H as <-. simpl. split; [lia|auto].
  - unfold bind in H. destruct (HR.prune_resident h x s) as [[[]| |] s1] eqn:Ep; try discriminate.
    destruct (IH _ H) as [H1 [H2 H3]]. rewrite H2, H3. clear H IH H2 H3.
    unfold HR.prune_resident in Ep. pyrun. revert Ep. pycases; intros Ep; try discriminate; pyok;
      injection Ep as <-; simpl in *.
    all: match goal with H : dget (HR.hospital_prefs _) _ = Some ?l, H' : In _ ?l |- _ =>
           pose proof (sumlen_dset_rem _ _ _ _ H H') end;
      try (rewrite keys_dset by (eapply dget_key; eauto)); split; [lia|auto].
Qed.

Lemma fold_max_ge (l : list nat) i : i <= fold_left Nat.max l i /\ forall j, In j l -> j <= fold_left Nat.max l i.
Proof.
  revert i. induction l as [|a l IH]; intros i; simpl; [split; [lia|tauto]|].
  destruct (IH (Nat.max i a)) as [H1 H2]. split; [lia|]. intros j [<-|Hj]; [lia|auto].
Qed.

Lemma fold_max_in (l : list nat) i : In (fold_left Nat.max l i) (i :: l).
Proof.
  revert i. induction l as [|a l IH]; intros i; simpl; [auto|].
  destruct (IH (Nat.max i a)) as [E|E]; [|auto].
  destruct (Nat.max_spec i a) as [[_ Ha]|[_ Ha]]; rewrite <- E, Ha; auto.
Qed.

Lemma get_worst_idx_spec h hp m w :
  HR.get_worst_idx h hp m = Ok w ->
  exists hl ml, dget hp h = Some hl /\ dget m h = Some ml /\
    (exists y, In y ml /\ idx_of y hl = Some w) /\
    (forall y i, In y ml -> idx_of y hl = Some i -> i <= w).
Proof.
  unfold HR.get_worst_idx. destruct (getitem hp h) as [[|x l]| |] eqn:E; try discriminate.
  destruct (getitem m h) as [ml| |] eqn:E'; try discriminate. pyok.
  set (f := fun resident => match idx_of resident (x :: l) with Some i => i | None => 0 end).
  destruct (filter (fun resident => mem resident ml) (x :: l)) as [|a rs] eqn:Ef; [discriminate|].
  simpl. injection 1 as <-. exists (x :: l), ml. split; [auto|split; [auto|split]].
  - destruct (fold_max_in (map f rs) (f a)) as [Hw|Hw].
    + assert (Ha : In a (filter (fun resident => mem resident ml) (x :: l))) by (rewrite Ef; left; auto).
      apply filter_In in Ha. destruct Ha as [Ha Hm]. apply mem_In in Hm.
      exists a. split; auto. apply idx_of_In in Ha. destruct Ha as [i Hi].
      rewrite <- Hw. unfold f. rewrite Hi. reflexivity.
    + apply in_map_iff in Hw. destruct Hw as [b [Hb Hin]].
      assert (Hb' : In b (filter (fun resident => mem resident ml) (x :: l))) by (rewrite Ef; right; auto).
      apply filter_In in Hb'. destruct Hb' as [Hb' Hm]. apply mem_In in Hm.
      exists b. split; auto. apply idx_of_In in Hb'. destruct Hb' as [i Hi].
      rewrite <- Hb. unfold f. rewrite Hi. reflexivity.
  - intros y i Hy Hi. destruct (fold_max_ge (map f rs) (f a)) as [H1 H2].
    assert (Hy' : In y (filter (fun resident => mem resident ml) (x :: l))).
    { apply filter_In. split; [apply idx_of_In; eauto|apply mem_In; auto]. }
    rewrite Ef in Hy'. destruct Hy' as [<-|Hy'].
    + replace i with (f a) by (unfold f; rewrite Hi; reflexivity). exact H1.
    + specialize (H2 (f y) (in_map f _ _ Hy')). replace i with (f y) by (unfold f; rewrite Hi; reflexivity). exact H2.
Qed.

Lemma ro_evict_spec caps h s s' :
  HR.ro_evict caps h s = (Ok tt, s') ->
  exists ml c, dget (HR.matching s) h = Some ml /\ dget caps h = Some c /\
    ((Z.ltb c (Z.of_nat (length ml)) = false /\ s' = s) \/
     (Z.ltb c (Z.of_nat (length ml)) = true /\
      exists w hl res, HR.get_worst_idx h (HR.hospital_prefs s) (HR.matching s) = Ok w /\
        dget (HR.hospital_prefs s) h = Some hl /\ nth_error hl w = Some res /\ In res ml /\
        s' = HR.set_matching (dset (HR.matching s) h (rem res ml)) s)).
Proof.
  unfold HR.ro_evict. pyrun.
  destruct (getitem (HR.matching s) h) as [ml| |] eqn:E1; try discriminate.
  destruct (getitem caps h) as [c| |] eqn:E2; try discriminate. pyok.
  intros H. exists ml, c. split; [auto|split; [auto|]]. revert H.
  destruct (c <? Z.of_nat (length ml))%Z eqn:B; [|intros H; injection H as <-; left; auto].
  destruct (HR.get_worst_idx h (HR.hospital_prefs s) (HR.matching s)) as [w| |] eqn:E3; try discriminate.
  destruct (getitem (HR.hospital_prefs s) h) as [hl| |] eqn:E4; try discriminate.
  destruct (list_nth hl w) as [res| |] eqn:E5; try discriminate.
  destruct (list_remove res ml) as [ml'| |] eqn:E6; try discriminate.
  pyok. intros H. injection H as <-. right. split; [reflexivity|]. exists w, hl, res. auto.
Qed.

Lemma ro_prune_spec caps h s s' :
  HR.ro_prune caps h s = (Ok tt, s') ->
  exists ml c, dget (HR.matching s) h = Some ml /\ dget caps h = Some c /\
    ((Z.eqb (Z.of_nat (length ml)) c = false /\ s' = s) \/
     exists w hl, HR.get_worst_idx h (HR.hospital_prefs s) (HR.matching s) = Ok w /\
        dget (HR.hospital_prefs s) h = Some hl /\
        for_each (skipn (S w) hl) (HR.prune_resident h) s = (Ok tt, s')).
Proof.
  unfold HR.ro_prune. pyrun.
  destruct (getitem (HR.matching s) h) as [ml| |] eqn:E1; try discriminate.
  destruct (getitem caps h) as [c| |] eqn:E2; try discriminate. pyok.
  intros H. exists ml, c. split; [auto|split; [auto|]]. revert H.
  destruct (Z.of_nat (length ml) =? c)%Z eqn:B; [|intros H; injection H as <-; left; auto].
  destruct (HR.get_worst_idx h (HR.hospital_prefs s) (HR.matching s)) as [w| |] eqn:E3; try discriminate.
  destruct (getitem (HR.hospital_prefs s) h) as [hl| |] eqn:E4; try discriminate.
  pyok. intros H. right. exists w, hl. split; [auto|split; [auto|]].
  destruct hl; simpl in *; auto.
Qed.

Lemma ro_body_measure caps r s s' :
  within_capacity caps (HR.matching s) ->
  (forall h ml, dget (HR.matching s) h = Some ml -> NoDup ml) ->
  matched (HR.matching s) r = false -> In r (map fst (HR.resident_prefs s)) ->
  HR.ro_body caps r s = (Ok tt, s') ->
  (forall h ml, dget (HR.matching s') h = Some ml -> NoDup ml) /\
  map fst (HR.resident_prefs s') = map fst (HR.resident_prefs s) /\
  hr_measure (length (HR.resident_prefs s)) s' < hr_measure (length (HR.resident_prefs s)) s.
Proof.
  intros Hc Hnd Hr Hk H. unfold HR.ro_body, bind in H.
  pose proof (ro_append_spec r s) as Ha.
  destruct (HR.ro_append r s) as [[h| |] s1]; [|discriminate|contradiction].
  destruct Ha as [ml [Hml ->]].
  assert (Hrml : ~ In r ml).
  { intros Hin. assert (Hm : matched (HR.matching s) r = true)
      by (apply matched_In; exists h, ml; split; [apply dget_In; exact Hml|exact Hin]).
    congruence. }
  assert (Hnd1 : NoDup (ml ++ [r])).
  { apply NoDup_app; [eauto|constructor; [intros []|constructor]|].
    intros a Ha [<-|[]]. contradiction. }
  destruct (HR.ro_evict caps h _) as [[[]| |] s2] eqn:Ee; try discriminate.
  apply ro_evict_spec in Ee. destruct Ee as [ml1 [c [Hml1 [Hc1 Hev]]]].
  cbn [HR.set_matching HR.matching] in Hml1. rewrite dget_dset, String.eqb_refl in Hml1.
  injection Hml1 as <-.
  apply ro_prune_spec in H. destruct H as [ml2 [c2 [Hml2 [Hc2 Hpr]]]].
  rewrite Hc1 in Hc2. injection Hc2 as <-.
  assert (Hp : sumlen (HR.hospital_prefs s') <= sumlen (HR.hospital_prefs s2) /\
               map fst (HR.resident_prefs s') = map fst (HR.resident_prefs s2) /\
               HR.matching s' = HR.matching s2).
  { destruct Hpr as [[_ ->]|[w2 [hl2 [_ [_ Hf]]]]]; [auto|].
    destruct (prune_resident_len _ _ _ _ Hf) as [H1 [H2 H3]]. split; [lia|auto]. }
  destruct Hp as [Hsum [Hkeys HM]].
  remember (length (HR.resident_prefs s)) as K eqn:HK.
  assert (Hn : forall s0, map fst (HR.resident_prefs s0) = map fst (HR.resident_prefs s) ->
            n_unmatched (HR.resident_prefs s0) (HR.matching s0) <= K).
  { intros s0 E. pose proof (n_unmatched_le (HR.resident_prefs s0) (HR.matching s0)).
    rewrite E, length_map in H. lia. }
  destruct Hev as [[B ->]|[B [w [hl [res [Hw [Hhl [Hnth [Hres ->]]]]]]]]];
    cbn [HR.set_matching HR.matching HR.hospital_prefs HR.resident_prefs] in *.
  - (* no eviction: [resident] is newly matched *)
    split; [|split; [exact Hkeys|]].
    + intros h' l Hl. rewrite HM, dget_dset in Hl.
      destruct (String.eqb h' h); [injection Hl as <-; exact Hnd1|eauto].
    + unfold hr_measure. rewrite HM.
      assert (Hlt : n_unmatched (HR.resident_prefs s') (dset (HR.matching s) h (ml ++ [r])) <
                    n_unmatched (HR.resident_prefs s) (HR.matching s)).
      { unfold n_unmatched. rewrite Hkeys. apply (filter_length_lt _ _ _ r).
        - intros y _ Hy. apply negb_true_iff in Hy. apply negb_true_iff.
          destruct (matched (HR.matching s) y) eqn:Ey; [|reflexivity]. rewrite <- Hy. symmetry.
          apply (matched_dset_grow _ _ _ ml); [exact Hml|intros z Hz; apply in_or_app; auto|exact Ey].
        - exact Hk.
        - rewrite Hr. reflexivity.
        - apply negb_false_iff. apply matched_dset_in.
          + eapply dget_key. exact Hml.
          + apply in_or_app. right. left. reflexivity. }
      assert (sumlen (HR.hospital_prefs s') * S K <= sumlen (HR.hospital_prefs s) * S K)
        by (apply Nat.mul_le_mono_r; lia).
      lia.
  - (* eviction: the evicted resident is pruned from the hospital's list *)
    rewrite !dget_dset, String.eqb_refl in Hml2. injection Hml2 as <-.
    assert (Hcap : (Z.of_nat (length ml) <= c)%Z) by (eapply Hc; eauto).
    pose proof (rem_length _ _ Hres) as Hlen. rewrite length_app in Hlen. simpl in Hlen.
    apply Z.ltb_lt in B. rewrite length_app in B. simpl in B.
    destruct Hpr as [[B2 _]|[w2 [hl2 [Hw2 [Hhl2 Hf]]]]].
    { apply Z.eqb_neq in B2. lia. }
    rewrite Hhl in Hhl2. injection Hhl2 as <-.
    destruct (prune_resident_len _ _ _ _ Hf) as [H1 _]. cbn [HR.hospital_prefs] in H1.
    apply get_worst_idx_spec in Hw. destruct Hw as [hl0 [ml0 [Hhl0 [Hml0 [_ Hmax]]]]].
    rewrite Hhl in Hhl0. injection Hhl0 as <-.
    rewrite dget_dset, String.eqb_refl in Hml0. injection Hml0 as <-.
    apply get_worst_idx_spec in Hw2. destruct Hw2 as [hl0 [ml0 [Hhl0 [Hml0 [[y [Hy Hiy]] _]]]]].
    rewrite Hhl in Hhl0. injection Hhl0 as <-.
    rewrite !dget_dset, String.eqb_refl in Hml0. injection Hml0 as <-.
    assert (Hyr : y <> res) by (intros ->; exact (rem_gone _ _ Hnd1 Hy)).
    assert (Hle : w2 <= w) by (eapply Hmax; [eapply in_rem; exact Hy|exact Hiy]).
    assert (Hne : w2 <> w).
    { intros ->. apply idx_of_nth in Hiy. rewrite Hnth in Hiy. injection Hiy as ->. contradiction. }
    assert (Hsucc : nth_error (skipn (S w2) hl) (w - S w2) = Some res)
      by (rewrite nth_error_skipn; replace (S w2 + (w - S w2)) with w by lia; exact Hnth).
    destruct (skipn (S w2) hl) as [|z zs]; [destruct (w - S w2); discriminate|].
    simpl in H1.
    split; [|split; [exact Hkeys|]].
    + intros h' l Hl. rewrite HM, !dget_dset in Hl.
      destruct (String.eqb h' h); [injection Hl as <-; apply rem_nodup; exact Hnd1|eauto].
    + unfold hr_measure. specialize (Hn s' Hkeys).
      assert (sumlen (HR.hospital_prefs s') * S K + S K <= sumlen (HR.hospital_prefs s) * S K)
        by (rewrite <- Nat.mul_succ_l; apply Nat.mul_le_mono_r; lia).
      lia.
Qed.

Lemma prune_resident_nf h x s : fst (HR.prune_resident h x s) <> OutOfFuel.
Proof. unfold HR.prune_resident. pyrun. pycases; simpl; try discriminate; pynf. Qed.

Lemma ro_body_nf caps r s : fst (HR.ro_body caps r s) <> OutOfFuel.
Proof.
  unfold HR.ro_body, HR.ro_append, HR.ro_evict, HR.ro_prune. pyrun.
  pycases; simpl; try discriminate; try pynf; apply for_each_nf; apply prune_resident_nf.
Qed.

Lemma free_residents_in rp m r rs :
  HR.free_residents rp m = r :: rs -> In r (map fst rp) /\ matched m r = false.
Proof.
  intros E. assert (H : In r (HR.free_residents rp m)) by (rewrite E; left; reflexivity).
  unfold HR.free_residents in H. apply filter_In in H. destruct H as [H1 H2].
  apply andb_true_iff in H2. destruct H2 as [_ H2]. apply negb_true_iff in H2. auto.
Qed.

Lemma ro_loop_terminates caps fuel s :
  within_capacity caps (HR.matching s) ->
  (forall h ml, dget (HR.matching s) h = Some ml -> NoDup ml) ->
  hr_measure (length (HR.resident_prefs s)) s < fuel -> fst (HR.ro_loop caps fuel s) <> OutOfFuel.
Proof.
  revert s. induction fuel as [|fuel IH]; intros s Hc Hn Hf; [lia|].
  simpl. unfold bind at 1, get. simpl.
  destruct (HR.free_residents (HR.resident_prefs s) (HR.matching s)) as [|r rs] eqn:Ef; [discriminate|].
  apply free_residents_in in Ef. destruct Ef as [Hk Hr].
  unfold bind. pose proof (ro_body_nf caps r s) as Hnf.
  destruct (HR.ro_body caps r s) as [[[]| |] s1] eqn:Eb; simpl in *; [|discriminate|contradiction].
  destruct (ro_body_measure caps r s s1 Hc Hn Hr Hk Eb) as [Hn1 [Hk1 Hm]].
  apply IH; auto.
  - eapply ro_body_capacity; [exact Hc|exact Eb|intros e; discriminate].
  - rewrite <- (length_map fst (HR.resident_prefs s1)), Hk1, length_map. lia.
Qed.

Lemma keys_of_nf hl ms : HR.keys_of hl ms <> OutOfFuel.
Proof.
  induction ms as [|r ms IH]; simpl; [discriminate|].
  destruct (list_index r hl) eqn:E; [|discriminate|pynf].
  destruct (HR.keys_of hl ms); congruence.
Qed.

Lemma sort_matches_nf s : fst (HR.sort_matches s) <> OutOfFuel.
Proof.
  unfold HR.sort_matches, bind at 1, get. simpl. apply for_each_nf. intros h st.
  pyrun. pycases; simpl; try discriminate; try pynf.
  exfalso. exact (keys_of_nf _ _ ltac:(eassumption)).
Qed.

Lemma hr_resident_optimal_terminates caps fuel hp rp m :
  caps_nonneg caps ->
  sumlen hp * S (length rp) + length rp < fuel ->
  fst (HR.hr_resident_optimal caps fuel (HR.State hp rp m)) <> OutOfFuel.
Proof.
  intros Hc Hf. unfold HR.hr_resident_optimal, bind at 1, modify. simpl.
  unfold bind at 1.
  pose proof (ro_loop_terminates caps fuel (HR.State hp rp (HR.empty_matching hp))) as T.
  destruct (HR.ro_loop caps fuel _) as [[[]| |] s1]; simpl in *; try discriminate.
  - unfold bind at 1. pose proof (sort_matches_nf s1) as Hs.
    destruct (HR.sort_matches s1) as [[[]| |] s2]; simpl in *; [discriminate|discriminate|contradiction].
  - exfalso. apply T; [| | |reflexivity].
    + apply empty_matching_capacity. exact Hc.
    + intros h ml Hml. rewrite dget_empty_matching in Hml.
      destruct (dget hp h); simpl in Hml; [|discriminate]. injection Hml as <-. constructor.
    + unfold hr_measure. simpl. rewrite n_unmatched_empty. exact Hf.
Qed.

(** C3: the three solvers terminate. Run with [fuel] loop iterations, a
    call does not run out of them once [fuel] exceeds a bound computed from
    the sizes of the inputs: it returns a matching or raises.
    - [stable_marriage]: keys without duplicates and duplicate-free lists;
      each iteration dequeues a suitor or strictly shrinks the suitors'
      lists, which never grow.
    - [hr_resident_optimal]: nonnegative capacities; each iteration matches
      a resident matched nowhere before, or strictly shrinks the hospitals'
      lists, which never grow.
    - [hr_hospital_optimal]: hospital keys without duplicates and
      duplicate-free lists; the same measure decreases. *)
Theorem solvers_terminate :
  (forall fuel sp rp optimal,
     NoDup (map fst sp) -> NoDup (map fst rp) -> strict_lists sp -> strict_lists rp ->
     length sp + sumlen sp + length rp + sumlen rp < fuel ->
     fst (SM.stable_marriage fuel sp rp optimal) <> OutOfFuel) /\
  (forall caps fuel hp rp m,
     caps_nonneg caps ->
     sumlen hp * S (length rp) + length rp < fuel ->
     fst (HR.hr_resident_optimal caps fuel (HR.State hp rp m)) <> OutOfFuel) /\
  (forall caps fuel hp rp m,
     NoDup (map fst hp) -> strict_lists hp -> strict_lists rp ->
     sumlen hp * S (length rp) + length rp < fuel ->
     fst (HR.hr_hospital_optimal caps fuel (HR.State hp rp m)) <> OutOfFuel).
Proof.
  split; [exact stable_marriage_terminates|].
  split; [exact hr_resident_optimal_terminates|exact hr_hospital_optimal_terminates].
Qed.

(** The three bounds met on the instances of the specification. *)
Lemma solvers_terminate_witness :
  fst (SM.stable_marriage 25 ex_sp ex_rp "suitor") <> OutOfFuel /\
  fst (HR.hr_resident_optimal ex2_caps 9 (HR.State ex2_hosp ex2_res [])) <> OutOfFuel /\
  fst (HR.hr_hospital_optimal ex2_caps 9 (HR.State ex2_hosp ex2_res [])) <> OutOfFuel.
Proof.
  destruct solvers_terminate as [T1 [T2 T3]].
  split; [|split].
  - apply T1; [apply nodupb_NoDup; vm_compute; reflexivity|apply nodupb_NoDup; vm_compute; reflexivity
              |apply strict_lists_of_forallb; vm_compute; reflexivity
              |apply strict_lists_of_forallb; vm_compute; reflexivity|vm_compute; lia].
  - apply T2; [vm_compute; reflexivity|vm_compute; lia].
  - apply T3; [apply nodupb_NoDup; vm_compute; reflexivity
              |apply strict_lists_of_forallb; vm_compute; reflexivity
              |apply strict_lists_of_forallb; vm_compute; reflexivity|vm_compute; lia].
Defined.

(* ------------------------------------------------------------------ *)
(** ** Further properties of the solvers *)

Lemma sm_loop_ind (I : SM.state -> Prop) :
  (forall s s', I s -> SM.suitors s <> [] -> SM.body s = (Ok tt, s') -> I s') ->
  forall fuel s s', I s -> SM.loop fuel s = (Ok tt, s') -> I s' /\ SM.suitors s' = [].
Proof.
  intros Hb fuel. induction fuel as [|fuel IH]; intros s s' Hs H; simpl in H; [discriminate|].
  unfold bind at 1, get in H. simpl in H.
  destruct (SM.suitors s) as [|x rest] eqn:Hq.
  - injection H as <-. auto.
  - unfold bind in H. destruct (SM.body s) as [[[]| |] s1] eqn:Eb; try discriminate.
    apply (IH s1); auto. apply (Hb s); auto. congruence.
Qed.

Lemma sm_prunes_keep r xs st o st' :
  for_each xs (SM.prune r) st = (o, st') ->
  SM.suitors st' = SM.suitors st /\ SM.matching st' = SM.matching st.
Proof.
  intros H.
  pose proof (for_each_pres (fun s => SM.suitors s = SM.suitors st /\ SM.matching s = SM.matching st)
                xs (SM.prune r)) as P.
  assert (Hf : forall x s, SM.suitors s = SM.suitors st /\ SM.matching s = SM.matching st ->
     SM.suitors (snd (SM.prune r x s)) = SM.suitors st /\ SM.matching (snd (SM.prune r x s)) = SM.matching st).
  { intros x s [E1 E2]. unfold SM.prune. pyrun. pycases; simpl; auto. }
  specialize (P Hf st (conj eq_refl eq_refl)). rewrite H in P. exact P.
Qed.

Lemma sm_body_matching s s' :
  SM.suitors s <> [] -> SM.body s = (Ok tt, s') ->
  exists x rest r tl rl j,
  SM.suitors s = x :: rest /\
  dget (SM.suitor_prefs s) x = Some (r :: tl) /\
  dget (SM.reviewer_prefs s) r = Some rl /\ idx_of x rl = Some j /\
  (((forall y, dget (SM.matching s) y <> Some (Some r)) /\ SM.suitors s' = rest /\
    SM.matching s' = dset (SM.matching s) x (Some r)) \/
   (exists sx, In (sx, Some r) (SM.matching s) /\ SM.suitors s' = rest ++ [sx] /\
    SM.matching s' = dset (dset (SM.matching s) sx None) x (Some r))).
Proof.
  intros Hne Hb.
  destruct (sm_body_spec s s' Hne Hb)
    as [x [rest [r [tl [rl [j [q1 [M1 [Hq [Hsx [Hcase [Hrl [Hj Hfe]]]]]]]]]]]]].
  destruct (sm_prunes_keep _ _ _ _ _ Hfe) as [Eq Em]. simpl in Eq, Em.
  exists x, rest, r, tl, rl, j. repeat split; auto.
  destruct Hcase as [[Hex [-> ->]]|[i [sx [Hf [Hn [-> ->]]]]]].
  - left. repeat split; auto. intros y. apply existsb_opt_false. exact Hex.
  - right. exists sx. repeat split; auto.
    eapply nth_error_pair; eauto. apply find_index_some_nth; auto.
Qed.

Lemma sm_ginv_body sp0 rp0 K s s' :
  sm_ginv sp0 rp0 K s -> SM.suitors s <> [] -> SM.body s = (Ok tt, s') -> sm_ginv sp0 rp0 K s'.
Proof.
  intros [Hk [Hqk [Hnone [Hpr Hacc]]]] Hne Hb.
  assert (Hpr' : pruned_of sp0 (SM.suitor_prefs s') /\ pruned_of rp0 (SM.reviewer_prefs s')).
  { pose proof (sm_body_pruned sp0 rp0 s Hpr) as P. rewrite Hb in P. exact P. }
  destruct (sm_body_matching s s' Hne Hb)
    as [x [rest [r [tl [rl [j [Hq [Hsx [Hrl [Hj Hcase]]]]]]]]]].
  assert (HxK : In x K) by (apply Hqk; rewrite Hq; left; reflexivity).
  assert (Hnew : (exists l0, dget sp0 x = Some l0 /\ In r l0) /\
                 (exists l0, dget rp0 r = Some l0 /\ In x l0)).
  { destruct Hpr as [Hp1 Hp2]. split.
    - destruct (pruned_of_dget _ _ _ _ Hp1 Hsx) as [l0 [H0 Hs0]].
      exists l0. split; auto. eapply subseq_in; eauto. left; reflexivity.
    - destruct (pruned_of_dget _ _ _ _ Hp2 Hrl) as [l0 [H0 Hs0]].
      exists l0. split; auto. eapply subseq_in; eauto.
      apply idx_of_In. eauto. }
  unfold sm_ginv. destruct Hcase as [[Hno [Eq Em]]|[sx [Hin [Eq Em]]]]; rewrite Eq, Em.
  - refine (conj _ (conj _ (conj _ (conj Hpr' _)))).
    + rewrite keys_dset; [exact Hk|rewrite Hk; exact HxK].
    + intros y Hy. apply Hqk. rewrite Hq. right. exact Hy.
    + intros y. rewrite dget_dset. eqcase y x E; [discriminate|].
      intros Hy. apply Hnone in Hy. rewrite Hq in Hy. destruct Hy as [<-|Hy]; [congruence|exact Hy].
    + intros y r'. rewrite dget_dset. eqcase y x E.
      * injection 1 as <-. exact Hnew.
      * apply Hacc.
  - assert (HsxK : In sx K) by (rewrite <- Hk; apply in_map_iff; exists (sx, Some r); auto).
    refine (conj _ (conj _ (conj _ (conj Hpr' _)))).
    + rewrite keys_dset, keys_dset; [exact Hk|rewrite Hk; exact HsxK|].
      rewrite keys_dset; [rewrite Hk; exact HxK|rewrite Hk; exact HsxK].
    + intros y Hy. apply in_app_or in Hy. destruct Hy as [Hy|[<-|[]]]; [|exact HsxK].
      apply Hqk. rewrite Hq. right. exact Hy.
    + intros y. rewrite !dget_dset. eqcase y x E; [discriminate|].
      eqcase y sx E'; [intros _; apply in_or_app; right; left; reflexivity|].
      intros Hy. apply Hnone in Hy. rewrite Hq in Hy.
      destruct Hy as [<-|Hy]; [congruence|apply in_or_app; left; exact Hy].
    + intros y r'. rewrite !dget_dset. eqcase y x E.
      * injection 1 as <-. exact Hnew.
      * eqcase y sx E'; [discriminate|]. apply Hacc.
Qed.

Lemma sm_held_once_body s s' :
  NoDup (map fst (SM.matching s)) -> sm_held_once s -> SM.suitors s <> [] ->
  SM.body s = (Ok tt, s') -> sm_held_once s'.
Proof.
  intros Hnd Hu Hne Hb.
  destruct (sm_body_matching s s' Hne Hb)
    as [x [rest [r [tl [rl [j [Hq [Hsx [Hrl [Hj Hcase]]]]]]]]]].
  unfold sm_held_once in *.
  destruct Hcase as [[Hno [Eq Em]]|[sx [Hin [Eq Em]]]]; rewrite Em; intros y y' r'.
  - rewrite !dget_dset. eqcase y x E; eqcase y' x E'; auto.
    + injection 1 as <-. intros H. exfalso. exact (Hno _ H).
    + intros H. injection 1 as <-. exfalso. exact (Hno _ H).
    + apply Hu.
  - assert (Hsxm : dget (SM.matching s) sx = Some (Some r)) by (apply In_dget; auto).
    rewrite !dget_dset. eqcase y x E; eqcase y' x E'; auto.
    + injection 1 as <-. eqcase y' sx E2; [discriminate|].
      intros H. exfalso. apply E2. exact (Hu _ _ _ H Hsxm).
    + eqcase y sx E2; [discriminate|].
      intros H. injection 1 as <-. exfalso. apply E2. exact (Hu _ _ _ H Hsxm).
    + eqcase y sx E2; [discriminate|]. eqcase y' sx E3; [discriminate|]. apply Hu.
Qed.

Lemma sm_ginv_initial sp rp : sm_ginv sp rp (map fst sp) (SM.initial sp rp).
Proof.
  unfold sm_ginv, SM.initial. simpl. refine (conj _ (conj _ (conj _ (conj _ _)))).
  - rewrite map_map. simpl. apply map_id.
  - auto.
  - intros y Hy. apply dget_key in Hy. rewrite map_map, map_id in Hy. exact Hy.
  - split; apply pruned_of_refl.
  - intros y r Hy. apply dget_map_none in Hy. discriminate.
Qed.

Lemma stable_marriage_run fuel sp rp optimal M :
  fst (SM.stable_marriage fuel sp rp optimal) = Ok M ->
  exists st,
    SM.loop fuel (SM.initial (if String.eqb optimal "reviewer" then rp else sp)
                             (if String.eqb optimal "reviewer" then sp else rp)) = (Ok tt, st) /\
    M = SM.matching st.
Proof.
  unfold SM.stable_marriage. cbv zeta.
  destruct (SM.loop fuel _) as [o st] eqn:E. destruct o as [[]| |]; simpl; try discriminate.
  intros H. injection H as <-. eauto.
Qed.

Lemma stable_marriage_ginv fuel sp rp optimal M :
  fst (SM.stable_marriage fuel sp rp optimal) = Ok M ->
  let P := if String.eqb optimal "reviewer" then rp else sp in
  let Q := if String.eqb optimal "reviewer" then sp else rp in
  map fst M = map fst P /\ (forall y, dget M y <> Some None) /\
  (forall y r, dget M y = Some (Some r) ->
     (exists l, dget P y = Some l /\ In r l) /\ (exists l, dget Q r = Some l /\ In y l)).
Proof.
  intros H. destruct (stable_marriage_run _ _ _ _ _ H) as [st [Hl ->]]. cbv zeta.
  destruct (sm_loop_ind _ (sm_ginv_body _ _ _) _ _ _ (sm_ginv_initial _ _) Hl)
    as [[Hk [_ [Hnone [_ Hacc]]]] Hq].
  refine (conj Hk (conj _ Hacc)).
  intros y Hy. apply Hnone in Hy. rewrite Hq in Hy. exact Hy.
Qed.

(** X1: The keys of a matching returned by [stable_marriage] are the keys of the
    proposing side's dict, in the caller's order. *)
Theorem sm_matching_keys fuel suitor_prefs reviewer_prefs optimal M :
  fst (SM.stable_marriage fuel suitor_prefs reviewer_prefs optimal) = Ok M ->
  map fst M = map fst (if String.eqb optimal "reviewer" then reviewer_prefs else suitor_prefs).
Proof. intros H. exact (proj1 (stable_marriage_ginv _ _ _ _ _ H)). Qed.

(** X2: Every player of the proposing side is matched to some player (never
    [None]) in a matching returned by [stable_marriage]. *)
Theorem sm_no_unmatched_suitor fuel suitor_prefs reviewer_prefs optimal M y :
  fst (SM.stable_marriage fuel suitor_prefs reviewer_prefs optimal) = Ok M ->
  In y (map fst (if String.eqb optimal "reviewer" then reviewer_prefs else suitor_prefs)) ->
  exists r, dget M y = Some (Some r).
Proof.
  intros H Hy. pose proof (stable_marriage_ginv _ _ _ _ _ H) as G. cbv zeta in G. destruct G as [Hk [Hn _]].
  assert (Hy' : In y (map fst M)) by (rewrite Hk; exact Hy).
  destruct (key_dget _ _ Hy') as [[r|] Hr]; eauto.
  exfalso. exact (Hn y Hr).
Qed.

(** X3: In a matching returned by [stable_marriage], each pair is mutually
    acceptable in the caller's original lists: [r] is on [y]'s list and [y]
    is on [r]'s list. *)
Theorem sm_pairs_acceptable fuel suitor_prefs reviewer_prefs optimal M y r :
  fst (SM.stable_marriage fuel suitor_prefs reviewer_prefs optimal) = Ok M ->
  dget M y = Some (Some r) ->
  (exists l, dget (if String.eqb optimal "reviewer" then reviewer_prefs else suitor_prefs) y = Some l /\ In r l) /\
  (exists l, dget (if String.eqb optimal "reviewer" then suitor_prefs else reviewer_prefs) r = Some l /\ In y l).
Proof. intros H. exact (proj2 (proj2 (stable_marriage_ginv _ _ _ _ _ H)) y r). Qed.

(** A suitor [y] whose original list is empty, queued behind the suitors
    [pre], makes the loop raise within [length pre + 1] iterations: the
    suitors before it are popped one by one, and when [y] is popped,
    [suitor_prefs[y][0]] raises, unless an earlier iteration raised. *)
Lemma sm_loop_empty_list_raises sp0 rp0 K y fuel :
  dget sp0 y = Some [] ->
  forall pre q s, sm_ginv sp0 rp0 K s -> SM.suitors s = pre ++ y :: q -> length pre < fuel ->
  exists e, fst (SM.loop fuel s) = Raise e.
Proof.
  intros Hy0. induction fuel as [|fuel IH]; intros pre q s G Hq Hl; [simpl in Hl; lia|].
  cbn [SM.loop]. unfold bind at 1, get. rewrite Hq.
  assert (Hne : SM.suitors s <> []) by (rewrite Hq; destruct pre; discriminate).
  replace (match pre ++ y :: q with [] => ret tt | _ :: _ => SM.body ;;; SM.loop fuel end)
    with (SM.body ;;; SM.loop fuel) by (destruct pre; reflexivity).
  unfold bind at 1. destruct (SM.body s) as [o s'] eqn:Eb.
  destruct o as [[]|e|]; [|exists e; reflexivity|].
  - destruct (sm_body_matching _ _ Hne Eb) as [x [rest [r [tl [rl [j [Hs [Hx [_ [_ Hcase]]]]]]]]]].
    rewrite Hq in Hs. destruct pre as [|p pre'].
    + injection Hs as <- _. destruct G as [_ [_ [_ [[Hp _] _]]]].
      destruct (pruned_of_dget _ _ _ _ Hp Hx) as [l0 [Hl0 Hsub]].
      rewrite Hy0 in Hl0. injection Hl0 as <-. apply subseq_length in Hsub. simpl in Hsub. lia.
    + injection Hs as <- <-. pose proof (sm_ginv_body _ _ _ _ _ G Hne Eb) as G'.
      simpl in Hl.
      destruct Hcase as [[_ [Hs' _]]|[sx [_ [Hs' _]]]].
      * exact (IH pre' q s' G' Hs' ltac:(lia)).
      * apply (IH pre' (q ++ [sx]) s' G'); [|lia]. rewrite Hs', <- app_assoc. reflexivity.
  - exfalso. apply (sm_body_nf s). rewrite Eb. reflexivity.
Qed.

(** X4: If a player of the proposing side has an empty preference list,
    [stable_marriage] raises an exception within one pass over the
    proposing side's players and never returns a matching: when that player
    is popped, [suitor_prefs[suitor][0]] raises [IndexError], unless an
    earlier iteration raised. *)
Theorem sm_empty_list_raises fuel suitor_prefs reviewer_prefs optimal y :
  dget (if String.eqb optimal "reviewer" then reviewer_prefs else suitor_prefs) y = Some [] ->
  length (if String.eqb optimal "reviewer" then reviewer_prefs else suitor_prefs) <= fuel ->
  exists e, fst (SM.stable_marriage fuel suitor_prefs reviewer_prefs optimal) = Raise e.
Proof.
  unfold SM.stable_marriage.
  destruct (String.eqb optimal "reviewer");
    [set (P := reviewer_prefs); set (R := suitor_prefs)
    |set (P := suitor_prefs); set (R := reviewer_prefs)]; intros Hy Hf;
  destruct (in_split _ _ (dget_key _ _ _ Hy)) as [pre [q Hpq]];
  (assert (Hl : length pre < fuel)
     by (assert (E : length (map fst P) = length (pre ++ y :: q)) by (rewrite Hpq; reflexivity);
         rewrite length_map, length_app in E; simpl in E; lia));
  destruct (sm_loop_empty_list_raises P R (map fst P) y fuel Hy pre q (SM.initial P R)
              (sm_ginv_initial P R) Hpq Hl) as [e He];
  destruct (SM.loop fuel (SM.initial P R)) as [o st]; simpl in He; subst o; exists e; reflexivity.
Qed.

(** X5: With distinct keys on the proposing side, no player of the other side is
    held by two players in a matching returned by [stable_marriage]. *)
Theorem sm_held_by_one fuel suitor_prefs reviewer_prefs optimal M y y' r :
  NoDup (map fst (if String.eqb optimal "reviewer" then reviewer_prefs else suitor_prefs)) ->
  fst (SM.stable_marriage fuel suitor_prefs reviewer_prefs optimal) = Ok M ->
  dget M y = Some (Some r) -> dget M y' = Some (Some r) -> y = y'.
Proof.
  intros Hnd H. destruct (stable_marriage_run _ _ _ _ _ H) as [st [Hl ->]].
  set (P := if String.eqb optimal "reviewer" then reviewer_prefs else suitor_prefs) in *.
  set (Q := if String.eqb optimal "reviewer" then suitor_prefs else reviewer_prefs) in *.
  assert (Hb : forall s s', (sm_ginv P Q (map fst P) s /\ sm_held_once s) -> SM.suitors s <> [] ->
             SM.body s = (Ok tt, s') -> sm_ginv P Q (map fst P) s' /\ sm_held_once s').
  { intros s s' [Hg Hu] Hne Heq. split; [eapply sm_ginv_body; eauto|].
    eapply sm_held_once_body; eauto. destruct Hg as [Hk _]. rewrite Hk. exact Hnd. }
  assert (H0 : sm_ginv P Q (map fst P) (SM.initial P Q) /\ sm_held_once (SM.initial P Q)).
  { split; [apply sm_ginv_initial|]. intros a b c Ha. apply dget_map_none in Ha. discriminate. }
  destruct (sm_loop_ind _ Hb _ _ _ H0 Hl) as [[_ Hu] _]. apply Hu.
Qed.

(** X6: With an empty proposing side, [stable_marriage] returns an empty
    matching and leaves both dicts as they were. *)
Theorem sm_empty_side fuel suitor_prefs reviewer_prefs optimal :
  (if String.eqb optimal "reviewer" then reviewer_prefs else suitor_prefs) = [] ->
  SM.stable_marriage (S fuel) suitor_prefs reviewer_prefs optimal = (Ok [], (suitor_prefs, reviewer_prefs)).
Proof.
  unfold SM.stable_marriage. destruct (String.eqb optimal "reviewer"); intros ->; reflexivity.
Qed.

Lemma NoDup_app_sub (a b a' b' : list string) :
  NoDup (a ++ b) -> NoDup a' -> NoDup b' -> incl a' a -> incl b' b -> NoDup (a' ++ b').
Proof.
  intros H Ha Hb Ia Ib. apply NoDup_app; auto.
  intros x Hx Hx'. apply Ia in Hx. apply Ib in Hx'.
  exact (NoDup_app_disj _ _ _ H Hx Hx').
Qed.

Lemma concat_dset (m : dict (list string)) h ml l :
  dget m h = Some ml ->
  exists A B, concat (map snd m) = A ++ ml ++ B /\ concat (map snd (dset m h l)) = A ++ l ++ B.
Proof.
  induction m as [|[k v] m IH]; simpl; [discriminate|].
  destruct (String.eqb h k).
  - injection 1 as <-. exists [], (concat (map snd m)). simpl. auto.
  - intros Hg. destruct (IH Hg) as [A [B [E1 E2]]]. exists (v ++ A), B.
    simpl. rewrite E1, E2, !app_assoc. auto.
Qed.

Lemma In_dset {V} (m : dict V) k v k' v' :
  In (k', v') (dset m k v) -> (k' = k /\ v' = v) \/ In (k', v') m.
Proof.
  induction m as [|[k0 v0] m IH]; simpl.
  - intros [E|[]]. injection E as <- <-. auto.
  - destruct (String.eqb k k0) eqn:E; streq; simpl.
    + intros [E'|H]; [injection E' as <- <-; auto|auto].
    + intros [E'|H]; [auto|]. destruct (IH H); auto.
Qed.

Lemma nodup_concat_dset_sub (m : dict (list string)) h ml l :
  NoDup (concat (map snd m)) -> dget m h = Some ml -> NoDup l -> incl l ml ->
  NoDup (concat (map snd (dset m h l))).
Proof.
  intros Hn Hg Hl Hi. destruct (concat_dset m h ml l Hg) as [A [B [E1 E2]]].
  rewrite E2. rewrite E1 in Hn.
  apply (NoDup_app_sub A (ml ++ B)); auto using incl_refl.
  - exact (NoDup_app_remove_r _ _ Hn).
  - apply (NoDup_app_sub ml B); auto using incl_refl.
    + exact (NoDup_app_remove_l _ _ Hn).
    + exact (NoDup_app_remove_l _ _ (NoDup_app_remove_l _ _ Hn)).
  - apply incl_app; [intros x Hx; apply in_or_app; left; auto|apply incl_appr, incl_refl].
Qed.

Lemma nodup_concat_dset_snoc (m : dict (list string)) h ml r :
  NoDup (concat (map snd m)) -> dget m h = Some ml -> ~ In r (concat (map snd m)) ->
  NoDup (concat (map snd (dset m h (ml ++ [r])))).
Proof.
  intros Hn Hg Hr. destruct (concat_dset m h ml (ml ++ [r]) Hg) as [A [B [E1 E2]]].
  rewrite E2. rewrite E1 in Hn, Hr.
  apply Permutation_NoDup with (r :: A ++ ml ++ B); [|constructor; auto].
  replace (A ++ (ml ++ [r]) ++ B) with ((A ++ ml) ++ r :: B)
    by (rewrite <- !app_assoc; reflexivity).
  rewrite app_assoc. apply Permutation_middle.
Qed.

Lemma unassign_In r m k l' :
  In (k, l') (HR.unassign r m) -> exists l, In (k, l) m /\ incl l' l.
Proof.
  unfold HR.unassign. intros H. apply in_map_iff in H. destruct H as [[k0 l0] [E H]].
  exists l0. simpl in E. destruct (mem r l0); injection E as <- <-; split; auto using incl_refl.
  intros x Hx. eapply in_rem; eauto.
Qed.

Lemma unassign_cons r k l m :
  HR.unassign r ((k, l) :: m) = (k, if mem r l then rem r l else l) :: HR.unassign r m.
Proof. unfold HR.unassign. simpl. destruct (mem r l); reflexivity. Qed.

Lemma unassign_concat r m :
  NoDup (concat (map snd m)) ->
  NoDup (concat (map snd (HR.unassign r m))) /\ ~ In r (concat (map snd (HR.unassign r m))) /\
  incl (concat (map snd (HR.unassign r m))) (concat (map snd m)).
Proof.
  induction m as [|[k l] m IH]; intros Hn.
  - split; [constructor|split; [auto|apply incl_refl]].
  - rewrite unassign_cons. cbn [map snd concat] in *. destruct (IH (NoDup_app_remove_l _ _ Hn)) as [Hn' [Hr' Hi']].
    assert (Hl : NoDup l) by exact (NoDup_app_remove_r _ _ Hn).
    assert (Hsub : incl (if mem r l then rem r l else l) l)
      by (destruct (mem r l); [intros x Hx; eapply in_rem; eauto|apply incl_refl]).
    assert (Hnd : NoDup (if mem r l then rem r l else l)) by (destruct (mem r l); auto using rem_nodup).
    split; [|split].
    + eapply NoDup_app_sub; eauto.
    + intros Hin. apply in_app_or in Hin. destruct Hin as [Hin|Hin]; [|exact (Hr' Hin)].
      destruct (mem r l) eqn:E.
      * exact (rem_gone r l Hl Hin).
      * apply mem_false in E. exact (E Hin).
    + apply incl_app; [apply incl_appl; exact Hsub|apply incl_appr; exact Hi'].
Qed.

Lemma insert_by_key_perm k x l : Permutation (HR.insert_by_key k x l) ((k, x) :: l).
Proof.
  induction l as [|[k' y] l IH]; simpl; auto.
  destruct (Nat.ltb k k'); auto.
  eapply perm_trans; [apply perm_skip; exact IH|apply perm_swap].
Qed.

Lemma keys_of_snd hl ms ks : HR.keys_of hl ms = Ok ks -> map snd ks = ms.
Proof.
  revert ks. induction ms as [|r ms IH]; simpl; intros ks E.
  - injection E as <-. reflexivity.
  - destruct (list_index r hl); try discriminate.
    destruct (HR.keys_of hl ms) as [ks'| |]; try discriminate.
    injection E as <-. simpl. f_equal. auto.
Qed.

Lemma sort_by_key_perm l : Permutation (HR.sort_by_key l) (map snd l).
Proof.
  unfold HR.sort_by_key.
  assert (H : forall acc, Permutation (fold_left (fun acc kx => HR.insert_by_key (fst kx) (snd kx) acc) l acc)
                                      (l ++ acc)).
  { induction l as [|[k x] l IH]; intros acc; simpl; auto.
    eapply perm_trans; [apply IH|]. eapply perm_trans; [apply Permutation_app_head, insert_by_key_perm|].
    simpl. apply Permutation_sym, Permutation_middle. }
  specialize (H []). apply Permutation_map with (f := snd) in H. rewrite app_nil_r in H. exact H.
Qed.

Lemma nodup_concat_dget (m : dict (list string)) h ml :
  NoDup (concat (map snd m)) -> dget m h = Some ml -> NoDup ml.
Proof.
  intros Hn Hg. destruct (concat_dset m h ml ml Hg) as [A [B [E1 _]]]. rewrite E1 in Hn.
  exact (NoDup_app_remove_r _ _ (NoDup_app_remove_l _ _ Hn)).
Qed.

Lemma not_matched_concat m r : matched m r = false -> ~ In r (concat (map snd m)).
Proof.
  intros Hm Hin. apply in_concat in Hin. destruct Hin as [l [Hl Hr]].
  apply in_map_iff in Hl. destruct Hl as [[k l'] [E Hkl]]. simpl in E. subst l'.
  assert (matched m r = true) by (apply matched_In; eauto). congruence.
Qed.

Lemma ro_append_ok r s h s1 :
  HR.ro_append r s = (Ok h, s1) ->
  exists tl ml, dget (HR.resident_prefs s) r = Some (h :: tl) /\ dget (HR.matching s) h = Some ml /\
    s1 = HR.set_matching (dset (HR.matching s) h (ml ++ [r])) s.
Proof.
  unfold HR.ro_append. pyrun. pycases; intros H; try discriminate; pyok.
  injection H as <- <-. subst. eauto.
Qed.

Lemma ro_body_matching caps r s s' :
  HR.ro_body caps r s = (Ok tt, s') ->
  exists h tl ml, dget (HR.resident_prefs s) r = Some (h :: tl) /\ dget (HR.matching s) h = Some ml /\
    (HR.matching s' = dset (HR.matching s) h (ml ++ [r]) \/
     exists res, HR.matching s' = dset (dset (HR.matching s) h (ml ++ [r])) h (rem res (ml ++ [r]))).
Proof.
  unfold HR.ro_body, bind at 1. intros H.
  destruct (HR.ro_append r s) as [[h| |] s1] eqn:Ea; try discriminate.
  destruct (ro_append_ok _ _ _ _ Ea) as [tl [ml [Hr [Hm ->]]]].
  unfold bind in H. destruct (HR.ro_evict caps h _) as [[[]| |] s2] eqn:Ee; try discriminate.
  pose proof (ro_prune_matching caps h s2) as Pm. rewrite H in Pm. simpl in Pm.
  exists h, tl, ml. split; [exact Hr|split; [exact Hm|]].
  apply ro_evict_spec in Ee. destruct Ee as [ml' [c [Hml' [Hc [[_ ->]|[_ [w [hl [res [_ [_ [_ [_ ->]]]]]]]]]]]]];
    simpl in *; rewrite dget_dset_eq in Hml'; injection Hml' as <-.
  - left. exact Pm.
  - right. exists res. exact Pm.
Qed.

Lemma ro_ginv_body caps rp0 K r s s' :
  hr_ginv rp0 K s -> matched (HR.matching s) r = false -> HR.ro_body caps r s = (Ok tt, s') ->
  hr_ginv rp0 K s'.
Proof.
  intros [Hk [Hn [Hpr Hacc]]] Hfree Hb.
  assert (Hpr' : pruned_of rp0 (HR.resident_prefs s')).
  { pose proof (hr_ro_body_pruned (HR.hospital_prefs s) rp0 caps r s
                  (conj (pruned_of_refl _) Hpr)) as P. rewrite Hb in P. exact (proj2 P). }
  destruct (ro_body_matching caps r s s' Hb) as [h [tl [ml [Hr [Hm Hcase]]]]].
  set (M1 := dset (HR.matching s) h (ml ++ [r])).
  assert (Hhk : In h (map fst (HR.matching s))) by exact (dget_key _ _ _ Hm).
  assert (Hr0 : exists rl0, dget rp0 r = Some rl0 /\ In h rl0).
  { destruct (pruned_of_dget _ _ _ _ Hpr Hr) as [rl0 [H0 Hs0]]. exists rl0. split; auto.
    eapply subseq_in; eauto. left; reflexivity. }
  assert (G1 : hr_ginv rp0 K (HR.set_matching M1 s')).
  { unfold hr_ginv, M1. simpl. refine (conj _ (conj _ (conj Hpr' _))).
    - rewrite keys_dset; auto.
    - apply nodup_concat_dset_snoc; auto. apply not_matched_concat; auto.
    - intros k l' x Hin Hx. apply In_dset in Hin. destruct Hin as [[-> ->]|Hin]; [|eauto].
      apply in_app_or in Hx. destruct Hx as [Hx|[<-|[]]]; [|exact Hr0].
      apply (Hacc h ml); auto. apply dget_In; auto. }
  destruct Hcase as [E|[res E]].
  - destruct G1 as [G1a [G1b [_ G1d]]]. unfold hr_ginv. rewrite E. auto.
  - destruct G1 as [G1a [G1b [_ G1d]]]. simpl in *. unfold hr_ginv. rewrite E. fold M1.
    assert (HM1 : dget M1 h = Some (ml ++ [r])) by apply dget_dset_eq.
    refine (conj _ (conj _ (conj Hpr' _))).
    + rewrite keys_dset; auto. rewrite G1a, <- Hk. exact Hhk.
    + apply (nodup_concat_dset_sub _ _ (ml ++ [r])); auto.
      * apply rem_nodup. eapply nodup_concat_dget; eauto.
      * intros x Hx. eapply in_rem; eauto.
    + intros k l' x Hin Hx. apply In_dset in Hin. destruct Hin as [[-> ->]|Hin]; [|eauto].
      apply (G1d h (ml ++ [r])); [apply dget_In; auto|eapply in_rem; eauto].
Qed.

Lemma ho_body_matching h s s' :
  HR.ho_body h s = (Ok tt, s') ->
  exists r ml1 rl idx, dget (HR.unassign r (HR.matching s)) h = Some ml1 /\
    dget (HR.resident_prefs s) r = Some rl /\ idx_of h rl = Some idx /\
    HR.matching s' = dset (HR.unassign r (HR.matching s)) h (ml1 ++ [r]).
Proof.
  intros H. unfold HR.ho_body in H. pyrun.
  revert H. pycases; intros H; try discriminate; pyok.
  match type of H with for_each ?xs _ ?st = _ =>
    pose proof (prune_hospital_matching a1 xs st) as Pm end.
  rewrite H in Pm. simpl in Pm. eauto 10.
Qed.

Lemma ho_ginv_body rp0 K h s s' :
  hr_ginv rp0 K s -> HR.ho_body h s = (Ok tt, s') -> hr_ginv rp0 K s'.
Proof.
  intros [Hk [Hn [Hpr Hacc]]] Hb.
  assert (Hpr' : pruned_of rp0 (HR.resident_prefs s')).
  { pose proof (hr_ho_body_pruned (HR.hospital_prefs s) rp0 h s
                  (conj (pruned_of_refl _) Hpr)) as P. rewrite Hb in P. exact (proj2 P). }
  destruct (ho_body_matching h s s' Hb) as [r [ml1 [rl [idx [Hu [Hrl [Hi E]]]]]]].
  destruct (unassign_concat r _ Hn) as [Hn' [Hr' Hi']].
  assert (Hr0 : exists rl0, dget rp0 r = Some rl0 /\ In h rl0).
  { destruct (pruned_of_dget _ _ _ _ Hpr Hrl) as [rl0 [H0 Hs0]]. exists rl0. split; auto.
    eapply subseq_in; eauto. apply idx_of_In; eauto. }
  unfold hr_ginv. rewrite E. refine (conj _ (conj _ (conj Hpr' _))).
  - rewrite keys_dset; [rewrite keys_unassign; exact Hk|exact (dget_key _ _ _ Hu)].
  - apply nodup_concat_dset_snoc; auto.
  - intros k l' x Hin Hx. apply In_dset in Hin. destruct Hin as [[-> ->]|Hin].
    + apply in_app_or in Hx. destruct Hx as [Hx|[<-|[]]]; [|exact Hr0].
      apply dget_In in Hu. destruct (unassign_In _ _ _ _ Hu) as [l [Hl Hinc]]. eauto.
    + destruct (unassign_In _ _ _ _ Hin) as [l [Hl Hinc]]. eauto.
Qed.

Lemma ro_loop_ind caps (I : HR.state -> Prop) :
  (forall s s' r rs, I s -> HR.free_residents (HR.resident_prefs s) (HR.matching s) = r :: rs ->
     HR.ro_body caps r s = (Ok tt, s') -> I s') ->
  forall fuel s s', I s -> HR.ro_loop caps fuel s = (Ok tt, s') ->
  I s' /\ HR.free_residents (HR.resident_prefs s') (HR.matching s') = [].
Proof.
  intros Hb fuel. induction fuel as [|fuel IH]; intros s s' Hs H; simpl in H; [discriminate|].
  unfold bind at 1, get in H. simpl in H.
  destruct (HR.free_residents (HR.resident_prefs s) (HR.matching s)) as [|r rs] eqn:Ef.
  - injection H as <-. auto.
  - unfold bind in H. destruct (HR.ro_body caps r s) as [[[]| |] s1] eqn:Eb; try discriminate.
    apply (IH s1); eauto.
Qed.

Lemma ho_loop_ind caps (I : HR.state -> Prop) :
  (forall s s' h, I s -> HR.ho_body h s = (Ok tt, s') -> I s') ->
  forall fuel s s', I s -> HR.ho_loop caps fuel s = (Ok tt, s') ->
  I s' /\ HR.free_hospitals (HR.hospital_prefs s') caps (HR.matching s') = Ok [].
Proof.
  intros Hb fuel. induction fuel as [|fuel IH]; intros s s' Hs H; simpl in H; [discriminate|].
  unfold bind at 1, get in H. simpl in H. unfold bind at 1, lift in H.
  destruct (HR.free_hospitals (HR.hospital_prefs s) caps (HR.matching s)) as [[|h fh]| |] eqn:Ef;
    try discriminate.
  - injection H as <-. auto.
  - unfold bind in H. destruct (HR.ho_body h s) as [[[]| |] s1] eqn:Eb; try discriminate.
    apply (IH s1); eauto.
Qed.

Lemma keys_of_perm hl ms ks : HR.keys_of hl ms = Ok ks -> Permutation (HR.sort_by_key ks) ms.
Proof.
  intros H. pose proof (sort_by_key_perm ks) as P. rewrite (keys_of_snd _ _ _ H) in P. exact P.
Qed.

Lemma sort_matches_ginv rp0 K s s' :
  hr_ginv rp0 K s -> HR.sort_matches s = (Ok tt, s') ->
  hr_ginv rp0 K s' /\ HR.resident_prefs s' = HR.resident_prefs s /\
  HR.hospital_prefs s' = HR.hospital_prefs s /\
  (forall x, matched (HR.matching s) x = true -> matched (HR.matching s') x = true).
Proof.
  intros Hg H. unfold HR.sort_matches, bind at 1, get in H. simpl in H.
  set (Q := fun st => hr_ginv rp0 K st /\ HR.resident_prefs st = HR.resident_prefs s /\
              HR.hospital_prefs st = HR.hospital_prefs s /\
              (forall x, matched (HR.matching s) x = true -> matched (HR.matching st) x = true)).
  match type of H with for_each ?xs ?f ?st = _ =>
    assert (HQ : Q (snd (for_each xs f st))) end.
  { apply for_each_pres; [|unfold Q; auto].
    intros h st Hst. pyrun. pycases; simpl; try exact Hst.
    destruct Hst as [[Hk [Hn [Hpr Hacc]]] [Er [Eh Hm]]].
    pyok. rename a into ms, a1 into ks.
    match goal with Hks : HR.keys_of _ _ = Ok _ |- _ => pose proof (keys_of_perm _ _ _ Hks) as Hp end.
    assert (Hnd : NoDup ms) by (eapply nodup_concat_dget; eauto).
    unfold Q, hr_ginv. simpl. refine (conj (conj _ (conj _ (conj Hpr _))) (conj Er (conj Eh _))).
    - rewrite keys_dset; [exact Hk|eapply dget_key; eauto].
    - apply (nodup_concat_dset_sub _ _ ms); auto.
      + exact (Permutation_NoDup (Permutation_sym Hp) Hnd).
      + intros x Hx. exact (Permutation_in _ Hp Hx).
    - intros k l' x Hin Hx. apply In_dset in Hin. destruct Hin as [[-> ->]|Hin]; [|eauto].
      apply (Hacc h ms); [apply dget_In; auto|exact (Permutation_in _ Hp Hx)].
    - intros x Hx. eapply matched_dset_grow; eauto.
      intros y Hy. exact (Permutation_in _ (Permutation_sym Hp) Hy). }
  rewrite H in HQ. exact HQ.
Qed.

Lemma free_residents_nil rp m r l :
  HR.free_residents rp m = [] -> dget rp r = Some l -> l <> [] -> matched m r = true.
Proof.
  intros E Hr Hl. destruct (matched m r) eqn:Hm; auto. exfalso.
  assert (H : In r (HR.free_residents rp m)).
  { unfold HR.free_residents. apply filter_In. split; [exact (dget_key _ _ _ Hr)|].
    rewrite Hr. destruct l; [congruence|]. unfold matched in Hm. rewrite Hm. reflexivity. }
  rewrite E in H. exact H.
Qed.

Lemma hr_ginv_initial hp rp :
  hr_ginv rp (map fst hp) (HR.State hp rp (HR.empty_matching hp)).
Proof.
  unfold hr_ginv. simpl. refine (conj (empty_matching_keys hp) (conj _ (conj (pruned_of_refl _) _))).
  - unfold HR.empty_matching. induction (map fst hp) as [|k ks IH]; simpl; [constructor|exact IH].
  - intros h ml r Hin Hr. unfold HR.empty_matching in Hin. rewrite in_map_iff in Hin.
    destruct Hin as [k [E _]]. injection E as _ <-. destruct Hr.
Qed.

Lemma hr_resident_optimal_post caps fuel hp rp m0 M st :
  HR.hr_resident_optimal caps fuel (HR.State hp rp m0) = (Ok M, st) ->
  hr_ginv rp (map fst hp) st /\ M = HR.matching st /\
  (forall r l, dget (HR.resident_prefs st) r = Some l -> l <> [] -> matched M r = true).
Proof.
  intros H. unfold HR.hr_resident_optimal, bind at 1, modify in H. simpl in H.
  unfold bind at 1 in H.
  destruct (HR.ro_loop caps fuel _) as [[[]| |] s1] eqn:El; try discriminate.
  destruct (ro_loop_ind caps (hr_ginv rp (map fst hp))
              ltac:(intros s s' r rs Hs Ef Eb; apply free_residents_in in Ef;
                    exact (ro_ginv_body caps _ _ r s s' Hs (proj2 Ef) Eb))
              fuel _ _ (hr_ginv_initial hp rp) El) as [G1 Hfree].
  unfold bind at 1 in H.
  destruct (HR.sort_matches s1) as [[[]| |] s2] eqn:Es; try discriminate.
  pyrun. injection H as <- <-.
  destruct (sort_matches_ginv _ _ _ _ G1 Es) as [G2 [Er [_ Hm]]].
  split; [exact G2|split; [reflexivity|]].
  intros r l Hr Hl. rewrite Er in Hr. apply Hm. eapply free_residents_nil; eauto.
Qed.

Lemma hr_hospital_optimal_post caps fuel hp rp m0 M st :
  HR.hr_hospital_optimal caps fuel (HR.State hp rp m0) = (Ok M, st) ->
  hr_ginv rp (map fst hp) st /\ M = HR.matching st /\
  HR.free_hospitals (HR.hospital_prefs st) caps M = Ok [].
Proof.
  intros H. unfold HR.hr_hospital_optimal, bind at 1, modify in H. simpl in H.
  unfold bind at 1 in H.
  destruct (HR.ho_loop caps fuel _) as [[[]| |] s1] eqn:El; try discriminate.
  destruct (ho_loop_ind caps (hr_ginv rp (map fst hp))
              ltac:(intros s s' h Hs Eb; exact (ho_ginv_body _ _ h s s' Hs Eb))
              fuel _ _ (hr_ginv_initial hp rp) El) as [G1 Hfree].
  pyrun. injection H as <- <-. auto.
Qed.

Lemma hospital_resident_post fuel hp rp caps opt M hp' rp' :
  HR.hospital_resident fuel hp rp caps opt = (Ok M, (hp', rp')) ->
  exists st, hr_ginv rp (map fst hp) st /\ M = HR.matching st /\
    hp' = HR.hospital_prefs st /\ rp' = HR.resident_prefs st /\
    ((opt = "resident" /\ forall r l, dget rp' r = Some l -> l <> [] -> matched M r = true) \/
     (opt = "hospital" /\ HR.free_hospitals hp' caps M = Ok [])).
Proof.
  unfold HR.hospital_resident. cbv zeta. unfold bind at 1.
  pose proof (check_inputs_readonly (HR.State hp rp [])) as Hro.
  destruct (HR.check_inputs (HR.State hp rp [])) as [[u| |] s1]; simpl in Hro |- *;
    try discriminate. subst s1.
  destruct (String.eqb opt "resident") eqn:E1;
    [|destruct (String.eqb opt "hospital") eqn:E2; [|simpl; discriminate]].
  - destruct (HR.hr_resident_optimal caps fuel _) as [o st] eqn:E. intros H.
    injection H as -> <- <-. apply hr_resident_optimal_post in E.
    destruct E as [G [EM Hm]]. exists st. apply eqb_true in E1.
    refine (conj G (conj EM (conj eq_refl (conj eq_refl _)))). left. auto.
  - destruct (HR.hr_hospital_optimal caps fuel _) as [o st] eqn:E. intros H.
    injection H as -> <- <-. apply hr_hospital_optimal_post in E.
    destruct E as [G [EM Hf]]. exists st. apply eqb_true in E2.
    refine (conj G (conj EM (conj eq_refl (conj eq_refl _)))). right. auto.
Qed.

Lemma hospital_resident_post_fst fuel hp rp caps opt M :
  fst (HR.hospital_resident fuel hp rp caps opt) = Ok M ->
  exists hp' rp', HR.hospital_resident fuel hp rp caps opt = (Ok M, (hp', rp')).
Proof.
  destruct (HR.hospital_resident fuel hp rp caps opt) as [o [hp' rp']]. simpl.
  intros ->. eauto.
Qed.

Lemma free_hospitals_aux_nil hs hp caps m h hl ml c :
  HR.free_hospitals_aux hs hp caps m = Ok [] -> In h hs ->
  dget hp h = Some hl -> dget m h = Some ml -> dget caps h = Some c ->
  (c <= Z.of_nat (length ml))%Z \/ (forall r, In r hl -> ~ In r ml -> r = "").
Proof.
  induction hs as [|h0 hs IH]; simpl; intros E Hin Hh Hm Hc; [contradiction|].
  destruct (getitem m h0) as [ml0| |] eqn:E1; try discriminate.
  destruct (getitem caps h0) as [c0| |] eqn:E2; try discriminate.
  destruct (HR.free_hospitals_aux hs hp caps m) as [rest| |] eqn:E3; try discriminate.
  pyok. destruct Hin as [<-|Hin].
  - rewrite Hm in E1. injection E1 as <-. rewrite Hc in E2. injection E2 as <-. rewrite Hh in E.
    destruct ((Z.of_nat (length ml) <? c)%Z) eqn:Hlt; [|left; apply Z.ltb_ge in Hlt; lia].
    right. intros r Hr Hnot.
    destruct (existsb HR.truthy (filter (fun resident => negb (mem resident ml)) hl)) eqn:Ex;
      simpl in E; [discriminate|].
    assert (Hf : In r (filter (fun resident => negb (mem resident ml)) hl)).
    { apply filter_In. split; auto. apply negb_true_iff, mem_false. exact Hnot. }
    destruct (HR.truthy r) eqn:Ht.
    + assert (existsb HR.truthy (filter (fun resident => negb (mem resident ml)) hl) = true)
        by (apply existsb_exists; eauto). congruence.
    + unfold HR.truthy in Ht. apply negb_false_iff, eqb_true in Ht. exact Ht.
  - destruct (_ && _); [discriminate|]. injection E as ->. eauto.
Qed.

Lemma free_hospitals_aux_keyerror hs hp caps m h :
  (forall k, In k hs -> In k (map fst m)) -> In h hs -> dget caps h = None ->
  HR.free_hospitals_aux hs hp caps m = Raise KeyError.
Proof.
  induction hs as [|h0 hs IH]; simpl; intros Hk Hin Hc; [contradiction|].
  destruct (key_dget m h0 (Hk h0 (or_introl eq_refl))) as [ml Hml].
  unfold getitem at 1. rewrite Hml.
  destruct Hin as [<-|Hin]; [unfold getitem; rewrite Hc; reflexivity|].
  unfold getitem at 1. destruct (dget caps h0); [|reflexivity]. rewrite IH; auto.
Qed.

(** X7: The keys of a matching returned by [hospital_resident], with either
    solver, are the keys of [hospital_prefs], in the caller's order. *)
Theorem hr_matching_keys fuel hospital_prefs resident_prefs capacities optimal M :
  fst (HR.hospital_resident fuel hospital_prefs resident_prefs capacities optimal) = Ok M ->
  map fst M = map fst hospital_prefs.
Proof.
  intros H. destruct (hospital_resident_post_fst _ _ _ _ _ _ H) as [hp' [rp' E]].
  destruct (hospital_resident_post _ _ _ _ _ _ _ _ E) as [st [[Hk _] [-> _]]]. exact Hk.
Qed.

(** X8: In a matching returned by [hospital_resident], with either solver, a
    hospital holds a resident only if the hospital is on the resident's
    original preference list. *)
Theorem hr_hospital_on_resident_list fuel hospital_prefs resident_prefs capacities optimal M h ml r :
  fst (HR.hospital_resident fuel hospital_prefs resident_prefs capacities optimal) = Ok M ->
  dget M h = Some ml -> In r ml ->
  exists rl, dget resident_prefs r = Some rl /\ In h rl.
Proof.
  intros H Hm Hr. destruct (hospital_resident_post_fst _ _ _ _ _ _ H) as [hp' [rp' E]].
  destruct (hospital_resident_post _ _ _ _ _ _ _ _ E) as [st [[_ [_ [_ Hacc]]] [-> _]]].
  exact (Hacc h ml r (dget_In _ _ _ Hm) Hr).
Qed.

(** X9: In a matching returned by [hospital_resident], with either solver, no
    resident appears twice: not in two hospitals' sequences, and not twice
    in one. *)
Theorem hr_resident_matched_once fuel hospital_prefs resident_prefs capacities optimal M :
  fst (HR.hospital_resident fuel hospital_prefs resident_prefs capacities optimal) = Ok M ->
  NoDup (concat (map snd M)).
Proof.
  intros H. destruct (hospital_resident_post_fst _ _ _ _ _ _ H) as [hp' [rp' E]].
  destruct (hospital_resident_post _ _ _ _ _ _ _ _ E) as [st [[_ [Hn _]] [-> _]]]. exact Hn.
Qed.

(** X10: When the resident-optimal solver returns, every resident whose
    (pruned) preference list, as left in the caller's [resident_prefs], is
    non-empty is held by some hospital. *)
Theorem hr_resident_optimal_no_free_resident fuel hospital_prefs resident_prefs capacities M hp' rp' r l :
  HR.hospital_resident fuel hospital_prefs resident_prefs capacities "resident" = (Ok M, (hp', rp')) ->
  dget rp' r = Some l -> l <> [] ->
  exists h ml, In (h, ml) M /\ In r ml.
Proof.
  intros E Hr Hl. destruct (hospital_resident_post _ _ _ _ _ _ _ _ E) as [st [_ [_ [_ [_ C]]]]].
  destruct C as [[_ Hm]|[Eo _]]; [|discriminate].
  apply matched_In. eauto.
Qed.

(** X11: When the hospital-optimal solver returns, every hospital is full or has
    every resident left on its (pruned) preference list, except residents
    named by the empty string, which [_get_free_hospitals] treats as false. *)
Theorem hr_hospital_optimal_no_free_hospital fuel hospital_prefs resident_prefs capacities M hp' rp' h hl ml c :
  HR.hospital_resident fuel hospital_prefs resident_prefs capacities "hospital" = (Ok M, (hp', rp')) ->
  dget hp' h = Some hl -> dget M h = Some ml -> dget capacities h = Some c ->
  (c <= Z.of_nat (length ml))%Z \/ (forall r, In r hl -> ~ In r ml -> r = "").
Proof.
  intros E Hh Hm Hc. destruct (hospital_resident_post _ _ _ _ _ _ _ _ E) as [st [_ [_ [_ [_ C]]]]].
  destruct C as [[Eo _]|[_ Hf]]; [discriminate|].
  eapply free_hospitals_aux_nil; eauto. exact (dget_key _ _ _ Hh).
Qed.

(** X12: Once the input check passes, the hospital-optimal solver raises
    [KeyError] when a hospital has no capacity, before changing any list. *)
Theorem hr_hospital_optimal_missing_capacity fuel hospital_prefs resident_prefs capacities h :
  fst (HR.check_inputs (HR.State hospital_prefs resident_prefs [])) = Ok tt ->
  In h (map fst hospital_prefs) -> dget capacities h = None ->
  HR.hospital_resident (S fuel) hospital_prefs resident_prefs capacities "hospital" =
    (Raise KeyError, (hospital_prefs, resident_prefs)).
Proof.
  intros Hck Hin Hc. unfold HR.hospital_resident. cbv zeta. unfold bind at 1.
  pose proof (check_inputs_readonly (HR.State hospital_prefs resident_prefs [])) as Hro.
  destruct (HR.check_inputs _) as [o s1]. simpl in Hck, Hro. subst o s1.
  assert (Hk : HR.free_hospitals_aux (map fst hospital_prefs) hospital_prefs capacities
                 (HR.empty_matching hospital_prefs) = Raise KeyError).
  { apply free_hospitals_aux_keyerror with h; auto.
    intros k Hk. rewrite empty_matching_keys. exact Hk. }
  unfold HR.hr_hospital_optimal, HR.ho_loop, HR.free_hospitals, bind, get, lift, ret, modify.
  simpl. rewrite Hk. reflexivity.
Qed.

(** X13: When some resident of [hospital_prefs[h]] is matched to [h],
    [_get_worst_idx] returns the largest position in [hospital_prefs[h]]
    of a resident matched to [h]. *)
Theorem get_worst_idx_max h hp m hl ml :
  dget hp h = Some hl -> dget m h = Some ml -> (exists y, In y ml /\ In y hl) ->
  exists w, HR.get_worst_idx h hp m = Ok w /\
    (exists y, In y ml /\ idx_of y hl = Some w) /\
    (forall y i, In y ml -> idx_of y hl = Some i -> i <= w).
Proof.
  intros Hh Hm [y [Hy1 Hy2]].
  assert (Hok : exists w, HR.get_worst_idx h hp m = Ok w).
  { unfold HR.get_worst_idx, getitem. rewrite Hh, Hm. destruct hl as [|x l]; [destruct Hy2|].
    assert (Hf : In y (filter (fun resident => mem resident ml) (x :: l)))
      by (apply filter_In; split; auto; apply mem_In; auto).
    cbv beta iota.
    destruct (filter (fun resident => mem resident ml) (x :: l)) as [|a rs]; [destruct Hf|].
    simpl. eauto. }
  destruct Hok as [w Hw]. exists w. split; auto.
  destruct (get_worst_idx_spec _ _ _ _ Hw) as [hl' [ml' [Hh' [Hm' [H1 H2]]]]].
  rewrite Hh in Hh'. injection Hh' as <-. rewrite Hm in Hm'. injection Hm' as <-. auto.
Qed.

(** X14: [_get_worst_idx] raises [ValueError] from [max] when no resident of
    [hospital_prefs[h]] is matched to [h]; for an empty list it does so
    without reading [matching]. *)
Theorem get_worst_idx_none_matched h hp m hl :
  dget hp h = Some hl -> (forall y, In y hl -> exists ml, dget m h = Some ml /\ ~ In y ml) ->
  HR.get_worst_idx h hp m = Raise (ValueError "max() arg is an empty sequence").
Proof.
  intros Hh Hn. unfold HR.get_worst_idx, getitem. rewrite Hh.
  destruct hl as [|x l]; [reflexivity|].
  destruct (Hn x (or_introl eq_refl)) as [ml [Hm _]]. rewrite Hm. cbv beta iota.
  assert (E : forall l', incl l' (x :: l) -> filter (fun resident => mem resident ml) l' = []).
  { induction l' as [|a l' IH]; intros Hi; [reflexivity|]. simpl.
    destruct (Hn a (Hi a (or_introl eq_refl))) as [ml' [Hm' Ha]]. rewrite Hm in Hm'.
    injection Hm' as <-. apply mem_false in Ha. rewrite Ha.
    apply IH. intros b Hb. apply Hi. right. exact Hb. }
  rewrite (E (x :: l) (incl_refl _)). reflexivity.
Qed.

(** X15: [_get_worst_idx] raises [KeyError] when [h] is not a key of
    [hospital_prefs], or when its list is non-empty and [h] is not a key
    of [matching]. *)
Theorem get_worst_idx_missing_key h hp m :
  dget hp h = None \/ (exists x l, dget hp h = Some (x :: l) /\ dget m h = None) ->
  HR.get_worst_idx h hp m = Raise KeyError.
Proof.
  unfold HR.get_worst_idx, getitem. intros [Hh|[x [l [Hh Hm]]]]; rewrite Hh; [reflexivity|].
  rewrite Hm. reflexivity.
Qed.

(** X16: [sorted(matches, key=hospital_prefs[hospital].index)] (line 113): when
    every match is on the list [hl], the keys are computed and the result
    is a permutation of the matches in ascending order of rank in [hl]. *)
Theorem sorted_matches_by_rank hl ms :
  (forall y, In y ms -> In y hl) ->
  exists ks, HR.keys_of hl ms = Ok ks /\
    Permutation (HR.sort_by_key ks) ms /\ Sorted (rank_le hl) (HR.sort_by_key ks).
Proof.
  intros Hin.
  assert (Hok : exists ks, HR.keys_of hl ms = Ok ks).
  { induction ms as [|r ms IH]; simpl; [eauto|].
    destruct (proj1 (idx_of_In r hl) (Hin r (or_introl eq_refl))) as [i Hri].
    unfold list_index. rewrite Hri.
    destruct IH as [ks Hks]; [intros y Hy; apply Hin; right; exact Hy|]. rewrite Hks. eauto. }
  destruct Hok as [ks Hks]. exists ks. split; [exact Hks|split].
  - exact (keys_of_perm _ _ _ Hks).
  - exact (proj2 (sort_by_key_ranked _ _ _ Hks)).
Qed.

(** X17: [sorted(matches, key=hospital_prefs[hospital].index)] (line 113)
    raises [ValueError] from [index] when some match is not on the list
    [hl]. *)
Theorem sorted_matches_unranked hl ms :
  (exists y, In y ms /\ ~ In y hl) ->
  HR.keys_of hl ms = Raise (ValueError "x is not in list").
Proof.
  intros [y [Hy Hn]]. induction ms as [|r ms IH]; simpl; [destruct Hy|].
  unfold list_index. destruct (idx_of r hl) as [i|] eqn:Hr; [|reflexivity].
  destruct Hy as [<-|Hy].
  - exfalso. apply Hn. apply (proj2 (idx_of_In r hl)). eauto.
  - rewrite (IH Hy). reflexivity.
Qed.

Lemma sm_matching_keys_witness :
  fst (SM.stable_marriage 20 ex_sp ex_rp "reviewer") = Ok [("D", Some "B"); ("E", Some "C"); ("F", Some "A")] /\
  map fst [("D", Some "B"); ("E", Some "C"); ("F", Some "A")] = map fst ex_rp.
Proof.
  assert (H : fst (SM.stable_marriage 20 ex_sp ex_rp "reviewer") =
              Ok [("D", Some "B"); ("E", Some "C"); ("F", Some "A")]) by (vm_compute; reflexivity).
  split; [exact H|]. exact (sm_matching_keys 20 ex_sp ex_rp "reviewer" _ H).
Defined.

Lemma sm_no_unmatched_suitor_witness :
  fst (SM.stable_marriage 20 [("A", ["D"; "E"]); ("B", ["D"])] [("D", ["B"; "A"]); ("E", ["A"])] "suitor") =
    Ok [("A", Some "E"); ("B", Some "D")] /\
  exists r, dget [("A", Some "E"); ("B", Some "D")] "A" = Some (Some r).
Proof.
  assert (H : fst (SM.stable_marriage 20 [("A", ["D"; "E"]); ("B", ["D"])]
                     [("D", ["B"; "A"]); ("E", ["A"])] "suitor") =
              Ok [("A", Some "E"); ("B", Some "D")]) by (vm_compute; reflexivity).
  split; [exact H|].
  exact (sm_no_unmatched_suitor 20 _ _ "suitor" _ "A" H ltac:(simpl; auto)).
Defined.

Lemma sm_pairs_acceptable_witness :
  fst (SM.stable_marriage 20 [("A", ["D"; "E"]); ("B", ["D"])] [("D", ["B"; "A"]); ("E", ["A"])] "suitor") =
    Ok [("A", Some "E"); ("B", Some "D")] /\
  (exists l, dget [("A", ["D"; "E"]); ("B", ["D"])] "A" = Some l /\ In "E" l) /\
  (exists l, dget [("D", ["B"; "A"]); ("E", ["A"])] "E" = Some l /\ In "A" l).
Proof.
  assert (H : fst (SM.stable_marriage 20 [("A", ["D"; "E"]); ("B", ["D"])]
                     [("D", ["B"; "A"]); ("E", ["A"])] "suitor") =
              Ok [("A", Some "E"); ("B", Some "D")]) by (vm_compute; reflexivity).
  split; [exact H|].
  exact (sm_pairs_acceptable 20 _ _ "suitor" _ "A" "E" H eq_refl).
Defined.

Lemma sm_empty_list_raises_witness :
  fst (SM.stable_marriage 2 [("B", ["D"]); ("A", [])] [("D", ["A"; "B"])] "suitor") = Raise IndexError /\
  exists e, fst (SM.stable_marriage 2 [("B", ["D"]); ("A", [])] [("D", ["A"; "B"])] "suitor") = Raise e.
Proof.
  split; [vm_compute; reflexivity|].
  exact (sm_empty_list_raises 2 [("B", ["D"]); ("A", [])] [("D", ["A"; "B"])] "suitor" "A"
           eq_refl ltac:(simpl; lia)).
Defined.

Lemma sm_held_by_one_witness :
  NoDup (map fst [("A", ["D"; "E"]); ("B", ["D"])]) /\
  fst (SM.stable_marriage 20 [("A", ["D"; "E"]); ("B", ["D"])] [("D", ["B"; "A"]); ("E", ["A"])] "suitor") =
    Ok [("A", Some "E"); ("B", Some "D")] /\
  "B" = "B".
Proof.
  assert (Hn : NoDup (map fst [("A", ["D"; "E"]); ("B", ["D"])]))
    by (apply nodupb_NoDup; vm_compute; reflexivity).
  assert (H : fst (SM.stable_marriage 20 [("A", ["D"; "E"]); ("B", ["D"])]
                     [("D", ["B"; "A"]); ("E", ["A"])] "suitor") =
              Ok [("A", Some "E"); ("B", Some "D")]) by (vm_compute; reflexivity).
  split; [exact Hn|]. split; [exact H|].
  exact (sm_held_by_one 20 _ _ "suitor" _ "B" "B" "D" Hn H eq_refl eq_refl).
Defined.

Lemma sm_empty_side_witness :
  SM.stable_marriage 1 [] [("D", ["A"])] "suitor" = (Ok [], ([], [("D", ["A"])])).
Proof. exact (sm_empty_side 0 [] [("D", ["A"])] "suitor" eq_refl). Defined.

Lemma hr_matching_keys_witness :
  fst (HR.hospital_resident 50 ex_hosp ex_res ex_caps "resident") =
    Ok [("X", ["D"]); ("Y", ["A"; "B"]); ("Z", ["C"])] /\
  map fst [("X", ["D"]); ("Y", ["A"; "B"]); ("Z", ["C"])] = map fst ex_hosp.
Proof.
  assert (H : fst (HR.hospital_resident 50 ex_hosp ex_res ex_caps "resident") =
              Ok [("X", ["D"]); ("Y", ["A"; "B"]); ("Z", ["C"])]) by (vm_compute; reflexivity).
  split; [exact H|]. exact (hr_matching_keys 50 ex_hosp ex_res ex_caps "resident" _ H).
Defined.

Lemma hr_hospital_on_resident_list_witness :
  fst (HR.hospital_resident 50 ex_hosp ex_res ex_caps "resident") =
    Ok [("X", ["D"]); ("Y", ["A"; "B"]); ("Z", ["C"])] /\
  exists rl, dget ex_res "B" = Some rl /\ In "Y" rl.
Proof.
  assert (H : fst (HR.hospital_resident 50 ex_hosp ex_res ex_caps "resident") =
              Ok [("X", ["D"]); ("Y", ["A"; "B"]); ("Z", ["C"])]) by (vm_compute; reflexivity).
  split; [exact H|].
  exact (hr_hospital_on_resident_list 50 ex_hosp ex_res ex_caps "resident" _ "Y" ["A"; "B"] "B"
           H eq_refl ltac:(simpl; auto)).
Defined.

Lemma hr_resident_matched_once_witness :
  fst (HR.hospital_resident 50 ex_hosp ex_res ex_caps "resident") =
    Ok [("X", ["D"]); ("Y", ["A"; "B"]); ("Z", ["C"])] /\
  NoDup (concat (map snd [("X", ["D"]); ("Y", ["A"; "B"]); ("Z", ["C"])])) /\
  fst (HR.hospital_resident 30 ex3_hosp ex3_res ex3_caps "hospital") = Ok [("X", ["C"; "B"]); ("Y", ["A"])] /\
  NoDup (concat (map snd [("X", ["C"; "B"]); ("Y", ["A"])])).
Proof.
  assert (H1 : fst (HR.hospital_resident 50 ex_hosp ex_res ex_caps "resident") =
               Ok [("X", ["D"]); ("Y", ["A"; "B"]); ("Z", ["C"])]) by (vm_compute; reflexivity).
  assert (H2 : fst (HR.hospital_resident 30 ex3_hosp ex3_res ex3_caps "hospital") =
               Ok [("X", ["C"; "B"]); ("Y", ["A"])]) by (vm_compute; reflexivity).
  split; [exact H1|]. split; [exact (hr_resident_matched_once 50 ex_hosp ex_res ex_caps "resident" _ H1)|].
  split; [exact H2|]. exact (hr_resident_matched_once 30 ex3_hosp ex3_res ex3_caps "hospital" _ H2).
Defined.

Lemma hr_resident_optimal_no_free_resident_witness :
  HR.hospital_resident 50 ex_hosp ex_res ex_caps "resident" =
    (Ok [("X", ["D"]); ("Y", ["A"; "B"]); ("Z", ["C"])],
     ([("X", ["C"; "B"; "D"]); ("Y", ["A"; "B"]); ("Z", ["C"; "D"; "A"])],
      [("A", ["Y"]); ("B", ["Y"; "X"]); ("C", ["Z"; "X"]); ("D", ["X"; "Z"])])) /\
  exists h ml, In (h, ml) [("X", ["D"]); ("Y", ["A"; "B"]); ("Z", ["C"])] /\ In "C" ml.
Proof.
  assert (H : HR.hospital_resident 50 ex_hosp ex_res ex_caps "resident" =
    (Ok [("X", ["D"]); ("Y", ["A"; "B"]); ("Z", ["C"])],
     ([("X", ["C"; "B"; "D"]); ("Y", ["A"; "B"]); ("Z", ["C"; "D"; "A"])],
      [("A", ["Y"]); ("B", ["Y"; "X"]); ("C", ["Z"; "X"]); ("D", ["X"; "Z"])])))
    by (vm_compute; reflexivity).
  split; [exact H|].
  exact (hr_resident_optimal_no_free_resident 50 ex_hosp ex_res ex_caps _ _ _ "C" ["Z"; "X"]
           H eq_refl ltac:(discriminate)).
Defined.

(** A hospital whose only candidate is named by the empty string is not
    free: it stays empty below its capacity. *)
Lemma hr_hospital_optimal_no_free_hospital_witness :
  HR.hospital_resident 5 [("X", [""])] [("", ["X"])] [("X", 1%Z)] "hospital" =
    (Ok [("X", [])], ([("X", [""])], [("", ["X"])])) /\
  ((1 <= Z.of_nat (length (@nil string)))%Z \/ (forall r, In r [""] -> ~ In r [] -> r = "")).
Proof.
  assert (H : HR.hospital_resident 5 [("X", [""])] [("", ["X"])] [("X", 1%Z)] "hospital" =
    (Ok [("X", [])], ([("X", [""])], [("", ["X"])]))) by (vm_compute; reflexivity).
  split; [exact H|].
  exact (hr_hospital_optimal_no_free_hospital 5 _ _ _ _ _ _ "X" [""] [] 1%Z H eq_refl eq_refl eq_refl).
Defined.

Lemma hr_hospital_optimal_missing_capacity_witness :
  HR.hospital_resident 20 ex2_hosp ex2_res [] "hospital" = (Raise KeyError, (ex2_hosp, ex2_res)).
Proof.
  exact (hr_hospital_optimal_missing_capacity 19 ex2_hosp ex2_res [] "X"
           ltac:(vm_compute; reflexivity) ltac:(simpl; auto) eq_refl).
Defined.

Lemma get_worst_idx_max_witness :
  HR.get_worst_idx "Y" ex_hosp [("Y", ["B"; "A"])] = Ok 1 /\
  exists w, HR.get_worst_idx "Y" ex_hosp [("Y", ["B"; "A"])] = Ok w /\
    (exists y, In y ["B"; "A"] /\ idx_of y ["A"; "B"; "D"; "C"] = Some w) /\
    (forall y i, In y ["B"; "A"] -> idx_of y ["A"; "B"; "D"; "C"] = Some i -> i <= w).
Proof.
  split; [vm_compute; reflexivity|].
  exact (get_worst_idx_max "Y" ex_hosp [("Y", ["B"; "A"])] ["A"; "B"; "D"; "C"] ["B"; "A"]
           eq_refl eq_refl ltac:(exists "A"; simpl; auto)).
Defined.

Lemma get_worst_idx_none_matched_witness :
  HR.get_worst_idx "Y" ex_hosp [("Y", ["E"])] = Raise (ValueError "max() arg is an empty sequence").
Proof.
  apply (get_worst_idx_none_matched "Y" ex_hosp [("Y", ["E"])] ["A"; "B"; "D"; "C"] eq_refl).
  intros y Hy. exists ["E"]. split; [reflexivity|].
  simpl in Hy. intros [He|[]]. destruct Hy as [<-|[<-|[<-|[<-|[]]]]]; discriminate.
Defined.

Lemma get_worst_idx_missing_key_witness :
  HR.get_worst_idx "Y" ex_hosp [] = Raise KeyError.
Proof.
  apply get_worst_idx_missing_key. right. exists "A", ["B"; "D"; "C"]. split; reflexivity.
Defined.

Lemma sorted_matches_by_rank_witness :
  HR.keys_of ["A"; "B"; "C"] ["C"; "A"] = Ok [(2, "C"); (0, "A")] /\
  HR.sort_by_key [(2, "C"); (0, "A")] = ["A"; "C"] /\
  exists ks, HR.keys_of ["A"; "B"; "C"] ["C"; "A"] = Ok ks /\
    Permutation (HR.sort_by_key ks) ["C"; "A"] /\ Sorted (rank_le ["A"; "B"; "C"]) (HR.sort_by_key ks).
Proof.
  split; [reflexivity|]. split; [reflexivity|].
  apply sorted_matches_by_rank. intros y Hy. simpl in Hy |- *.
  destruct Hy as [<-|[<-|[]]]; auto.
Defined.

Lemma sorted_matches_unranked_witness :
  HR.keys_of ["A"; "B"; "C"] ["C"; "Q"] = Raise (ValueError "x is not in list").
Proof.
  apply sorted_matches_unranked. exists "Q". split; [simpl; auto|].
  simpl. intros [H|[H|[H|[]]]]; discriminate.
Defined.
